(** * Vellum data sources: tree builder, hashtag map compiler, loader.

    A shallow embedding of [datasources.js] (the third module of
    [src/src/commtrack.js]), of its predecessor ([src/unnamed/part_000])
    and of the escaped-hashtag transformer exercised by
    [src/tests/escapedHashtags.js]; and of the two modules that come before
    [datasources.js] in [src/src/commtrack.js], the commtrack plugin and
    the undo manager. *)

From Stdlib Require Import String Ascii List Bool Arith ZArith Lia.
From stdpp Require Import gmap strings list fin_maps.

Local Open Scope string_scope.
Local Open Scope list_scope.
Local Open Scope stdpp_scope.
Set Warnings "-register-all,-clear-no-such-hyp".

(** ** JavaScript values used by the module *)

Module Js.
(** [String(x)] for a string-or-[undefined] value. *)
Definition str (o : option string) : string := default "undefined" o.

(** [String(x)] for a string-or-[null] value. *)
Definition str_null (o : option string) : string := default "null" o.

(** Truthiness of a string-or-missing value: a missing value and the
    empty string are falsy. *)
Definition truthy (o : option string) : bool :=
  match o with
  | Some s => negb (String.eqb s "")
  | None => false
  end.

(** [a || b]. *)
Definition or (a b : option string) : option string :=
  if truthy a then a else b.

(** Outcome of a computation that may throw, run with bounded fuel. *)
Inductive res (A : Type) : Type :=
| Ok (a : A)
| TypeError
| OutOfFuel.
Global Arguments Ok {A} a.
Global Arguments TypeError {A}.
Global Arguments OutOfFuel {A}.
End Js.

(** ** Data-source descriptors

    Sources, subsets and the entries of a [structure] are all plain JSON
    objects that the builder passes around interchangeably ([source = item]),
    so one record with optional keys models the three.  An object used as a
    map ([structure], [related]) is the list of its entries in enumeration
    order, which is the order [_.map] and [_.each] visit them in; the
    values of a [structure] are objects. *)

Record Reference := mkReference {
  ref_source : option string;
  ref_subset : option string;
  ref_key : option string;
}.

Module Item.
Inductive t := mk {
  id : option string;
  uri : option string;
  path : option string;
  name : option string;
  key : option string;
  structure : option (list (string * t));
  reference : option Reference;
  subsets : option (list t);
  related : option (list (string * string));
}.

(** The empty object [{}]. *)
Definition empty : t := mk None None None None None None None None None.

(** [_.omit(source, "structure")]. *)
Definition omit_structure (s : t) : t :=
  mk (id s) (uri s) (path s) (name s) (key s) None
     (reference s) (subsets s) (related s).
End Item.

(** [info]: [_.omit(source, "structure")], extended with [_parent] below the
    root. *)
Inductive Info := mkInfo {
  info_fields : Item.t;
  info_parent : option Info;
}.

(** ** Plain objects used as maps

    [sources] (the result of [_.indexBy]) and [seen] are plain objects, so
    they inherit the members of [Object.prototype]. *)

Module Object.
(** The property names a plain object inherits, each with the [name] of
    the function it holds (ES2015, with the accessors of Annex B);
    [__proto__] holds the prototype object itself, which has no [name]. *)
Definition prototype : list (string * option string) :=
  [("constructor", Some "Object");
   ("toString", Some "toString");
   ("toLocaleString", Some "toLocaleString");
   ("valueOf", Some "valueOf");
   ("hasOwnProperty", Some "hasOwnProperty");
   ("isPrototypeOf", Some "isPrototypeOf");
   ("propertyIsEnumerable", Some "propertyIsEnumerable");
   ("__defineGetter__", Some "__defineGetter__");
   ("__defineSetter__", Some "__defineSetter__");
   ("__lookupGetter__", Some "__lookupGetter__");
   ("__lookupSetter__", Some "__lookupSetter__");
   ("__proto__", None)].

(** An inherited member as the builder sees it when it takes it for a
    source: of the properties the builder reads ([id], [path], [name],
    [subsets], [structure], [related]) it has at most [name]. *)
Definition member (name : option string) : Item.t :=
  Item.mk None None None name None None None None None.

(** The members, as the builder sees them. *)
Definition members : list Item.t := (fun m => member m.2) <$> prototype.

(** [sources[key]]: the source indexed under [key] or, when there is none,
    what the object inherits under that name; [None] is [undefined].  With
    the source goes what [_.omit(source, "structure")] makes of it: an
    inherited member has no enumerable property, and [_.omit] gives [{}].
    A source whose id is [__proto__] is not stored by [_.indexBy] but made
    the prototype of the index, where [sources["__proto__"]] finds it; the
    index then also inherits the properties of that source (its [id],
    [name], [structure], ...), which are not sources and which this reading
    leaves [undefined]. *)
Definition get (sources : gmap string Item.t) (key : string)
    : option (Item.t * Item.t) :=
  match sources !! key with
  | Some source => Some (source, Item.omit_structure source)
  | None =>
      (fun m => (member m.2, Item.empty))
        <$> List.find (fun m => String.eqb m.1 key) prototype
  end.

(** [seen[key] = true]: assigning a value that is not an object to
    [__proto__] does nothing. *)
Definition set (key : string) (seen : gset string) : gset string :=
  if String.eqb key "__proto__" then seen else {[key]} ∪ seen.
End Object.

(** A data node.  [getNodes] is a closure over [source], [path] and [info]
    of [getTree]; the three captured variables stand for it here, and
    [getNodes] below applies it. *)
Record DataNode := mkDataNode {
  name : string;
  hashtag : option string;
  hashtagPrefix : option string;
  parentPath : option string;
  xpath : string;
  index : bool;
  sourceInfo : Info;
  recursive : bool;
  thunk_source : option Item.t;
  thunk_path : string;
  thunk_info : Info;
}.

(** ** Underscore helpers *)

Module Underscore.
(** The comparator of [_.sortBy] on two criteria, [None] being
    [undefined]: does the left element go after the right one?  Strings
    are compared byte by byte; JavaScript compares UTF-16 code units, which
    gives another order only between a character beyond the basic plane and
    one from U+E000 to U+FFFF. *)
Definition after (a b : option string) : bool :=
  match a, b with
  | None, None => false
  | None, Some _ => true
  | Some _, None => false
  | Some x, Some y => String.ltb y x
  end.

Fixpoint insert {A} (crit : A -> option string) (x : A) (l : list A) : list A :=
  match l with
  | [] => [x]
  | y :: l' => if after (crit x) (crit y) then y :: insert crit x l' else x :: l
  end.

(** [_.sortBy(list, key)]: sorts by criterion, ties broken by original
    position. *)
Definition sortBy {A} (crit : A -> option string) (l : list A) : list A :=
  foldr (insert crit) [] l.

(** [_.compact] on a list whose falsy members are [null]. *)
Definition compact {A} (l : list (option A)) : list (option A) :=
  List.filter (fun o => match o with Some _ => true | None => false end) l.

(** [_.findWhere(subsets, {id: i, key: k})]. *)
Definition findWhere (l : list Item.t) (i k : string) : option Item.t :=
  List.find (fun s => bool_decide (Item.id s = Some i) && bool_decide (Item.key s = Some k)) l.

(** [_.indexBy(sources, "id")]: a later source replaces an earlier one
    with the same id. *)
Definition indexBy_id (l : list Item.t) : gmap string Item.t :=
  foldl (fun m s => <[Js.str (Item.id s) := s]> m) ∅ l.

(** [_.contains(list, x)]. *)
Definition contains (l : list string) (x : string) : bool :=
  bool_decide (x ∈ l).
End Underscore.

(** ** builders.dataNodes *)

(** The object [getTree] returns: [name], [recursive], and the variables
    captured by its [getNodes] closure. *)
Record Tree := mkTree {
  tree_name : string;
  tree_recursive : bool;
  tree_source : option Item.t;
  tree_path : string;
  tree_info : Info;
}.

(** [node.text]: the node literal built by [node] has no [text] key, so the
    criterion [_.sortBy(nodes, "text")] reads is [undefined] for every node
    (and for [null], off which Underscore's property getter reads
    [undefined]). *)
Definition text (n : option DataNode) : option string := None.

Section Builder.
(** [that.invalidCaseProperties] *)
Variable invalidCaseProperties : list string.
(** [sources], after [_.indexBy(sources, "id")]: the keys [_.indexBy] has
    put there.  [sources[key]] is read with [Object.get], which also finds
    what the object inherits. *)
Variable sources : gmap string Item.t.

(** [getTree(item, id, path, info)], threading the build-wide [seen]
    object.  [seen.hasOwnProperty] is read as the method [seen] inherits:
    once [seen] has a key [hasOwnProperty] of its own (a source with that
    id was recorded) the call throws instead, which this function does not
    show; the statements below say where they need [seen] without that
    key. *)
Definition getTree (seen : gset string) (item : Item.t) (id path : string)
    (info : Info) : Tree * gset string :=
  let name0 := Js.str (Js.or (Item.name item) (Some id)) in
  match Item.structure item, Item.reference item with
  | None, Some ref =>
      match Object.get sources
              (Js.str (Js.or (ref_source ref) (Item.id (info_fields info)))) with
      | Some (source0, fields) =>
          let info' := mkInfo fields (Some info) in
          let path' := "instance('" +:+ Js.str (Item.id source0) +:+ "')"
                       +:+ Js.str (Item.path source0)
                       +:+ "[" +:+ Js.str (ref_key ref) +:+ " = " +:+ path +:+ "]" in
          let source :=
            match Item.subsets source0, ref_subset ref with
            | Some subs, Some sub =>
                if Js.truthy (Some sub)
                then default source0 (Underscore.findWhere subs sub "@case_type")
                else source0
            | _, _ => source0
            end in
          let name1 := Js.or (Item.name source) (Item.id source) in
          let name' := if Js.truthy name1 then Js.str name1 else name0 in
          if bool_decide (Js.str (Item.id source) ∈ seen)
          then (mkTree name' true (Some source) path' info', seen)
          else (mkTree name' false (Some source) path' info',
                Object.set (Js.str (Item.id source)) seen)
      | None => (mkTree name0 false None path info, seen)
      end
  | _, _ => (mkTree name0 false (Some item) path info, seen)
  end.

(** [node(source, parentPath, info, index)(item, id)]; [None] is the
    [null] returned for an invalid case property. *)
Definition node (source : option Item.t) (parentPath : option string)
    (info : Info) (index : bool) (seen : gset string) (item : Item.t)
    (id : string) : option DataNode * gset string :=
  if Underscore.contains invalidCaseProperties id then (None, seen)
  else
    let path := if Js.truthy parentPath
                then Js.str_null parentPath +:+ "/" +:+ id else id in
    let '(tree, seen') := getTree seen item id path info in
    let hashtagPrefix :=
      match source with
      | Some s =>
          if bool_decide (Item.id s = Some "commcaresession") then None
          else Some ("#case/" +:+
                     (if bool_decide (Item.id s = Some "case") then ""
                      else Js.str (Item.id s) +:+ "/"))
      | None => None
      end in
    let hashtag := (fun p => p +:+ id) <$> hashtagPrefix in
    (Some (mkDataNode (tree_name tree) hashtag hashtagPrefix parentPath path
                      index info (tree_recursive tree)
                      (tree_source tree) (tree_path tree) (tree_info tree)),
     seen').

(** [_.map(obj, f)] for an [f] that updates [seen]: entries are visited
    in order. *)
Fixpoint map_seen {A B} (f : gset string -> A -> B * gset string)
    (seen : gset string) (l : list A) : list B * gset string :=
  match l with
  | [] => ([], seen)
  | a :: l' =>
      let '(b, seen1) := f seen a in
      let '(bs, seen2) := map_seen f seen1 l' in
      (b :: bs, seen2)
  end.

(** [getNodes(source, path, info)] *)
Definition getNodes (seen : gset string) (source : option Item.t)
    (path : string) (info : Info) : list (option DataNode) * gset string :=
  let entries := default [] (source ≫= Item.structure) in
  let '(mapped, seen1) :=
    map_seen (fun sn '(id, item) => node source (Some path) info false sn item id)
             seen entries in
  let nodes := Underscore.sortBy text (Underscore.compact mapped) in
  match source ≫= Item.related with
  | Some rel =>
      let '(relnodes, seen2) :=
        map_seen (fun sn '(relation, subset) =>
                    let item := Item.mk None None None None None None
                                  (Some (mkReference None (Some subset) (Some "@case_id")))
                                  None None in
                    node source (Some (path +:+ "/index")) info true sn item relation)
                 seen1 rel in
      (Underscore.sortBy text relnodes ++ nodes, seen2)
  | None => (nodes, seen1)
  end.

(** [node.getNodes()], first call (the closure caches its result in
    [children]; the walk below calls it once per node). *)
Definition expand (seen : gset string) (n : DataNode)
    : list (option DataNode) * gset string :=
  getNodes seen (thunk_source n) (thunk_path n) (thunk_info n).
End Builder.

(** ** builders.hashtags *)

Module Hashtags.
(** [{map: {}, transforms: {}}].  A transform is the closure
    [function (prop) { return node.parentPath + "/" + prop; }]; the node it
    captured stands for it, and [call] applies it. *)
Record t := mk {
  map : gmap string string;
  transforms : gmap string DataNode;
}.

Definition empty : t := mk ∅ ∅.

Definition call (n : DataNode) (prop : string) : string :=
  Js.str_null (parentPath n) +:+ "/" +:+ prop.
End Hashtags.

(** The body of the [if (node.hashtag && !node.index)] statement of [walk]. *)
Definition record (n : DataNode) (h : Hashtags.t) : Hashtags.t :=
  if Js.truthy (hashtag n) && negb (index n)
  then Hashtags.mk (<[Js.str_null (hashtag n) := xpath n]> (Hashtags.map h))
                   (<[Js.str_null (hashtagPrefix n) := n]> (Hashtags.transforms h))
  else h.

Section Compiler.
Variable invalidCaseProperties : list string.
Variable sources : gmap string Item.t.

Let walk_t : Type :=
  gset string -> list (option DataNode) -> Hashtags.t ->
  Js.res (Hashtags.t * gset string).

(** The [_.each(nodes, function (node) {...})] loop of [walk], with the
    recursive call abstracted; touching a [null] node throws. *)
Fixpoint each (rec : walk_t) (seen : gset string)
    (nodes : list (option DataNode)) (h : Hashtags.t)
    : Js.res (Hashtags.t * gset string) :=
  match nodes with
  | [] => Js.Ok (h, seen)
  | None :: _ => Js.TypeError
  | Some n :: rest =>
      let h1 := record n h in
      if recursive n then each rec seen rest h1
      else
        let '(children, seen1) := expand invalidCaseProperties sources seen n in
        match rec seen1 children h1 with
        | Js.Ok (h2, seen2) => each rec seen2 rest h2
        | e => e
        end
  end.

(** [walk(nodes, hashtags)]; [fuel] bounds the nesting of calls. *)
Fixpoint walk (fuel : nat) : walk_t :=
  match fuel with
  | O => fun _ _ _ => Js.OutOfFuel
  | S fuel' => each (walk fuel')
  end.
End Compiler.

(** [builders.dataNodes(that)], given the value of
    [getValue(that, "sources")].  The result is the list of nodes together
    with the [seen] object their [getNodes] closures share; [Ok None] is
    [undefined]. *)
Definition dataNodes (invalidCaseProperties : list string)
    (loaded : option (list Item.t))
    : Js.res (option (gmap string Item.t * list (option DataNode) * gset string)) :=
  match loaded with
  | None => Js.Ok None
  | Some l =>
      let sources := Underscore.indexBy_id l in
      match sources !! "commcaresession" with
      | None => Js.Ok None
      | Some source =>
          let info := mkInfo (Item.omit_structure source) None in
          let path := "instance('" +:+ Js.str (Item.id source) +:+ "')"
                      +:+ Js.str (Item.path source) in
          match node invalidCaseProperties sources (Some source) None info false
                     ∅ source path with
          | (None, _) => Js.TypeError
          | (Some root, seen) =>
              let '(nodes, seen') := expand invalidCaseProperties sources seen root in
              Js.Ok (Some (sources, nodes, seen'))
          end
      end
  end.

(** [builders.hashtags(that)], for nodes no one has expanded before, as
    they are when the hashtags are compiled right after the nodes are
    built. *)
Definition hashtags (fuel : nat) (invalidCaseProperties : list string)
    (loaded : option (list Item.t)) : Js.res (option Hashtags.t) :=
  match dataNodes invalidCaseProperties loaded with
  | Js.Ok (Some (sources, nodes, seen)) =>
      match walk invalidCaseProperties sources fuel seen nodes Hashtags.empty with
      | Js.Ok (h, _) => Js.Ok (Some h)
      | Js.TypeError => Js.TypeError
      | Js.OutOfFuel => Js.OutOfFuel
      end
  | Js.Ok None => Js.Ok None
  | Js.TypeError => Js.TypeError
  | Js.OutOfFuel => Js.OutOfFuel
  end.

(** [builders.hashtagMap(that)]: [hashtags && hashtags.map]. *)
Definition hashtagMap (fuel : nat) (invalidCaseProperties : list string)
    (loaded : option (list Item.t)) : Js.res (option (gmap string string)) :=
  match hashtags fuel invalidCaseProperties loaded with
  | Js.Ok o => Js.Ok (Hashtags.map <$> o)
  | Js.TypeError => Js.TypeError
  | Js.OutOfFuel => Js.OutOfFuel
  end.

(** ** The walk, with a record of what it touches

    [walk_trace] follows [walk] call for call and, instead of filling
    [hashtags], lists the nodes handed to the [_.each] callback ([visited],
    in order) and the nodes whose [getNodes] was called ([expanded]). *)

Section Trace.
Variable invalidCaseProperties : list string.
Variable sources : gmap string Item.t.

Let trace_t : Type :=
  gset string -> list (option DataNode) ->
  Js.res (list DataNode * list DataNode * gset string).

Fixpoint each_trace (rec : trace_t) (seen : gset string)
    (nodes : list (option DataNode))
    : Js.res (list DataNode * list DataNode * gset string) :=
  match nodes with
  | [] => Js.Ok ([], [], seen)
  | None :: _ => Js.TypeError
  | Some n :: rest =>
      if recursive n then
        match each_trace rec seen rest with
        | Js.Ok (v, e, seen') => Js.Ok (n :: v, e, seen')
        | err => err
        end
      else
        let '(children, seen1) := expand invalidCaseProperties sources seen n in
        match rec seen1 children with
        | Js.Ok (v1, e1, seen2) =>
            match each_trace rec seen2 rest with
            | Js.Ok (v2, e2, seen') => Js.Ok (n :: v1 ++ v2, n :: e1 ++ e2, seen')
            | err => err
            end
        | err => err
        end
  end.

Fixpoint walk_trace (fuel : nat) : trace_t :=
  match fuel with
  | O => fun _ _ => Js.OutOfFuel
  | S fuel' => each_trace (walk_trace fuel')
  end.
End Trace.

(** The two assignments of [walk], for a node that passes its test. *)
Definition assign (h : Hashtags.t) (n : DataNode) : Hashtags.t :=
  Hashtags.mk (<[Js.str_null (hashtag n) := xpath n]> (Hashtags.map h))
              (<[Js.str_null (hashtagPrefix n) := n]> (Hashtags.transforms h)).

(** [hashtag != null && !index] *)
Definition selected (n : DataNode) : bool :=
  bool_decide (hashtag n ≠ None) && negb (index n).

(** ** A bound on the nesting of [walk] *)

(** Nesting depth of the [structure] of an item. *)
Fixpoint depth (it : Item.t) : nat :=
  match it with
  | Item.mk _ _ _ _ _ (Some entries) _ _ _ =>
      S ((fix deepest (l : list (string * Item.t)) : nat :=
            match l with
            | [] => 0
            | (_, x) :: l' => Nat.max (depth x) (deepest l')
            end) entries)
  | _ => 0
  end.

(** The objects a reference can resolve to: the sources and their subsets,
    and the members the index inherits. *)
Definition candidates (sources : gmap string Item.t) : list Item.t :=
  (s ← (map_to_list sources).*2; s :: default [] (Item.subsets s)) ++ Object.members.

(** The keys [seen] can ever hold. *)
Definition universe (sources : gmap string Item.t) : gset string :=
  list_to_set ((fun s => Js.str (Item.id s)) <$> candidates sources).

Definition maxdepth (sources : gmap string Item.t) : nat :=
  max_list (depth <$> candidates sources).

(** How deep the walk can still go below a node. *)
Definition rank (on : option DataNode) : nat :=
  match on with
  | None => 0
  | Some n =>
      if recursive n then 0
      else match thunk_source n with
           | None => 1
           | Some it => 2 + depth it
           end
  end.

(** Fuel that suffices for [walk] over the nodes built from [l]. *)
Definition walk_fuel (l : list Item.t) : nat :=
  let sources := Underscore.indexBy_id l in
  (size (universe sources) + 1) * (maxdepth sources + 3).

(** ** Vocabulary for the statements *)

(** [!item.structure && item.reference] *)
Definition is_reference (item : Item.t) : Prop :=
  Item.structure item = None ∧ Item.reference item ≠ None.

(** The ids of the sources above a node, innermost first: the [_parent]
    chain of its [sourceInfo]. *)
Fixpoint ancestors (i : Info) : list string :=
  match i with
  | mkInfo fields parent =>
      Js.str (Item.id fields) ::
      match parent with
      | Some p => ancestors p
      | None => []
      end
  end.

(** [parentPath ? (parentPath + "/" + id) : id] *)
Definition child_path (parentPath : option string) (id : string) : string :=
  if Js.truthy parentPath then Js.str_null parentPath +:+ "/" +:+ id else id.

(** The entries of [source.structure] and of [source.related]. *)
Definition entries_of (source : option Item.t) : list (string * Item.t) :=
  default [] (source ≫= Item.structure).

Definition relations_of (source : option Item.t) : list (string * string) :=
  default [] (source ≫= Item.related).

(** The record of the walk [builders.hashtags] makes. *)
Definition hashtags_trace (fuel : nat) (invalidCaseProperties : list string)
    (loaded : option (list Item.t))
    : Js.res (list DataNode * list DataNode * gset string) :=
  match dataNodes invalidCaseProperties loaded with
  | Js.Ok (Some (sources, nodes, seen)) =>
      walk_trace invalidCaseProperties sources fuel seen nodes
  | Js.Ok None => Js.Ok ([], [], ∅)
  | Js.TypeError => Js.TypeError
  | Js.OutOfFuel => Js.OutOfFuel
  end.

(** A node as [getNodes(source, path, info)] builds it from a structure
    entry. *)
Definition structural (path : string) (info : Info) (e : string * Item.t)
    (on : option DataNode) : Prop :=
  ∃ n, on = Some n ∧ xpath n = child_path (Some path) e.1
       ∧ parentPath n = Some path ∧ index n = false ∧ sourceInfo n = info.

(** A node as it builds it from a relation; [None] when the relation name
    is an invalid case property. *)
Definition relational (path : string) (info : Info) (e : string * string)
    (on : option DataNode) : Prop :=
  ∀ n, on = Some n →
       xpath n = child_path (Some (path +:+ "/index")) e.1
       ∧ parentPath n = Some (path +:+ "/index") ∧ index n = true
       ∧ sourceInfo n = info.

(** The path handed to the root node as its id. *)
Definition root_path (source : Item.t) : string :=
  "instance('" +:+ Js.str (Item.id source) +:+ "')" +:+ Js.str (Item.path source).

(** What [walk] returns, read off the record of [walk_trace]. *)
Definition fill (h : Hashtags.t)
    (r : Js.res (list DataNode * list DataNode * gset string))
    : Js.res (Hashtags.t * gset string) :=
  match r with
  | Js.Ok (visited, _, seen) => Js.Ok (foldl (fun h n => record n h) h visited, seen)
  | Js.TypeError => Js.TypeError
  | Js.OutOfFuel => Js.OutOfFuel
  end.

(** Nodes that satisfy [P], [null] apart. *)
Definition all_nodes (P : DataNode → Prop) (nodes : list (option DataNode)) : Prop :=
  Forall (fun on => ∀ n, on = Some n → P n) nodes.

(** [node.hashtag] is [null] or a non-empty string, so its truthiness is
    the test [hashtag != null]. *)
Definition well_tagged (n : DataNode) : Prop := hashtag n ≠ Some "".

(** The hashtag and the prefix of a built node are both [null] or both
    strings, the hashtag a non-empty one. *)
Definition tagged (n : DataNode) : Prop :=
  (hashtag n = None ∧ hashtagPrefix n = None)
  ∨ ∃ p t, hashtagPrefix n = Some p ∧ hashtag n = Some t ∧ t ≠ "".

(** Rank bound for the node of an entry: a reference that adds nothing to
    [seen] is not expanded beyond one call; any other item is expanded to
    the depth of its structure. *)
Definition item_rank (item : Item.t) : nat :=
  match Item.structure item, Item.reference item with
  | None, Some _ => 1
  | _, _ => 2 + depth item
  end.

(** [rank] of the node made from a tree. *)
Definition tree_rank (tree : Tree) : nat :=
  if tree_recursive tree then 0
  else match tree_source tree with
       | None => 1
       | Some it => 2 + depth it
       end.

(** [seen] grew from [seen] to [seen'] while a list of nodes was built:
    either nothing was recorded and the nodes rank at most [r], or the number
    of keys still missing from [seen] went down. *)
Definition progress (sources : gmap string Item.t) (r : nat)
    (seen seen' : gset string) (ranks : list nat) : Prop :=
  seen ⊆ seen'
  ∧ ((seen' = seen ∧ Forall (fun k => k ≤ r)%nat ranks)
     ∨ ((size (universe sources ∖ seen') < size (universe sources ∖ seen))%nat
        ∧ Forall (fun k => k ≤ maxdepth sources + 2)%nat ranks)).

(** Rank bound for the children of a node whose closure holds [source]. *)
Definition children_rank (source : option Item.t) : nat :=
  match source with
  | Some it => 1 + depth it
  | None => 0
  end.

(** The hashtag [node(source, ...)] gives the entry [id] of [source]. *)
Definition hashtag_of (source : option Item.t) (id : string) : option string :=
  match source with
  | Some s =>
      if bool_decide (Item.id s = Some "commcaresession") then None
      else Some (("#case/" +:+
                  (if bool_decide (Item.id s = Some "case") then ""
                   else Js.str (Item.id s) +:+ "/")) +:+ id)
  | None => None
  end.

(** What a node built below the root says of itself: its closure holds a
    path, it hangs below a parent path, and its xpath and its hashtag, if it
    has one, end in the same name, which is not an invalid case property. *)
Definition rooted (invalidCaseProperties : list string) (n : DataNode) : Prop :=
  thunk_path n ≠ "" ∧ Js.truthy (parentPath n) = true
  ∧ ∃ id, (id ∉ invalidCaseProperties)
          ∧ xpath n = child_path (parentPath n) id
          ∧ ((hashtag n = None ∧ hashtagPrefix n = None)
             ∨ ∃ p, hashtagPrefix n = Some ("#case/" +:+ p)
                    ∧ hashtag n = Some (("#case/" +:+ p) +:+ id)).

(** A node whose item was a reference that [getTree] resolved: the [info]
    its closure holds is then one [_parent] link longer than the [info] the
    node itself carries. *)
Definition resolves (n : DataNode) : bool :=
  (length (ancestors (thunk_info n)) =? S (length (ancestors (sourceInfo n))))%nat.

(** The key [getTree] looks up in [seen] for a resolved reference:
    [source.id]. *)
Definition target (n : DataNode) : string := Js.str (thunk_source n ≫= Item.id).

(** A resolved reference that is not marked recursive: the walk expands the
    source or subset it resolved to. *)
Definition unfolds (n : DataNode) : bool := resolves n && negb (recursive n).

(** The keys the nodes of a list have added to [seen] when they were
    built. *)
Definition claims (nodes : list (option DataNode)) : list string :=
  target <$> filter (fun n => unfolds n = true) (omap id nodes).

(** [seen] grew from [seen] to [seen'] by the keys [ks], each of them new. *)
Definition fresh (seen seen' : gset string) (ks : list string) : Prop :=
  NoDup ks ∧ (∀ k, k ∈ ks → k ∉ seen) ∧ seen' = list_to_set ks ∪ seen.

(** No object a reference can resolve to has the id [__proto__], the one
    key the [seen] object cannot keep. *)
Definition storable (sources : gmap string Item.t) : Prop :=
  "__proto__" ∉ universe sources.

(** None has the id [hasOwnProperty], the key that would hide the method
    of that name from [seen]. *)
Definition unshadowed (sources : gmap string Item.t) : Prop :=
  "hasOwnProperty" ∉ universe sources.

(** [_.indexBy] has made every source a key of the index: none has the id
    [__proto__], with which it would become the prototype of the index. *)
Definition indexed (sources : gmap string Item.t) : Prop :=
  sources !! "__proto__" = None.



(** ** Sample descriptors *)

Module Samples.
Definition leaf : Item.t := Item.empty.

Definition ref (source : string) : Item.t :=
  Item.mk None None None None None None
    (Some (mkReference (Some source) None (Some "@case_id"))) None None.

Definition source (id path : string) (structure : list (string * Item.t)) : Item.t :=
  Item.mk (Some id) (Some "") (Some path) None None (Some structure) None None None.

(** [commcaresession -> A -> B -> A] *)
Definition cyclic : list Item.t :=
  [ source "commcaresession" "/session" [("case", ref "A")];
    source "A" "/a" [("name", leaf); ("child", ref "B")];
    source "B" "/b" [("age", leaf); ("parent", ref "A")] ].

(** One source referenced from two sibling entries. *)
Definition siblings : list Item.t :=
  [ source "commcaresession" "/session" [("mother", ref "X"); ("father", ref "X")];
    source "X" "/x" [("name", leaf)] ].

(** A subset that adds [color] to a source whose structure has [name]. *)
Definition subset_ref : Item.t :=
  Item.mk None None None None None None
    (Some (mkReference (Some "casedb") (Some "mother") (Some "@case_id"))) None None.

Definition with_subset : list Item.t :=
  [ source "commcaresession" "/session" [("case_id", subset_ref)];
    Item.mk (Some "casedb") (Some "") (Some "/cases/case") None None
      (Some [("name", leaf)]) None
      (Some [Item.mk (Some "mother") None None (Some "Mother") (Some "@case_type")
               (Some [("color", leaf)]) None None None])
      None ].

(** Entries whose names are not in alphabetical order. *)
Definition unsorted : list Item.t :=
  [ source "commcaresession" "/session" [("zebra", leaf); ("apple", leaf)] ].

(** A reference to a source that is not there, between two good entries. *)
Definition dangling : list Item.t :=
  [ source "commcaresession" "/session"
      [("user", leaf); ("ghost", ref "nowhere"); ("case", ref "A")];
    source "A" "/a" [("name", leaf)] ].

(** The same, with a reference to a name the index inherits. *)
Definition inherited : list Item.t :=
  [ source "commcaresession" "/session"
      [("user", leaf); ("ghost", ref "nowhere"); ("ctor", ref "constructor");
       ("case", ref "A")];
    source "A" "/a" [("name", leaf)] ].

(** [commcaresession -> __proto__ -> B -> __proto__] *)
Definition proto_cycle : list Item.t :=
  [ source "commcaresession" "/session" [("case", ref "__proto__")];
    source "__proto__" "/a" [("name", leaf); ("child", ref "B")];
    source "B" "/b" [("age", leaf); ("parent", ref "__proto__")] ].

(** A source with the id [__proto__] that refers to itself. *)
Definition proto_loop : list Item.t :=
  [ source "commcaresession" "/session" [("case", ref "__proto__")];
    source "__proto__" "/a" [("self", ref "__proto__")] ].

(** A subset with a relation [parent] to itself. *)
Definition mother : Item.t :=
  Item.mk (Some "mother") None None (Some "Mother") (Some "@case_type")
          (Some [("color", leaf)]) None None (Some [("parent", "mother")]).

Definition with_relation : list Item.t :=
  [ source "commcaresession" "/session" [("case_id", subset_ref)];
    Item.mk (Some "casedb") (Some "") (Some "/cases/case") None None
      (Some [("name", leaf)]) None (Some [mother]) None ].

(** A node whose closure holds [mother]. *)
Definition mother_node : DataNode :=
  mkDataNode "Mother" None None (Some "instance('commcaresession')/session")
             "instance('commcaresession')/session/case_id" false
             (mkInfo Item.empty None) false (Some mother)
             "instance('casedb')/cases/case" (mkInfo Item.empty None).
End Samples.

(** ** The loader: init, reset, loadDataSources, finish, onError *)

Module Datasources.
(** [that.endpoint]: missing, a URL, or a host function. *)
Inductive Endpoint :=
| Missing
| Url (u : string)
| Function.

(** [that.cache]: an object with at most the five keys [getValue] fills. *)
Record Cache := mkCache {
  c_sources : option (list Item.t);
  c_dataNodes : option (list (option DataNode));
  c_hashtags : option Hashtags.t;
  c_hashtagMap : option (gmap string string);
  c_hashtagTransforms : option (gmap string DataNode);
}.

(** What the loader asks of its environment, in program order. *)
Inductive Effect :=
| Fire (type : string)
| ConsoleLog
| Ajax (url : string)
| CallEndpoint
| SetTimeout (delay : Z).

Record That := mkThat {
  endpoint : Endpoint;
  invalidCaseProperties : list string;
  retryTimeout : Z;
  cache : Cache;
  loading : bool;
  effects : list Effect;
}.

Definition placeholder : Item.t :=
  Item.mk (Some "") (Some "") (Some "") (Some "Not Found") None (Some [])
          None None None.

Definition emit (e : list Effect) (that : That) : That :=
  mkThat (endpoint that) (invalidCaseProperties that) (retryTimeout that)
         (cache that) (loading that) (effects that ++ e).

(** [that.reset()] *)
Definition reset (that : That) : That :=
  mkThat (endpoint that) (invalidCaseProperties that) 1000%Z
         (mkCache None None None None None) (loading that) (effects that).

(** [finish(data)] *)
Definition finish (data : list Item.t) (that : That) : That :=
  emit [Fire "change"]
    (mkThat (endpoint that) (invalidCaseProperties that) (retryTimeout that)
            (mkCache (Some (if bool_decide (length data = 0) then [placeholder] else data))
                     None None None None)
            false (effects that)).

(** [onError(jqXHR, errorType, error)] *)
Definition onError (that : That) : That :=
  let that1 := emit [Fire "error"; ConsoleLog] that in
  if (retryTimeout that1 <? 8001)%Z
  then
    let that2 := emit [SetTimeout (retryTimeout that1)] that1 in
    mkThat (endpoint that2) (invalidCaseProperties that2)
           (retryTimeout that2 * 2)%Z (cache that2) (loading that2)
           (effects that2)
  else that1.

(** [loadDataSources(that)], up to the point where it hands over to the
    environment; the answer comes back through [finish] or [onError]. *)
Definition loadDataSources (that : That) : That :=
  match endpoint that with
  | Url u =>
      if String.eqb u "" then finish [] that
      else
        emit [Ajax u]
          (mkThat (endpoint that) (invalidCaseProperties that)
                  (retryTimeout that) (cache that) true (effects that))
  | Function => emit [CallEndpoint] that
  | Missing => finish [] that
  end.

(** [init(endpoint, invalidCaseProperties)] *)
Definition init (e : Endpoint) (invalid : list string) : That :=
  let that := reset (mkThat e invalid 0%Z (mkCache None None None None None) false []) in
  match e with
  | Url u => if String.eqb u "" then that else loadDataSources that
  | _ => that
  end.

(** The timers the loader has set: each one, when it expires, runs
    [loadDataSources(that)] again. *)
Definition retries (that : That) : list Z :=
  omap (fun e => match e with SetTimeout d => Some d | _ => None end) (effects that).

(** A failed request followed by the expiry of the timer, if one was set. *)
Definition fail_and_wait (that : That) : That :=
  let n := length (retries that) in
  let that' := onError that in
  if bool_decide (length (retries that') = n) then that' else loadDataSources that'.

(** [builders.sources(that)]: the value it returns ([None] is
    [undefined]) and the loader it leaves.  A function endpoint is taken
    to answer after it has returned, as [loadDataSources] above has it. *)
Definition builders_sources (that : That) : option (list Item.t) * That :=
  let that' := if loading that then that else loadDataSources that in
  (c_sources (cache that'), that').

(** [getValue(that, "sources", defaultValue)]; [None] stands for
    [defaultValue] being returned.  When the builder returns a list,
    [finish] has run inside it and has already put that list into the new
    [that.cache]; the assignment [cache[name] = value] then writes to the
    object [that.cache] was before, which nothing refers to any more. *)
Definition getValue_sources (that : That) : option (list Item.t) * That :=
  match c_sources (cache that) with
  | Some value => (Some value, that)
  | None => builders_sources that
  end.

(** [that.getDataSources(defaultValue)] *)
Definition getDataSources (that : That) : option (list Item.t) * That :=
  getValue_sources that.

(** [that.isReady()] *)
Definition isReady (that : That) : bool * That :=
  let '(value, that') := getValue_sources that in
  (bool_decide (value ≠ None), that').

(** Calls a user of the loader can make. *)
Inductive Call :=
| CallReset
| CallGetDataSources
| CallIsReady.

#[global] Instance Call_eq_dec : EqDecision Call.
Proof. solve_decision. Defined.

Definition call (that : That) (c : Call) : That :=
  match c with
  | CallReset => reset that
  | CallGetDataSources => (getDataSources that).2
  | CallIsReady => (isReady that).2
  end.

(** The loader after a sequence of calls. *)
Definition run (calls : list Call) (that : That) : That := foldl call that calls.
End Datasources.

(** ** The earlier loader ([getDataSources] with callbacks) *)

Module DatasourcesLegacy.
Inductive Endpoint :=
| Missing
| Url (u : string)
| Function.

(** Callbacks are named by numbers; [None] is a callback left out. *)
Inductive Effect :=
| Success (callback : nat) (data : list Item.t)
| Failure (callback : nat)
| ConsoleLog
| Ajax (url : string)
| CallEndpoint.

Record State := mkState {
  dataSourcesEndpoint : Endpoint;
  dataCache : option (list Item.t);
  dataCallbacks : list (option nat);
  errorCallbacks : list (option nat);
  effects : list Effect;
}.

Definition placeholder : Item.t :=
  Item.mk (Some "") (Some "") (Some "") (Some "Not Found") None (Some [])
          None None None.

(** [reset()] *)
Definition reset (st : State) : State :=
  mkState (dataSourcesEndpoint st) None [] [] (effects st).

(** [finish(data)] *)
Definition finish (data : list Item.t) (st : State) : State :=
  let cache := if bool_decide (length data = 0) then [placeholder] else data in
  mkState (dataSourcesEndpoint st) (Some cache) [] (errorCallbacks st)
          (effects st ++ ((fun c => Success c cache) <$> omap id (dataCallbacks st))).

(** The [error] callback handed to [$.ajax]. *)
Definition ajaxError (st : State) : State :=
  let st1 := finish [] st in
  let errs := omap id (errorCallbacks st1) in
  mkState (dataSourcesEndpoint st1) (dataCache st1) (dataCallbacks st1) []
          (effects st1 ++ (Failure <$> errs)
             ++ (if bool_decide (length errs = 0) then [ConsoleLog] else [])).

(** [getDataSources(successCallback, errorCallback)] *)
Definition getDataSources (successCallback : nat) (errorCallback : option nat)
    (st : State) : State :=
  match dataCache st with
  | Some cached =>
      mkState (dataSourcesEndpoint st) (dataCache st) (dataCallbacks st)
              (errorCallbacks st) (effects st ++ [Success successCallback cached])
  | None =>
      let st1 := mkState (dataSourcesEndpoint st) (dataCache st)
                         (dataCallbacks st ++ [Some successCallback])
                         (errorCallbacks st ++ [errorCallback]) (effects st) in
      if bool_decide (length (dataCallbacks st) = 0)
      then
        match dataSourcesEndpoint st with
        | Url u =>
            if String.eqb u "" then finish [] st1
            else mkState (dataSourcesEndpoint st1) (dataCache st1)
                         (dataCallbacks st1) (errorCallbacks st1)
                         (effects st1 ++ [Ajax u])
        | Function =>
            mkState (dataSourcesEndpoint st1) (dataCache st1)
                    (dataCallbacks st1) (errorCallbacks st1)
                    (effects st1 ++ [CallEndpoint])
        | Missing => finish [] st1
        end
      else st1
  end.

(** A sequence of calls [getDataSources(successCallback, errorCallback)]. *)
Definition callers (calls : list (nat * option nat)) (st : State) : State :=
  foldl (fun st c => getDataSources c.1 c.2 st) st calls.

(** The requests sent so far. *)
Definition requests (st : State) : list Effect :=
  List.filter (fun e => match e with Ajax _ | CallEndpoint => true | _ => false end)
              (effects st).
End DatasourcesLegacy.

(** ** The undo manager

    The second module of [src/src/commtrack.js].  The page is the list of
    the elements that match [.fd-undo-delete], each with whether it carries
    the class [in]; [alert] is what [createAlert] adds to that list, which
    depends on the template and on the containers the page has. *)

Module UndoManager.
Section Manager.
Context {Mug Sibling Position : Type}.
Variable alert : list bool.

(** An entry [[mug, previousMug, position]] of the stack; [None] is
    [undefined]. *)
Definition Entry : Type := option Mug * option Sibling * option Position.

Inductive Effect :=
| InsertQuestion (mug : Mug) (sibling : option Sibling) (position : option Position)
| Fire (type : string).

Record State := mkState {
  undoStack : list Entry;
  page : list bool;
  effects : list Effect;
}.

(** [alertShown()], as [toggleAlert] reads it: [false], or the number of
    elements, which is not zero when one of them has the class. *)
Definition alertShown (st : State) : bool := existsb id (page st).

(** [createAlert()] *)
Definition createAlert (st : State) : State :=
  mkState (undoStack st) (page st ++ alert) (effects st).

(** [toggleAlert(undoStack)] *)
Definition toggleAlert (st : State) : State :=
  if negb (length (undoStack st) =? 0)%nat && negb (alertShown st)
  then createAlert st
  else if (length (undoStack st) =? 0)%nat && alertShown st
       then mkState (undoStack st) [] (effects st)
       else st.

(** [resetUndo(mug, previousMug, position)] *)
Definition resetUndo (mug : option Mug) (previousMug : option Sibling)
    (position : option Position) (st : State) : State :=
  let stack := match mug with
               | Some _ => [(mug, previousMug, position)]
               | None => []
               end in
  let st1 := toggleAlert (mkState stack (page st) (effects st)) in
  mkState (undoStack st1) (page st1) (effects st1 ++ [Fire "reset"]).

(** [appendMug(mug, previousMug, position)] *)
Definition appendMug (mug : option Mug) (previousMug : option Sibling)
    (position : option Position) (st : State) : State :=
  toggleAlert (mkState (undoStack st ++ [(mug, previousMug, position)])
                       (page st) (effects st)).

(** The [_.each] loop of [undo]: [mug.form] throws on a mug that is
    [undefined]. *)
Fixpoint reinsert (stack : list Entry) : Js.res (list Effect) :=
  match stack with
  | [] => Js.Ok []
  | (None, _, _) :: _ => Js.TypeError
  | (Some mug, sibling, position) :: rest =>
      match reinsert rest with
      | Js.Ok es => Js.Ok (InsertQuestion mug sibling position :: es)
      | e => e
      end
  end.

(** [undo()] *)
Definition undo (st : State) : Js.res State :=
  match reinsert (undoStack st) with
  | Js.Ok es =>
      Js.Ok (resetUndo None None None
               (mkState (undoStack st) (page st) (effects st ++ es)))
  | Js.TypeError => Js.TypeError
  | Js.OutOfFuel => Js.OutOfFuel
  end.

(** The calls [insertQuestion(mug, sibling, position, true)] made so far. *)
Definition inserted (st : State) : list Entry :=
  omap (fun e => match e with
                 | InsertQuestion m s p => Some (Some m, s, p)
                 | Fire _ => None
                 end) (effects st).

(** The alert is on the page exactly when the stack is not empty, and
    there is one of it. *)
Definition in_step (st : State) : Prop :=
  page st = match undoStack st with [] => [] | _ => [true] end.
End Manager.
End UndoManager.

(** ** The commtrack plugin

    The first module of [src/src/commtrack.js]: the bind element of a
    Transfer question and the setvalues it reads back after parsing. *)

Module Commtrack.
(** A [<setvalue>] of the form: [event], [ref], [value]. *)
Record SetValue := mkSetValue {
  event : option string;
  ref : option string;
  value : option string;
}.

(** The properties of a mug the plugin reads and writes: [__className] and,
    of [mug.p], [sectionId], [quantity], [rawDataAttributes] ([None] is
    [null]) and the four that hold setvalues. *)
Record Mug := mkMug {
  className : option string;
  sectionId : option string;
  quantity : option string;
  rawDataAttributes : option (gmap string string);
  entryId : SetValue;
  src : SetValue;
  dest : SetValue;
  date : SetValue;
}.

(** An element of the list [getBindList] returns. *)
Record Bind := mkBind {
  nodeset : string;
  calculate : option string;
}.

(** [isTransfer(mug)] *)
Definition isTransfer (mug : option Mug) : bool :=
  match mug with
  | Some m => bool_decide (className m = Some "Transfer")
  | None => false
  end.

(** [path.replace(/\/entry\/@quantity$/, "")] *)
Fixpoint basePath (path : string) : string :=
  if String.eqb path "/entry/@quantity" then ""
  else match path with
       | EmptyString => EmptyString
       | String c rest => String c (basePath rest)
       end.

(** [mug.p.quantity = q] *)
Definition set_quantity (q : option string) (mug : Mug) : Mug :=
  mkMug (className mug) (sectionId mug) q (rawDataAttributes mug)
        (entryId mug) (src mug) (dest mug) (date mug).

(** What [parseBindElement] does: it sets [quantity] on the mug found at a
    path, or hands over to the handler it overrides. *)
Inductive Outcome :=
| SetQuantity (path : string) (mug : Mug)
| CallOld.

Section Form.
(** [form.getMugByPath] and [form.getAbsolutePath]. *)
Variable getMugByPath : string -> option Mug.
Variable getAbsolutePath : Mug -> option string.

(** [getBindList(mug)]: the list it returns.  The walk over the control
    tree it makes first only descends ([processChildren()]). *)
Definition getBindList (mug : Mug) : list Bind :=
  [mkBind (Js.str_null (getAbsolutePath mug) +:+ "/entry/@quantity") (quantity mug)].

(** [parseBindElement(form, el, path)], given [el.attr("calculate")]. *)
Definition parseBindElement (attr_calculate : option string) (path : string)
    : Outcome :=
  match getMugByPath path with
  | Some _ => CallOld
  | None =>
      if negb (String.eqb path (basePath path))
      then match getMugByPath (basePath path) with
           | Some mug =>
               if isTransfer (Some mug)
               then SetQuantity (basePath path) (set_quantity attr_calculate mug)
               else CallOld
           | None => CallOld
           end
      else CallOld
  end.
End Form.

(** [setvalueData]: the properties of a mug that hold setvalues, and the
    path of each below the mug. *)
Inductive Attr := EntryId | Src | Dest | Date.

Definition setvalueData : list (Attr * string) :=
  [(EntryId, "entry/@id"); (Src, "@src"); (Dest, "@dest"); (Date, "@date")].

(** [mug.p[data.attr]] *)
Definition get (a : Attr) (mug : Mug) : SetValue :=
  match a with
  | EntryId => entryId mug
  | Src => src mug
  | Dest => dest mug
  | Date => date mug
  end.

(** [mug.p[data.attr] = v] *)
Definition set (a : Attr) (v : SetValue) (mug : Mug) : Mug :=
  match a with
  | EntryId => mkMug (className mug) (sectionId mug) (quantity mug) (rawDataAttributes mug)
                     v (src mug) (dest mug) (date mug)
  | Src => mkMug (className mug) (sectionId mug) (quantity mug) (rawDataAttributes mug)
                 (entryId mug) v (dest mug) (date mug)
  | Dest => mkMug (className mug) (sectionId mug) (quantity mug) (rawDataAttributes mug)
                  (entryId mug) (src mug) v (date mug)
  | Date => mkMug (className mug) (sectionId mug) (quantity mug) (rawDataAttributes mug)
                  (entryId mug) (src mug) (dest mug) v
  end.

(** [_.object(_.map(setvalues, function (value) { return [value.ref, value]; }))] *)
Definition by_ref (setvalues : list SetValue) : gmap string SetValue :=
  foldl (fun m v => <[Js.str (ref v) := v]> m) ∅ setvalues.

(** [handleMugParseFinish(mug)], after [__callOld]; [setvalues] is what
    [form.getSetValues()] returns and [path] what [form.getAbsolutePath(mug)]
    returns.  [mug.p.setvalues], which it also empties, is read by nothing
    here and is left out of [Mug]. *)
Definition handleMugParseFinish (setvalues : list SetValue) (path : option string)
    (mug : Mug) : Mug :=
  if isTransfer (Some mug)
  then
    let values := by_ref setvalues in
    foldl (fun m d =>
             set d.1 (default (mkSetValue (Some "jr-insert") None (Some ""))
                              (values !! (Js.str_null path +:+ "/" +:+ d.2))) m)
          mug setvalueData
  else mug.

(** The arguments of a call [form.addSetValue(event, ref, value)]. *)
Definition Added : Type := option string * string * option string.

Section Write.
(** The object [form.addSetValue] returns. *)
Variable addSetValue : option string -> string -> option string -> SetValue.

(** One round of the loop of [prepareForWrite]. *)
Definition retarget (path : option string) (st : Mug * list Added)
    (d : Attr * string) : Mug * list Added :=
  let v := get d.1 st.1 in
  let r := Js.str_null path +:+ "/" +:+ d.2 in
  if Js.truthy (ref v)
  then (set d.1 (mkSetValue (event v) (Some r) (value v)) st.1, st.2)
  else (set d.1 (addSetValue (event v) r (value v)) st.1,
        st.2 ++ [(event v, r, value v)]).

(** [prepareForWrite(mug)], given [form.getAbsolutePath(mug)]: the mug it
    leaves and the calls of [form.addSetValue] it makes. *)
Definition prepareForWrite (path : option string) (mug : Mug) : Mug * list Added :=
  foldl (retarget path) (mug, []) setvalueData.

(** [getExtraDataAttributes(mug)]: the object it returns, as the list of
    its entries ([None] is [undefined]), with what [prepareForWrite] leaves
    and calls. *)
Definition getExtraDataAttributes (path : option string) (mug : Mug)
    : list (string * option string) * (Mug * list Added) :=
  let written := prepareForWrite path mug in
  let attrs := default ∅ (rawDataAttributes written.1) in
  ([("xmlns", Some "http://commcarehq.org/ledger/v1");
    ("src", Some (Js.str (Js.or (attrs !! "src") (Some ""))));
    ("dest", Some (Js.str (Js.or (attrs !! "dest") (Some ""))));
    ("date", Some (Js.str (Js.or (attrs !! "date") (Some ""))));
    ("section-id", sectionId written.1);
    ("vellum:role", Some "Transfer")],
   written).
End Write.

(** [parseDataNode(mug, $node)]: what it does to the mug; reading a
    property of [rawDataAttributes] throws when that is [null]. *)
Definition parseDataNode (mug : Mug) : Js.res Mug :=
  match rawDataAttributes mug with
  | None => Js.TypeError
  | Some attrs =>
      Js.Ok (mkMug (className mug) (attrs !! "section-id") (quantity mug)
                   (Some (delete "section-id" attrs))
                   (entryId mug) (src mug) (dest mug) (date mug))
  end.

(** The attributes of a written element as the parser hands them back:
    those that have a value. *)
Definition as_attributes (written : list (string * option string)) : gmap string string :=
  list_to_map (omap (fun e => (fun v => (e.1, v)) <$> e.2) written).

(** [init(mug, form)] *)
Definition init (mug : Mug) : Mug :=
  mkMug (className mug) (Some "") (Some "") (rawDataAttributes mug)
        (mkSetValue (Some "jr-insert") None (Some ""))
        (mkSetValue (Some "jr-insert") None (Some ""))
        (mkSetValue (Some "jr-insert") None (Some ""))
        (mkSetValue (Some "jr-insert") None (Some "today()")).

(** A form with one Transfer question, at [/data/transfer]. *)
Definition transfer : Mug :=
  init (mkMug (Some "Transfer") None None (Some {["section-id" := "stock"]})
              (mkSetValue None None None) (mkSetValue None None None)
              (mkSetValue None None None) (mkSetValue None None None)).

Definition one_transfer (path : string) : option Mug :=
  if String.eqb path "/data/transfer" then Some transfer else None.

(** A form that returns the setvalue it is asked to add. *)
Definition added (event : option string) (ref : string) (value : option string)
    : SetValue :=
  mkSetValue event (Some ref) value.
End Commtrack.

(** ** Escaped hashtags: tokenizer and transformer

    [vellum/escapedHashtags] itself is not among the sources; its test
    suite ([tests/escapedHashtags.js]) is.  A string is modelled as its
    sequence of symbols. *)

Module EscapedHashtags.
Definition DELIMITER : ascii := "`"%char.

(** Modelled from the spec: the Token of the data model (module
    [vellum/escapedHashtags] is missing).  A token is a literal span or a
    hashtag span between two delimiters; an opening delimiter with no
    closing one gives a span that runs to the end of the string, and a
    doubled delimiter stands for one literal delimiter. *)
Inductive Token :=
| Literal (text : string)
| Hashtag (content : string)
| Unterminated (content : string)
| Doubled.

Inductive Mode :=
| Outside (text : string)
| Opening
| Inside (content : string).

Definition flush (text : string) : list Token :=
  if String.eqb text "" then [] else [Literal text].

(** Modelled from the spec: the scanning loop of the missing
    [tokenize].  A backtick switches to hashtag capture and the next
    backtick closes it; only the backtick symbol is a delimiter. *)
Fixpoint scan (s : string) (m : Mode) : list Token :=
  match s, m with
  | EmptyString, Outside text => flush text
  | EmptyString, Opening => [Unterminated ""]
  | EmptyString, Inside content => [Unterminated content]
  | String c s', Outside text =>
      if Ascii.eqb c DELIMITER then flush text ++ scan s' Opening
      else scan s' (Outside (text +:+ String c ""))
  | String c s', Opening =>
      if Ascii.eqb c DELIMITER then Doubled :: scan s' (Outside "")
      else scan s' (Inside (String c ""))
  | String c s', Inside content =>
      if Ascii.eqb c DELIMITER then Hashtag content :: scan s' (Outside "")
      else scan s' (Inside (content +:+ String c ""))
  end.

(** Modelled from the spec: [tokenize(input)] of the missing module. *)
Definition tokenize (input : string) : list Token := scan input (Outside "").

(** Modelled from the spec: the raw text of a token in the missing
    module's input; the raw texts of all tokens make up the input. *)
Definition raw (t : Token) : string :=
  match t with
  | Literal text => text
  | Hashtag content => String DELIMITER (content +:+ String DELIMITER "")
  | Unterminated content => String DELIMITER content
  | Doubled => String DELIMITER (String DELIMITER "")
  end.

(** Modelled from the spec: the raw text of a token sequence of the
    missing tokenizer, and the text a scanning state has already consumed. *)
Definition raw_text (ts : list Token) : string :=
  foldr (fun t acc => raw t +:+ acc) "" ts.

Definition consumed (m : Mode) : string :=
  match m with
  | Outside text => text
  | Opening => String DELIMITER ""
  | Inside content => String DELIMITER content
  end.

(** Does the string contain the delimiter? *)
Fixpoint has_delimiter (s : string) : bool :=
  match s with
  | EmptyString => false
  | String c s' => Ascii.eqb c DELIMITER || has_delimiter s'
  end.

(** Modelled from the spec: a string with balanced backtick pairs (the
    missing module gives no definition): every opening delimiter has its
    closing one.  The empty pair, an opening delimiter directly followed
    by a delimiter, is a pair as well; the tokenizer reads it as one
    doubled delimiter. *)
Definition balanced (s : string) : bool :=
  forallb (fun t => match t with Unterminated _ => false | _ => true end)
          (tokenize s).

(** No pair of delimiters in the string is empty. *)
Definition filled (s : string) : bool :=
  forallb (fun t => match t with Doubled => false | _ => true end) (tokenize s).

Section Transform.
(** The symbols before which a space is put when they follow a hashtag
    span directly; the spec gives [-] as one and leaves the class
    open. *)
Variable suffix : ascii -> bool.

Definition before_suffix (rest : list Token) : bool :=
  match rest with
  | Literal (String c _) :: _ => suffix c
  | _ => false
  end.

(** Modelled from the spec: reassembly in the missing [transform]:
    [map_fn] rewrites the content of each hashtag token, whose
    delimiters are dropped; every other token passes through. *)
Fixpoint render (map_fn : string -> string) (ts : list Token) : string :=
  match ts with
  | [] => ""
  | Literal text :: rest => text +:+ render map_fn rest
  | Hashtag content :: rest =>
      map_fn content +:+ (if before_suffix rest then " " else "")
      +:+ render map_fn rest
  | Unterminated content :: rest => String DELIMITER content +:+ render map_fn rest
  | Doubled :: rest => String DELIMITER "" +:+ render map_fn rest
  end.

(** Modelled from the spec: [transform(input, map_fn)] of the missing
    module. *)
Definition transform (input : string) (map_fn : string -> string) : string :=
  render map_fn (tokenize input).
End Transform.

(** Tokens and scanning states whose text holds no delimiter. *)
Definition clean_token (t : Token) : Prop :=
  match t with
  | Literal text => has_delimiter text = false
  | Hashtag content => has_delimiter content = false
  | _ => True
  end.

Definition clean_mode (m : Mode) : Prop :=
  match m with
  | Outside text => has_delimiter text = false
  | Opening => True
  | Inside content => has_delimiter content = false
  end.

(** [transformToProperty] of the test suite: the text after the last
    slash. *)
Fixpoint lastSegment (s acc : string) : string :=
  match s with
  | EmptyString => acc
  | String c s' =>
      if Ascii.eqb c "/"%char then lastSegment s' ""
      else lastSegment s' (acc +:+ String c "")
  end.

Definition transformToProperty (input : string) : string := lastSegment input "".

(** A class of suffix symbols that agrees with the test suite: letters,
    digits, [_], [.] and [-]. *)
Definition wordSuffix (c : ascii) : bool :=
  let n := nat_of_ascii c in
  (((48 <=? n) && (n <=? 57)) || ((65 <=? n) && (n <=? 90))
   || ((97 <=? n) && (n <=? 122)) || (n =? 95) || (n =? 46) || (n =? 45))%nat.
End EscapedHashtags.

(** * Properties *)

(** ** Underscore helpers *)

Lemma sortBy_undefined {A} (crit : A -> option string) (l : list A) :
  (∀ x, crit x = None) → Underscore.sortBy crit l = l.
Proof.
  intros Hcrit. induction l as [|x l IH]; [reflexivity|].
  unfold Underscore.sortBy in *. simpl. rewrite IH.
  destruct l as [|y l']; [reflexivity|].
  simpl. by rewrite !Hcrit.
Qed.

Lemma sortBy_text (l : list (option DataNode)) : Underscore.sortBy text l = l.
Proof. by apply sortBy_undefined. Qed.

Lemma indexBy_id_snoc (l : list Item.t) (s : Item.t) :
  Underscore.indexBy_id (l ++ [s]) = <[Js.str (Item.id s) := s]> (Underscore.indexBy_id l).
Proof. unfold Underscore.indexBy_id. by rewrite foldl_app. Qed.

Lemma indexBy_id_lookup (l : list Item.t) (k : string) (s : Item.t) :
  Underscore.indexBy_id l !! k = Some s → s ∈ l ∧ Js.str (Item.id s) = k.
Proof.
  induction l as [|x l IHl] using rev_ind.
  - unfold Underscore.indexBy_id. simpl. by rewrite lookup_empty.
  - rewrite indexBy_id_snoc. intros H.
    destruct (decide (Js.str (Item.id x) = k)) as [<-|Hne].
    + rewrite lookup_insert_eq in H. injection H as <-.
      split; [apply elem_of_app; right; by apply list_elem_of_singleton | done].
    + rewrite lookup_insert_ne in H by done.
      destruct (IHl H) as [Hin Hk]. split; [apply elem_of_app; by left | done].
Qed.

Lemma indexBy_id_None (l : list Item.t) (k : string) :
  Underscore.indexBy_id l !! k = None ↔ ∀ s, s ∈ l → Js.str (Item.id s) ≠ k.
Proof.
  induction l as [|x l IHl] using rev_ind.
  - unfold Underscore.indexBy_id. simpl. rewrite lookup_empty. set_solver.
  - rewrite indexBy_id_snoc. split.
    + intros H s Hs.
      destruct (decide (Js.str (Item.id x) = k)) as [<-|Hne].
      * by rewrite lookup_insert_eq in H.
      * rewrite lookup_insert_ne in H by done.
        apply elem_of_app in Hs as [Hs|Hs].
        -- by apply IHl.
        -- apply list_elem_of_singleton in Hs. by subst.
    + intros H. rewrite lookup_insert_ne.
      * apply IHl. intros s Hs. apply H. apply elem_of_app; by left.
      * apply H. apply elem_of_app; right; by apply list_elem_of_singleton.
Qed.

(** ** Plain objects used as maps *)

Lemma Object_set_elem (x key : string) (seen : gset string) :
  x ∈ Object.set key seen ↔ x ∈ seen ∨ (x = key ∧ key ≠ "__proto__").
Proof.
  unfold Object.set. destruct (String.eqb_spec key "__proto__") as [->|Hne].
  - split; [by left | by intros [?|[_ ?]]].
  - rewrite elem_of_union, elem_of_singleton. naive_solver.
Qed.

Lemma Object_set_mono (key : string) (seen : gset string) :
  seen ⊆ Object.set key seen.
Proof. intros x Hx. apply Object_set_elem. by left. Qed.


(** Membership in a concrete set is settled by computing. *)
Lemma not_elem_of_computed (key : string) (keys : gset string) :
  bool_decide (key ∈ keys) = false → key ∉ keys.
Proof. apply bool_decide_eq_false_1. Qed.

Lemma Object_set_other (key : string) (seen : gset string) :
  key ≠ "__proto__" → Object.set key seen = {[key]} ∪ seen.
Proof. intros Hne. unfold Object.set. by rewrite (proj2 (String.eqb_neq _ _) Hne). Qed.

Lemma Object_set_proto (seen : gset string) :
  Object.set "__proto__" seen = seen.
Proof. reflexivity. Qed.

Lemma Object_get_own (sources : gmap string Item.t) (key : string) (s : Item.t) :
  sources !! key = Some s →
  Object.get sources key = Some (s, Item.omit_structure s).
Proof. unfold Object.get. by intros ->. Qed.

Lemma Object_get_Some (sources : gmap string Item.t) (key : string)
    (s fields : Item.t) :
  Object.get sources key = Some (s, fields) →
  (sources !! key = Some s ∧ fields = Item.omit_structure s)
  ∨ (sources !! key = None ∧ s ∈ Object.members ∧ fields = Item.empty
     ∧ key ∈ Object.prototype.*1).
Proof.
  unfold Object.get. destruct (sources !! key) as [s'|].
  - intros [= <- <-]. by left.
  - destruct (List.find _ _) as [m|] eqn:Hfind; [|done].
    intros [= <- <-]. right.
    apply List.find_some in Hfind as [Hin Heq].
    apply String.eqb_eq in Heq. apply list_elem_of_In in Hin.
    split; [done|]. split; [|split; [done|]].
    + unfold Object.members. apply list_elem_of_fmap. by exists m.
    + subst key. apply list_elem_of_fmap. by exists m.
Qed.

Lemma Object_get_None (sources : gmap string Item.t) (key : string) :
  Object.get sources key = None ↔
  sources !! key = None ∧ key ∉ Object.prototype.*1.
Proof.
  unfold Object.get. destruct (sources !! key) as [s'|]; [naive_solver|].
  destruct (List.find _ _) as [m|] eqn:Hfind.
  - split; [done|]. intros [_ Hn]. exfalso. apply Hn.
    apply List.find_some in Hfind as [Hin Heq].
    apply String.eqb_eq in Heq. apply list_elem_of_In in Hin.
    subst key. apply list_elem_of_fmap. by exists m.
  - split; [|done]. intros _. split; [done|].
    intros Hin. apply list_elem_of_fmap in Hin as (m & -> & Hm).
    apply list_elem_of_In in Hm.
    pose proof (List.find_none _ _ Hfind m Hm) as Hf. simpl in Hf.
    by rewrite String.eqb_refl in Hf.
Qed.

Lemma Object_member_id (s : Item.t) :
  s ∈ Object.members → Js.str (Item.id s) = "undefined".
Proof.
  unfold Object.members. intros Hin.
  apply list_elem_of_fmap in Hin as (m & -> & _). reflexivity.
Qed.

Lemma Object_member_leaf (s : Item.t) :
  s ∈ Object.members →
  Item.structure s = None ∧ Item.related s = None ∧ Item.subsets s = None
  ∧ Item.reference s = None.
Proof.
  unfold Object.members. intros Hin.
  apply list_elem_of_fmap in Hin as (m & -> & _). done.
Qed.

(** ** getTree *)

Section GetTree.
Variable sources : gmap string Item.t.

Lemma getTree_not_reference seen item id path info :
  ¬ is_reference item →
  getTree sources seen item id path info
  = (mkTree (Js.str (Js.or (Item.name item) (Some id))) false (Some item) path info,
     seen).
Proof.
  unfold is_reference, getTree. intros Hn.
  destruct (Item.structure item), (Item.reference item); try done.
  exfalso. by apply Hn.
Qed.

Lemma getTree_seen_mono seen item id path info :
  seen ⊆ (getTree sources seen item id path info).2.
Proof.
  unfold getTree.
  repeat (case_match; simpl; try apply Object_set_mono; try set_solver).
Qed.
End GetTree.

Section Recursive.
Variable sources : gmap string Item.t.



End Recursive.

(** ** node and getNodes *)

Section Nodes.
Variable invalidCaseProperties : list string.
Variable sources : gmap string Item.t.


Lemma node_excluded source parentPath info index seen item id :
  id ∈ invalidCaseProperties →
  node invalidCaseProperties sources source parentPath info index seen item id = (None, seen).
Proof.
  intros Hin. unfold node, Underscore.contains.
  by rewrite bool_decide_eq_true_2.
Qed.

Lemma node_included source pp info idx seen item id :
  id ∉ invalidCaseProperties →
  ∃ n, node invalidCaseProperties sources source pp info idx seen item id
       = (Some n, (getTree sources seen item id (child_path pp id) info).2)
     ∧ xpath n = child_path pp id
     ∧ parentPath n = pp
     ∧ index n = idx
     ∧ sourceInfo n = info
     ∧ name n = tree_name (getTree sources seen item id (child_path pp id) info).1
     ∧ recursive n = tree_recursive (getTree sources seen item id (child_path pp id) info).1
     ∧ thunk_source n = tree_source (getTree sources seen item id (child_path pp id) info).1
     ∧ thunk_path n = tree_path (getTree sources seen item id (child_path pp id) info).1
     ∧ thunk_info n = tree_info (getTree sources seen item id (child_path pp id) info).1.
Proof.
  intros Hin. unfold node, Underscore.contains.
  rewrite bool_decide_eq_false_2 by done.
  fold (child_path pp id).
  destruct (getTree sources seen item id (child_path pp id) info) as [tree seen'].
  eexists. split; [reflexivity|]. simpl. repeat split.
Qed.

Lemma map_seen_Forall2 {A B} (R : A → B → Prop)
    (f : gset string → A → B * gset string) seen (l : list A) :
  (∀ sn a, a ∈ l → R a (f sn a).1) →
  Forall2 R l (map_seen f seen l).1.
Proof.
  revert seen. induction l as [|a l IHl]; intros seen HR; simpl; [constructor|].
  pose proof (HR seen a ltac:(left)) as Ha.
  destruct (f seen a) as [b seen1].
  specialize (IHl seen1 (fun sn x Hx => HR sn x ltac:(by right))).
  destruct (map_seen f seen1 l) as [bs seen2]. simpl in *.
  by constructor.
Qed.

Lemma compact_Forall2 {A B} (keep : A → Prop) `{∀ a, Decision (keep a)}
    (P : A → B → Prop) (l : list A) (m : list (option B)) :
  Forall2 (fun a o => (¬ keep a ∧ o = None) ∨ (keep a ∧ ∃ b, o = Some b ∧ P a b)) l m →
  Forall2 (fun a o => ∃ b, o = Some b ∧ P a b) (filter keep l) (Underscore.compact m).
Proof.
  induction 1 as [|a o l m Hao _ IH]; [constructor|].
  rewrite filter_cons. simpl.
  destruct Hao as [[Hk ->]|[Hk (b & -> & HP)]].
  - by rewrite decide_False.
  - rewrite decide_True by done. constructor; eauto.
Qed.

(** The relation-derived nodes come first, one per relation; after them
    one node per structure entry that is not an invalid case property, in
    the order of the entries. *)
Lemma getNodes_shape seen source path info :
  ∃ rel str,
    (getNodes invalidCaseProperties sources seen source path info).1 = rel ++ str
    ∧ Forall2 (relational path info) (relations_of source) rel
    ∧ Forall2 (structural path info)
              (filter (fun e => e.1 ∉ invalidCaseProperties) (entries_of source)) str.
Proof.
  unfold getNodes. fold (entries_of source).
  match goal with |- context [map_seen ?f seen (entries_of source)] =>
    pose proof (map_seen_Forall2
      (fun e o => (¬ (e.1 ∉ invalidCaseProperties) ∧ o = None)
                  ∨ ((e.1 ∉ invalidCaseProperties)
                     ∧ ∃ n, o = Some n ∧ structural path info e (Some n)))
      f seen (entries_of source)) as Hstr
  end.
  destruct (map_seen _ seen (entries_of source)) as [mapped seen1].
  simpl in Hstr.
  assert (Forall2 (structural path info)
            (filter (fun e => e.1 ∉ invalidCaseProperties) (entries_of source))
            (Underscore.compact mapped)) as Hc.
  { eapply Forall2_impl;
      [apply (compact_Forall2 (fun e => e.1 ∉ invalidCaseProperties)
                (fun e n => structural path info e (Some n)))|].
    - apply Hstr. intros sn [id item] _. simpl.
      destruct (decide (id ∈ invalidCaseProperties)) as [Hin|Hin].
      + left. rewrite node_excluded by done. split; [|done]. by intros ?.
      + right. split; [done|].
        destruct (node_included source (Some path) info false sn item id Hin)
          as (n & -> & Hx & Hp & Hi & Hs & _).
        exists n. split; [done|]. exists n. by repeat split.
    - intros e o (n & -> & Hn). done. }
  rewrite sortBy_text.
  unfold relations_of.
  destruct (source ≫= Item.related) as [rel|]; simpl.
  - match goal with |- context [map_seen ?f seen1 rel] =>
      pose proof (map_seen_Forall2 (relational path info) f seen1 rel) as Hrel
    end.
    destruct (map_seen _ seen1 rel) as [relnodes seen2]. simpl in *.
    rewrite sortBy_text. eexists _, _. split; [reflexivity|]. split; [|done].
    apply Hrel. intros sn [relation subset] _ n. simpl.
    destruct (decide (relation ∈ invalidCaseProperties)) as [Hin|Hin].
    + by rewrite node_excluded.
    + destruct (node_included source (Some (path +:+ "/index")) info true sn
                  (Item.mk None None None None None None
                     (Some (mkReference None (Some subset) (Some "@case_id")))
                     None None) relation Hin)
        as (n' & -> & Hx & Hp & Hi & Hs & _).
      simpl. intros [= <-]. by repeat split.
  - exists [], (Underscore.compact mapped). split; [done|]. split; [constructor | done].
Qed.

Lemma getNodes_undefined seen path info :
  getNodes invalidCaseProperties sources seen None path info = ([], seen).
Proof. reflexivity. Qed.
End Nodes.

(** ** Two references to one source *)








Section Siblings.
Variable invalidCaseProperties : list string.
Variable sources : gmap string Item.t.

End Siblings.





(** ** The root *)

Lemma getNodes_children_have_parent invalidCaseProperties sources seen source path info n :
  Some n ∈ (getNodes invalidCaseProperties sources seen source path info).1 →
  parentPath n ≠ None.
Proof.
  destruct (getNodes_shape invalidCaseProperties sources seen source path info)
    as (rel & str & -> & Hrel & Hstr).
  intros [Hin|Hin]%elem_of_app.
  - apply list_elem_of_lookup in Hin as [i Hi].
    destruct (Forall2_lookup_r _ _ _ _ _ Hrel Hi) as (e & _ & He).
    destruct (He n eq_refl) as (_ & -> & _). done.
  - apply list_elem_of_lookup in Hin as [i Hi].
    destruct (Forall2_lookup_r _ _ _ _ _ Hstr Hi) as (e & _ & (n' & [= <-] & _ & -> & _)).
    done.
Qed.

(** When no descriptor has the id [commcaresession] the builder returns
    [undefined]; when one has, and its path is not itself listed as an
    invalid case property, the (last) such descriptor is made the root
    node, with no parent path and no hashtag, and what the builder returns is
    the list of the root's children, which does not contain the root: one
    member for each relation and one node for each entry, not an invalid
    case property, of what the root's closure holds, which is the
    descriptor itself, at its path, unless the descriptor is a
    reference. *)
Lemma commcaresession_is_the_suppressed_root invalidCaseProperties l :
  ((∀ s, s ∈ l → Item.id s ≠ Some "commcaresession") →
   dataNodes invalidCaseProperties (Some l) = Js.Ok None)
  ∧ ((∃ s, s ∈ l ∧ Item.id s = Some "commcaresession") →
     (∀ s, s ∈ l → Item.id s = Some "commcaresession" →
           root_path s ∉ invalidCaseProperties) →
     ∃ source root seen0,
       source ∈ l ∧ Item.id source = Some "commcaresession"
       ∧ Underscore.indexBy_id l !! "commcaresession" = Some source
       ∧ node invalidCaseProperties (Underscore.indexBy_id l) (Some source) None
              (mkInfo (Item.omit_structure source) None) false ∅ source (root_path source)
         = (Some root, seen0)
       ∧ parentPath root = None ∧ hashtag root = None
       ∧ xpath root = root_path source
       ∧ dataNodes invalidCaseProperties (Some l)
         = Js.Ok (Some (Underscore.indexBy_id l,
                        (expand invalidCaseProperties (Underscore.indexBy_id l) seen0 root).1,
                        (expand invalidCaseProperties (Underscore.indexBy_id l) seen0 root).2))
       ∧ (Some root ∉ (expand invalidCaseProperties (Underscore.indexBy_id l) seen0 root).1)
       ∧ (∃ rel str,
            (expand invalidCaseProperties (Underscore.indexBy_id l) seen0 root).1
            = rel ++ str
            ∧ Forall2 (relational (thunk_path root) (thunk_info root))
                (relations_of (thunk_source root)) rel
            ∧ Forall2 (structural (thunk_path root) (thunk_info root))
                (filter (fun e => e.1 ∉ invalidCaseProperties)
                        (entries_of (thunk_source root))) str)
       ∧ (¬ is_reference source →
          thunk_source root = Some source
          ∧ thunk_path root = root_path source
          ∧ thunk_info root = mkInfo (Item.omit_structure source) None)).
Proof.
  split.
  - intros Habs. unfold dataNodes.
    assert (Underscore.indexBy_id l !! "commcaresession" = None) as ->; [|done].
    apply indexBy_id_None. intros s Hs Hid.
    apply (Habs s Hs). destruct (Item.id s) as [i|]; simpl in Hid; [by subst | done].
  - intros (s & Hs & Hid) Hok.
    destruct (Underscore.indexBy_id l !! "commcaresession") as [source|] eqn:Hidx.
    2:{ exfalso. eapply indexBy_id_None in Hidx; [|exact Hs]. apply Hidx. by rewrite Hid. }
    destruct (indexBy_id_lookup _ _ _ Hidx) as [Hin Hkey].
    assert (Item.id source = Some "commcaresession") as Hcc.
    { destruct (Item.id source) as [i|] eqn:E; simpl in Hkey; [by subst | done]. }
    specialize (Hok source Hin Hcc).
    destruct (node_included invalidCaseProperties (Underscore.indexBy_id l) (Some source)
                None (mkInfo (Item.omit_structure source) None) false ∅ source
                (root_path source) Hok)
      as (root & Hroot & Hx & Hp & _ & _ & _ & _ & Hts & Htp & Hti).
    exists source, root,
      (getTree (Underscore.indexBy_id l) ∅ source (root_path source)
         (child_path None (root_path source))
         (mkInfo (Item.omit_structure source) None)).2.
    split; [done|]. split; [done|]. split; [done|]. split; [done|].
    split; [done|]. split; [|split; [done|split; [|split; [|split]]]].
    + unfold node, Underscore.contains in Hroot.
      rewrite bool_decide_eq_false_2 in Hroot by done.
      destruct (getTree _ _ _ _ _ _) as [tree sn]. rewrite Hcc in Hroot.
      rewrite bool_decide_eq_true_2 in Hroot by done.
      by injection Hroot as <-.
    + unfold dataNodes. rewrite Hidx. fold (root_path source). rewrite Hroot.
      by destruct (expand _ _ _ root).
    + intros Hself. unfold expand in Hself.
      by apply getNodes_children_have_parent in Hself.
    + unfold expand. apply getNodes_shape.
    + intros Hnr. rewrite Hts, Htp, Hti.
      by rewrite getTree_not_reference.
Qed.

Lemma commcaresession_is_the_suppressed_root_witness :
  dataNodes [] (Some [Samples.source "fixture" "/f" []]) = Js.Ok None
  ∧ ∃ source root seen0,
      Item.id source = Some "commcaresession"
      ∧ parentPath root = None
      ∧ dataNodes [] (Some Samples.unsorted)
        = Js.Ok (Some (Underscore.indexBy_id Samples.unsorted,
                       (expand [] (Underscore.indexBy_id Samples.unsorted) seen0 root).1,
                       (expand [] (Underscore.indexBy_id Samples.unsorted) seen0 root).2)).
Proof.
  split.
  - apply (proj1 (commcaresession_is_the_suppressed_root [] [Samples.source "fixture" "/f" []])).
    intros s Hs. apply list_elem_of_singleton in Hs. subst s. simpl. congruence.
  - destruct (proj2 (commcaresession_is_the_suppressed_root [] Samples.unsorted))
      as (source & root & seen0 & _ & Hid & _ & _ & Hp & _ & _ & Hd & _).
    + eexists. split; [left|reflexivity].
    + intros s _ _. apply not_elem_of_nil.
    + exists source, root, seen0. split; [exact Hid|]. split; [exact Hp|exact Hd].
Defined.

(** C9, where the code departs from it.  The root is built by the function
    that builds every node, with the root's path for its name; that
    function returns [null] for a name listed in [invalidCaseProperties],
    and [builders.dataNodes] calls [getNodes] on what it returns.  So when
    the path of the [commcaresession] source is listed there is no root,
    and no list of descendants either: the builder throws, and with it the
    compiler. *)
Theorem invalid_root_path_throws invalidCaseProperties l source :
  Underscore.indexBy_id l !! "commcaresession" = Some source →
  root_path source ∈ invalidCaseProperties →
  (∀ seen,
     node invalidCaseProperties (Underscore.indexBy_id l) (Some source) None
          (mkInfo (Item.omit_structure source) None) false seen source (root_path source)
     = (None, seen))
  ∧ dataNodes invalidCaseProperties (Some l) = Js.TypeError
  ∧ ∀ fuel, hashtags fuel invalidCaseProperties (Some l) = Js.TypeError.
Proof.
  intros Hidx Hin.
  assert (dataNodes invalidCaseProperties (Some l) = Js.TypeError) as Hd.
  { unfold dataNodes. rewrite Hidx. fold (root_path source).
    by rewrite node_excluded. }
  split; [intros seen; by apply node_excluded|]. split; [done|].
  intros fuel. unfold hashtags. by rewrite Hd.
Qed.

Lemma invalid_root_path_throws_witness :
  dataNodes ["instance('commcaresession')/session"] (Some Samples.unsorted) = Js.TypeError
  ∧ hashtags 16 ["instance('commcaresession')/session"] (Some Samples.unsorted)
    = Js.TypeError.
Proof.
  destruct (invalid_root_path_throws ["instance('commcaresession')/session"]
              Samples.unsorted
              (Samples.source "commcaresession" "/session"
                 [("zebra", Samples.leaf); ("apple", Samples.leaf)]))
    as (_ & Hd & Hh).
  - vm_compute. reflexivity.
  - vm_compute. left.
  - split; [exact Hd|exact (Hh 16)].
Defined.

(** ** More fuel changes nothing *)

Section Fuel.
Variable invalidCaseProperties : list string.
Variable sources : gmap string Item.t.

Lemma each_more_fuel rec rec' :
  (∀ seen nodes h r, rec seen nodes h = Js.Ok r → rec' seen nodes h = Js.Ok r) →
  ∀ nodes seen h r,
    each invalidCaseProperties sources rec seen nodes h = Js.Ok r →
    each invalidCaseProperties sources rec' seen nodes h = Js.Ok r.
Proof.
  intros Hrec nodes. induction nodes as [|[n|] rest IH]; intros seen h r; simpl;
    [done| |done].
  destruct (recursive n); [apply IH|].
  destruct (expand _ _ seen n) as [children seen1].
  destruct (rec seen1 children (record n h)) as [[h2 seen2]| |] eqn:E; [|done..].
  rewrite (Hrec _ _ _ _ E). apply IH.
Qed.

Lemma walk_more_fuel fuel extra seen nodes h r :
  walk invalidCaseProperties sources fuel seen nodes h = Js.Ok r →
  walk invalidCaseProperties sources (fuel + extra) seen nodes h = Js.Ok r.
Proof.
  revert seen nodes h r. induction fuel as [|fuel IH]; intros seen nodes h r; [done|].
  simpl. apply each_more_fuel. intros. by apply IH.
Qed.

Lemma each_trace_more_fuel rec rec' :
  (∀ seen nodes r, rec seen nodes = Js.Ok r → rec' seen nodes = Js.Ok r) →
  ∀ nodes seen r,
    each_trace invalidCaseProperties sources rec seen nodes = Js.Ok r →
    each_trace invalidCaseProperties sources rec' seen nodes = Js.Ok r.
Proof.
  intros Hrec nodes. induction nodes as [|[n|] rest IH]; intros seen r; simpl;
    [done| |done].
  destruct (recursive n).
  - destruct (each_trace _ _ rec seen rest) as [[[v e] s]| |] eqn:E; [|done..].
    by rewrite (IH _ _ E).
  - destruct (expand _ _ seen n) as [children seen1].
    destruct (rec seen1 children) as [[[v1 e1] seen2]| |] eqn:E1; [|done..].
    rewrite (Hrec _ _ _ E1).
    destruct (each_trace _ _ rec seen2 rest) as [[[v2 e2] s]| |] eqn:E2; [|done..].
    by rewrite (IH _ _ E2).
Qed.

Lemma walk_trace_more_fuel fuel extra seen nodes r :
  walk_trace invalidCaseProperties sources fuel seen nodes = Js.Ok r →
  walk_trace invalidCaseProperties sources (fuel + extra) seen nodes = Js.Ok r.
Proof.
  revert seen nodes r. induction fuel as [|fuel IH]; intros seen nodes r; [done|].
  simpl. apply each_trace_more_fuel. intros. by apply IH.
Qed.
End Fuel.

Lemma hashtags_more_fuel fuel extra invalidCaseProperties loaded o :
  hashtags fuel invalidCaseProperties loaded = Js.Ok o →
  hashtags (fuel + extra) invalidCaseProperties loaded = Js.Ok o.
Proof.
  unfold hashtags.
  destruct (dataNodes _ _) as [[[[sources nodes] seen]|]| |]; try done.
  destruct (walk _ _ fuel seen nodes _) as [[h seen']| |] eqn:E; try done.
  by rewrite (walk_more_fuel _ _ _ extra _ _ _ _ E).
Qed.

Lemma hashtagMap_more_fuel fuel extra invalidCaseProperties loaded o :
  hashtagMap fuel invalidCaseProperties loaded = Js.Ok o →
  hashtagMap (fuel + extra) invalidCaseProperties loaded = Js.Ok o.
Proof.
  unfold hashtagMap.
  destruct (hashtags fuel _ _) as [h| |] eqn:E; try done.
  by rewrite (hashtags_more_fuel _ extra _ _ _ E).
Qed.

Lemma hashtags_trace_more_fuel fuel extra invalidCaseProperties loaded r :
  hashtags_trace fuel invalidCaseProperties loaded = Js.Ok r →
  hashtags_trace (fuel + extra) invalidCaseProperties loaded = Js.Ok r.
Proof.
  unfold hashtags_trace.
  destruct (dataNodes _ _) as [[[[sources nodes] seen]|]| |]; try done.
  apply walk_trace_more_fuel.
Qed.

(** ** Order of siblings *)

(** C7, the code at [Samples.unsorted]: the root has the entries [zebra] and
    [apple], in this order, and the builder returns their nodes in this
    order, the one named [zebra] before the one named [apple].
    [_.sortBy(nodes, "text")] leaves every list as it is ([sortBy_text]),
    for a node has no [text]. *)
Theorem siblings_are_left_in_entry_order :
  ∃ sources zebra apple seen,
    dataNodes [] (Some Samples.unsorted)
    = Js.Ok (Some (sources, [Some zebra; Some apple], seen))
    ∧ name zebra = "zebra" ∧ name apple = "apple"
    ∧ String.ltb (name apple) (name zebra) = true
    ∧ Underscore.sortBy (fun on => name <$> on) [Some zebra; Some apple]
      = [Some apple; Some zebra].
Proof.
  eexists _, _, _, _. split; [vm_compute; reflexivity|].
  repeat split.
Qed.

(** The part of C7 the code keeps: relation-derived nodes stand before the
    structural ones. *)
Lemma related_nodes_come_first invalidCaseProperties sources seen source path info :
  ∃ rel str,
    (getNodes invalidCaseProperties sources seen source path info).1 = rel ++ str
    ∧ Forall (fun on => ∀ n, on = Some n → index n = true) rel
    ∧ Forall (fun on => ∃ n, on = Some n ∧ index n = false) str.
Proof.
  destruct (getNodes_shape invalidCaseProperties sources seen source path info)
    as (rel & str & Heq & Hrel & Hstr).
  exists rel, str. split; [done|]. split.
  - eapply Forall2_Forall_r; [exact Hrel|]. apply Forall_forall.
    intros e _ on Hon n ->. by destruct (Hon n eq_refl) as (_ & _ & ? & _).
  - eapply Forall2_Forall_r; [exact Hstr|]. apply Forall_forall.
    intros e _ on (n & -> & _ & _ & Hi & _). eauto.
Qed.

(** ** Subsets *)

(** C4, the code at [Samples.with_subset]: source [casedb] has the structure
    [{name}], its subset [mother] the structure [{color}], and the root
    refers to the subset.  The compiled map has the hashtag of [color] and
    none for [name]: the node of the reference expands the subset's own
    structure. *)
Theorem subset_structure_stands_alone :
  ∀ fuel,
    hashtagMap (walk_fuel Samples.with_subset + fuel) [] (Some Samples.with_subset)
    = Js.Ok (Some {[ "#case/mother/color" :=
        "instance('casedb')/cases/case[@case_id = instance('commcaresession')/session/case_id]/color" ]}).
Proof.
  intros fuel. apply hashtagMap_more_fuel. vm_compute. reflexivity.
Qed.

(** ** The walk and its record *)

Section WalkTrace.
Variable invalidCaseProperties : list string.
Variable sources : gmap string Item.t.

Lemma each_fill rec rect :
  (∀ seen nodes h, rec seen nodes h = fill h (rect seen nodes)) →
  ∀ nodes seen h,
    each invalidCaseProperties sources rec seen nodes h
    = fill h (each_trace invalidCaseProperties sources rect seen nodes).
Proof.
  intros Hrec nodes. induction nodes as [|[n|] rest IH]; intros seen h; simpl;
    [done| |done].
  destruct (recursive n).
  - rewrite IH. by destruct (each_trace _ _ rect seen rest) as [[[v e] s]| |].
  - destruct (expand invalidCaseProperties sources seen n) as [children seen1].
    rewrite Hrec.
    destruct (rect seen1 children) as [[[v1 e1] seen2]| |]; simpl; [|done..].
    rewrite IH.
    destruct (each_trace _ _ rect seen2 rest) as [[[v2 e2] s]| |]; simpl; [|done..].
    by rewrite foldl_app.
Qed.

(** [walk] does what its record says. *)
Lemma walk_fill fuel seen nodes h :
  walk invalidCaseProperties sources fuel seen nodes h
  = fill h (walk_trace invalidCaseProperties sources fuel seen nodes).
Proof.
  revert seen nodes h. induction fuel as [|fuel IH]; intros seen nodes h; [done|].
  simpl. by apply each_fill.
Qed.

Lemma walk_trace_sound (P : DataNode → Prop) :
  (∀ seen source path info,
     all_nodes P (getNodes invalidCaseProperties sources seen source path info).1) →
  ∀ fuel seen nodes visited expanded seen',
    all_nodes P nodes →
    walk_trace invalidCaseProperties sources fuel seen nodes
    = Js.Ok (visited, expanded, seen') →
    Forall P visited
    ∧ Forall (fun n => recursive n = false ∧ n ∈ visited) expanded.
Proof.
  intros HP fuel. induction fuel as [|fuel IHf]; [done|].
  intros seen nodes. revert seen. simpl.
  induction nodes as [|[n|] rest IH]; intros seen visited expanded seen' Hall; simpl.
  - intros [= <- <- <-]. split; constructor.
  - apply Forall_cons in Hall as [Hn Hrest].
    destruct (recursive n) eqn:Hrec.
    + destruct (each_trace _ _ _ seen rest) as [[[v e] s]| |] eqn:E; [|done..].
      intros [= <- <- <-]. destruct (IH _ _ _ _ Hrest E) as [Hv He].
      split; [constructor; auto|].
      eapply Forall_impl; [exact He|]. intros x [? ?]. split; [done|by right].
    + unfold expand.
      pose proof (HP seen (thunk_source n) (thunk_path n) (thunk_info n)) as Hch.
      destruct (getNodes _ _ seen _ _ _) as [children seen1]. simpl in Hch.
      destruct (walk_trace _ _ fuel seen1 children) as [[[v1 e1] seen2]| |] eqn:E1;
        [|done..].
      destruct (each_trace _ _ _ seen2 rest) as [[[v2 e2] s]| |] eqn:E2; [|done..].
      intros [= <- <- <-].
      destruct (IHf _ _ _ _ _ Hch E1) as [Hv1 He1].
      destruct (IH _ _ _ _ Hrest E2) as [Hv2 He2].
      split.
      * constructor; [auto|]. apply Forall_app. done.
      * constructor; [split; [done|left]|]. apply Forall_app. split.
        -- eapply Forall_impl; [exact He1|]. intros x [? ?]. split; [done|].
           right. apply elem_of_app. by left.
        -- eapply Forall_impl; [exact He2|]. intros x [? ?]. split; [done|].
           right. apply elem_of_app. by right.
  - done.
Qed.
End WalkTrace.

(** *** Hashtags of built nodes *)

Lemma node_hashtag invalidCaseProperties sources source pp info idx seen item id n :
  (node invalidCaseProperties sources source pp info idx seen item id).1 = Some n →
  (hashtag n = None ∧ hashtagPrefix n = None)
  ∨ ∃ p, hashtagPrefix n = Some ("#case/" +:+ p)
         ∧ hashtag n = Some (("#case/" +:+ p) +:+ id).
Proof.
  unfold node. destruct (Underscore.contains _ _); [done|].
  destruct (getTree _ _ _ _ _ _) as [tree sn]. simpl. intros [= <-]. simpl.
  destruct source as [s|]; [|by left].
  case_bool_decide; [by left|]. right. eauto.
Qed.

Lemma node_well_tagged invalidCaseProperties sources source pp info idx seen item id n :
  (node invalidCaseProperties sources source pp info idx seen item id).1 = Some n →
  well_tagged n.
Proof.
  intros H. unfold well_tagged.
  destruct (node_hashtag _ _ _ _ _ _ _ _ _ _ H) as [[-> _]|(p & _ & ->)]; [done|].
  simpl. discriminate.
Qed.

Lemma map_seen_Forall {A B} (P : B → Prop)
    (f : gset string → A → B * gset string) seen (l : list A) :
  (∀ sn a, P (f sn a).1) → Forall P (map_seen f seen l).1.
Proof.
  intros HP.
  eapply Forall2_Forall_r;
    [apply (map_seen_Forall2 (fun _ b => P b) f seen l); auto|].
  by apply Forall_true.
Qed.

Lemma compact_Forall {A} (P : option A → Prop) (l : list (option A)) :
  Forall P l → Forall P (Underscore.compact l).
Proof.
  intros H. apply Forall_forall. intros x Hx.
  apply list_elem_of_In, filter_In in Hx as [Hx _].
  apply list_elem_of_In in Hx. by eapply Forall_forall in H.
Qed.

(** Whatever holds of everything [node] returns holds of every member of a
    list [getNodes] returns. *)
Lemma getNodes_all_option invalidCaseProperties sources (P : option DataNode → Prop) :
  (∀ source pp info idx seen item id,
     P (node invalidCaseProperties sources source pp info idx seen item id).1) →
  ∀ seen source path info,
    Forall P (getNodes invalidCaseProperties sources seen source path info).1.
Proof.
  intros HP seen source path info. unfold getNodes.
  match goal with |- context [map_seen ?f seen ?l] =>
    pose proof (map_seen_Forall P f seen l) as Hstr
  end.
  destruct (map_seen _ seen _) as [mapped seen1]. simpl in Hstr.
  rewrite sortBy_text.
  assert (Forall P (Underscore.compact mapped)) as Hc.
  { apply compact_Forall, Hstr. intros sn [id item]. apply HP. }
  destruct (source ≫= Item.related) as [rel|]; [|done].
  match goal with |- context [map_seen ?f seen1 rel] =>
    pose proof (map_seen_Forall P f seen1 rel) as Hrel
  end.
  destruct (map_seen _ seen1 rel) as [relnodes seen2]. simpl in *.
  rewrite sortBy_text. apply Forall_app. split; [|done].
  apply Hrel. intros sn [relation subset]. apply HP.
Qed.

(** Whatever holds of every node [node] returns holds of every node in a
    list [getNodes] returns. *)
Lemma getNodes_all invalidCaseProperties sources (P : DataNode → Prop) :
  (∀ source pp info idx seen item id n,
     (node invalidCaseProperties sources source pp info idx seen item id).1 = Some n →
     P n) →
  ∀ seen source path info,
    all_nodes P (getNodes invalidCaseProperties sources seen source path info).1.
Proof.
  intros HP seen source path info.
  apply (getNodes_all_option _ _ (fun on => ∀ n, on = Some n → P n)).
  intros. by eapply HP.
Qed.

Lemma record_selected n h :
  well_tagged n → record n h = if selected n then assign h n else h.
Proof.
  unfold well_tagged, record, selected, assign. intros Hn.
  destruct (hashtag n) as [t|] eqn:Ht.
  - rewrite bool_decide_eq_true_2 by done. simpl.
    destruct (String.eqb_spec t ""); [by subst|done].
  - rewrite bool_decide_eq_false_2; [done|]. by intros ?.
Qed.

Lemma foldl_record_selected visited h :
  Forall well_tagged visited →
  foldl (fun h n => record n h) h visited
  = foldl assign h (filter (fun n => selected n = true) visited).
Proof.
  intros Hall. revert h. induction Hall as [|n visited Hn _ IH]; intros h; [done|].
  simpl. rewrite filter_cons, record_selected by done.
  destruct (decide (selected n = true)) as [Hs|Hs].
  - rewrite Hs. simpl. apply IH.
  - apply not_true_is_false in Hs. rewrite Hs. apply IH.
Qed.

Lemma node_tagged invalidCaseProperties sources source pp info idx seen item id n :
  (node invalidCaseProperties sources source pp info idx seen item id).1 = Some n →
  tagged n.
Proof.
  intros H. destruct (node_hashtag _ _ _ _ _ _ _ _ _ _ H) as [?|(p & Hp & Ht)];
    [by left|].
  right. do 2 eexists. split; [exact Hp|]. split; [exact Ht|]. simpl. discriminate.
Qed.

Lemma tagged_well_tagged n : tagged n → well_tagged n.
Proof.
  unfold well_tagged. intros [[-> _]|(p & t & _ & -> & Ht)]; [done|congruence].
Qed.

Lemma selected_tagged n :
  tagged n → selected n = true →
  ∃ p t, hashtagPrefix n = Some p ∧ hashtag n = Some t ∧ index n = false.
Proof.
  unfold selected. intros Ht [Hh Hi]%andb_true_iff.
  apply bool_decide_eq_true in Hh. apply negb_true_iff in Hi.
  destruct Ht as [[? _]|(p & t & ? & ? & _)]; [done|]. eauto.
Qed.

Lemma foldl_assign_map_preserved ns h k :
  is_Some (Hashtags.map h !! k) →
  is_Some (Hashtags.map (foldl assign h ns) !! k).
Proof.
  revert h. induction ns as [|n ns IH]; intros h Hk; [done|].
  simpl. apply IH. unfold assign. simpl.
  destruct (decide (Js.str_null (hashtag n) = k)) as [<-|Hne].
  - rewrite lookup_insert_eq. eauto.
  - by rewrite lookup_insert_ne.
Qed.

Lemma foldl_assign_map_member ns h n :
  n ∈ ns → is_Some (Hashtags.map (foldl assign h ns) !! Js.str_null (hashtag n)).
Proof.
  revert h. induction ns as [|m ns IH]; intros h Hin; [by apply elem_of_nil in Hin|].
  simpl. apply elem_of_cons in Hin as [<-|Hin]; [|by apply IH].
  apply foldl_assign_map_preserved. unfold assign. simpl.
  rewrite lookup_insert_eq. eauto.
Qed.

Lemma foldl_assign_map_lookup ns h k x :
  Hashtags.map (foldl assign h ns) !! k = Some x →
  Hashtags.map h !! k = Some x
  ∨ ∃ n, n ∈ ns ∧ Js.str_null (hashtag n) = k ∧ xpath n = x.
Proof.
  revert h. induction ns as [|n ns IH]; intros h Hk; [by left|].
  simpl in Hk. destruct (IH _ Hk) as [Hh|(m & Hm & Hkey & Hx)].
  - unfold assign in Hh. simpl in Hh.
    destruct (decide (Js.str_null (hashtag n) = k)) as [<-|Hne].
    + rewrite lookup_insert_eq in Hh. injection Hh as <-.
      right. exists n. split; [left|done].
    + rewrite lookup_insert_ne in Hh by done. by left.
  - right. exists m. split; [by right|done].
Qed.

Lemma foldl_assign_transforms_lookup ns h p c :
  Hashtags.transforms (foldl assign h ns) !! p = Some c →
  Hashtags.transforms h !! p = Some c
  ∨ (c ∈ ns ∧ Js.str_null (hashtagPrefix c) = p).
Proof.
  revert h. induction ns as [|n ns IH]; intros h Hp; [by left|].
  simpl in Hp. destruct (IH _ Hp) as [Hh|[Hc Hkey]].
  - unfold assign in Hh. simpl in Hh.
    destruct (decide (Js.str_null (hashtagPrefix n) = p)) as [<-|Hne].
    + rewrite lookup_insert_eq in Hh. injection Hh as <-.
      right. split; [left|done].
    + rewrite lookup_insert_ne in Hh by done. by left.
  - right. split; [by right|done].
Qed.

Section Children.
Variable invalidCaseProperties : list string.
Variable sources : gmap string Item.t.

Lemma node_hashtag_of source pp info idx seen item id n :
  (node invalidCaseProperties sources source pp info idx seen item id).1 = Some n →
  hashtag n = hashtag_of source id.
Proof.
  unfold node, hashtag_of. destruct (Underscore.contains _ _); [done|].
  destruct (getTree _ _ _ _ _ _) as [tree sn]. simpl. intros [= <-]. simpl.
  destruct source as [s|]; [|done]. by case_bool_decide.
Qed.

Lemma map_seen_lookup {A B} (f : gset string → A → B * gset string) seen (l : list A) a :
  a ∈ l → ∃ sn, (f sn a).1 ∈ (map_seen f seen l).1.
Proof.
  revert seen. induction l as [|x l IH]; intros seen Hin; [by apply elem_of_nil in Hin|].
  simpl. destruct (f seen x) as [b seen1] eqn:Hf.
  specialize (IH seen1). destruct (map_seen f seen1 l) as [bs seen2]. simpl in *.
  apply elem_of_cons in Hin as [->|Hin].
  - exists seen. rewrite Hf. left.
  - destruct (IH Hin) as [sn Hsn]. exists sn. by right.
Qed.

(** Every entry of [source.structure] that is not an invalid case property
    has its node among the children, with the entry's hashtag. *)
Lemma getNodes_entry seen source path info id item :
  (id, item) ∈ entries_of source →
  id ∉ invalidCaseProperties →
  ∃ c, Some c ∈ (getNodes invalidCaseProperties sources seen source path info).1
       ∧ xpath c = child_path (Some path) id
       ∧ index c = false
       ∧ hashtag c = hashtag_of source id.
Proof.
  intros Hin Hok. unfold getNodes. fold (entries_of source).
  match goal with |- context [map_seen ?f seen (entries_of source)] =>
    destruct (map_seen_lookup f seen (entries_of source) (id, item) Hin) as [sn Hsn]
  end.
  destruct (map_seen _ seen (entries_of source)) as [mapped seen1]. simpl in Hsn.
  destruct (node_included invalidCaseProperties sources source (Some path) info false
              sn item id Hok) as (c & Hc & Hx & _ & Hi & _).
  pose proof (node_hashtag_of source (Some path) info false sn item id c) as Hh.
  rewrite Hc in Hsn, Hh. specialize (Hh eq_refl). simpl in Hsn.
  assert (Some c ∈ Underscore.sortBy text (Underscore.compact mapped)) as Hcompact.
  { rewrite sortBy_text. apply list_elem_of_In, filter_In. split; [|done].
    by apply list_elem_of_In. }
  exists c. split; [|done].
  destruct (source ≫= Item.related) as [rel|]; [|done].
  destruct (map_seen _ seen1 rel) as [relnodes seen2]. simpl.
  apply elem_of_app. by right.
Qed.

(** The walk visits every node of the list it is given, and every child of
    every node it expands. *)
Lemma walk_trace_complete fuel :
  ∀ seen nodes visited expanded seen',
    walk_trace invalidCaseProperties sources fuel seen nodes
    = Js.Ok (visited, expanded, seen') →
    (∀ n, Some n ∈ nodes → n ∈ visited)
    ∧ Forall (fun n => ∃ sn, ∀ c, Some c ∈ (expand invalidCaseProperties sources sn n).1 →
                                  c ∈ visited) expanded.
Proof.
  induction fuel as [|fuel IHf]; [done|].
  intros seen nodes. revert seen. simpl.
  induction nodes as [|[n|] rest IH]; intros seen visited expanded seen'; simpl.
  - intros [= <- <- <-]. split; [|constructor]. intros n Hn. by apply elem_of_nil in Hn.
  - destruct (recursive n) eqn:Hrec.
    + destruct (each_trace _ _ _ seen rest) as [[[v e] s]| |] eqn:E; [|done..].
      intros [= <- <- <-]. destruct (IH _ _ _ _ E) as [Hv He]. split.
      * intros m [[= ->]|Hm]%elem_of_cons; [left|right; by apply Hv].
      * eapply Forall_impl; [exact He|]. intros x [sn Hx]. exists sn.
        intros c Hc. right. by apply Hx.
    + destruct (expand _ _ seen n) as [children seen1] eqn:Hexp.
      destruct (walk_trace _ _ fuel seen1 children) as [[[v1 e1] seen2]| |] eqn:E1;
        [|done..].
      destruct (each_trace _ _ _ seen2 rest) as [[[v2 e2] s]| |] eqn:E2; [|done..].
      intros [= <- <- <-].
      destruct (IHf _ _ _ _ _ E1) as [Hv1 He1].
      destruct (IH _ _ _ _ E2) as [Hv2 He2].
      split.
      * intros m [[= ->]|Hm]%elem_of_cons; [left|].
        right. apply elem_of_app. right. by apply Hv2.
      * constructor.
        -- exists seen. rewrite Hexp. simpl. intros c Hc.
           right. apply elem_of_app. left. by apply Hv1.
        -- apply Forall_app. split.
           ++ eapply Forall_impl; [exact He1|]. intros x [sn Hx]. exists sn.
              intros c Hc. right. apply elem_of_app. left. by apply Hx.
           ++ eapply Forall_impl; [exact He2|]. intros x [sn Hx]. exists sn.
              intros c Hc. right. apply elem_of_app. right. by apply Hx.
  - done.
Qed.
End Children.

(** [builders.hashtags] does what the record of its walk says, and every
    node it visits is [tagged]. *)
Lemma hashtags_fill invalidCaseProperties l fuel h :
  hashtags fuel invalidCaseProperties (Some l) = Js.Ok (Some h) →
  ∃ visited expanded seen',
    hashtags_trace fuel invalidCaseProperties (Some l) = Js.Ok (visited, expanded, seen')
    ∧ Forall tagged visited
    ∧ h = foldl assign Hashtags.empty (filter (fun n => selected n = true) visited)
    ∧ Forall (fun n => recursive n = false ∧ n ∈ visited) expanded
    ∧ Forall (fun n => ∃ sn, ∀ c,
                Some c ∈ (expand invalidCaseProperties (Underscore.indexBy_id l) sn n).1 →
                c ∈ visited) expanded.
Proof.
  unfold hashtags, hashtags_trace. intros H.
  destruct (dataNodes invalidCaseProperties (Some l))
    as [[[[sources nodes] seen]|]| |] eqn:Hd; try done.
  rewrite walk_fill in H.
  destruct (walk_trace _ _ fuel seen nodes) as [[[visited expanded] seen']| |] eqn:Ht;
    try done.
  simpl in H. injection H as <-.
  assert (sources = Underscore.indexBy_id l ∧ all_nodes tagged nodes) as [-> Hnodes].
  { unfold dataNodes in Hd. destruct (_ !! "commcaresession") as [source|]; [|done].
    destruct (node _ _ _ _ _ _ _ _ _) as [[root|] seen0]; [|done].
    unfold expand in Hd.
    pose proof (getNodes_all invalidCaseProperties (Underscore.indexBy_id l) tagged
                  (node_tagged _ _) seen0 (thunk_source root) (thunk_path root)
                  (thunk_info root)) as Hall.
    destruct (getNodes _ _ seen0 _ _ _) as [ns sn]. by injection Hd as <- <- <-. }
  destruct (walk_trace_sound invalidCaseProperties _ tagged
              (getNodes_all _ _ tagged (node_tagged _ _))
              fuel seen nodes visited expanded seen' Hnodes Ht) as [Hv He].
  destruct (walk_trace_complete invalidCaseProperties _ fuel seen nodes visited expanded
              seen' Ht) as [_ Hc].
  exists visited, expanded, seen'.
  rewrite foldl_record_selected
    by (eapply Forall_impl; [exact Hv|apply tagged_well_tagged]).
  done.
Qed.

(** A transform recorded by the walk is the closure over a visited, selected
    node, stored under that node's prefix. *)
Lemma transforms_lookup_selected visited p c :
  Forall tagged visited →
  Hashtags.transforms
    (foldl assign Hashtags.empty (filter (fun n => selected n = true) visited)) !! p
  = Some c →
  c ∈ visited ∧ hashtagPrefix c = Some p ∧ hashtag c ≠ None ∧ index c = false.
Proof.
  intros Hv H.
  apply foldl_assign_transforms_lookup in H as [Hl|[Hn Hk]];
    [by (unfold Hashtags.empty in Hl; simpl in Hl; rewrite lookup_empty in Hl)|].
  apply list_elem_of_filter in Hn as [Hs Hn].
  eapply Forall_forall in Hv; [|exact Hn].
  destruct (selected_tagged c Hv Hs) as (p' & t' & Hp & Ht' & Hi).
  rewrite Hp in Hk. simpl in Hk. subst p'. repeat split; try done. congruence.
Qed.

(** C3: whenever [builders.hashtags] returns, its result is the empty pair
    of maps with the two assignments of [walk] applied, in visiting order,
    for the visited nodes with [hashtag != null] and [index = false], and
    for no other node: such a node's hashtag is a key of [map]; every entry
    of [map] is the hashtag and the xpath of such a node; every transform is
    the closure over such a node, under its prefix, and maps [prop] to
    [parentPath + "/" + prop]; and [getNodes] is called only on visited
    nodes with [recursive = false], so no child of a recursive node is ever
    built, let alone visited. *)
Theorem walk_records_selected_nodes invalidCaseProperties l fuel h :
  hashtags fuel invalidCaseProperties (Some l) = Js.Ok (Some h) →
  ∃ visited expanded seen',
    hashtags_trace fuel invalidCaseProperties (Some l) = Js.Ok (visited, expanded, seen')
    ∧ h = foldl assign Hashtags.empty (filter (fun n => selected n = true) visited)
    ∧ (∀ n, n ∈ visited → hashtag n ≠ None → index n = false →
         ∃ t, hashtag n = Some t ∧ is_Some (Hashtags.map h !! t))
    ∧ (∀ t x, Hashtags.map h !! t = Some x →
         ∃ n, n ∈ visited ∧ hashtag n = Some t ∧ index n = false ∧ xpath n = x)
    ∧ (∀ p c, Hashtags.transforms h !! p = Some c →
         c ∈ visited ∧ hashtagPrefix c = Some p ∧ hashtag c ≠ None ∧ index c = false
         ∧ ∀ prop, Hashtags.call c prop = Js.str_null (parentPath c) +:+ "/" +:+ prop)
    ∧ Forall (fun n => recursive n = false ∧ n ∈ visited) expanded.
Proof.
  intros H.
  destruct (hashtags_fill _ _ _ _ H) as (visited & expanded & seen' & Ht & Hv & -> & He & _).
  exists visited, expanded, seen'.
  split; [done|]. split; [done|]. split; [|split; [|split; [|done]]].
  - intros n Hn Hh Hi.
    destruct (hashtag n) as [t|] eqn:Hht; [|done].
    exists t. split; [done|].
    replace t with (Js.str_null (hashtag n)) by by rewrite Hht.
    apply foldl_assign_map_member, list_elem_of_filter. split; [|done].
    unfold selected. rewrite Hht, Hi. by rewrite bool_decide_eq_true_2.
  - intros t x Hl.
    apply foldl_assign_map_lookup in Hl as [Hl|(n & Hn & Hk & Hx)];
      [by (unfold Hashtags.empty in Hl; simpl in Hl; rewrite lookup_empty in Hl)|].
    apply list_elem_of_filter in Hn as [Hs Hn].
    eapply Forall_forall in Hv; [|exact Hn].
    destruct (selected_tagged n Hv Hs) as (p & t' & Hp & Ht' & Hi).
    rewrite Ht' in Hk. simpl in Hk. subst t'. by exists n.
  - intros p c Hl.
    destruct (transforms_lookup_selected visited p c Hv Hl) as (? & ? & ? & ?).
    repeat split; done.
Qed.

(** ** Termination of the walk *)

Lemma unseen_decreases (U seen : gset string) k :
  k ∈ U → k ∉ seen → (size (U ∖ ({[k]} ∪ seen)) < size (U ∖ seen))%nat.
Proof. intros HU Hseen. apply subset_size. set_solver. Qed.

Lemma unseen_mono (U seen seen' : gset string) :
  seen ⊆ seen' → (size (U ∖ seen') ≤ size (U ∖ seen))%nat.
Proof. intros Hsub. apply subseteq_size. set_solver. Qed.

Lemma depth_entry it es id x :
  Item.structure it = Some es → (id, x) ∈ es → (depth x < depth it)%nat.
Proof.
  destruct it as [? ? ? ? ? st ? ? ?]. simpl. intros -> Hin. simpl.
  induction es as [|[i y] es IH]; [by apply elem_of_nil in Hin|].
  apply elem_of_cons in Hin as [[= <- <-]|Hin].
  - lia.
  - specialize (IH Hin). lia.
Qed.

Lemma candidates_source sources k s :
  sources !! k = Some s → s ∈ candidates sources.
Proof.
  intros H. unfold candidates. apply elem_of_app. left.
  apply list_elem_of_bind. exists s. split; [left|].
  apply list_elem_of_fmap. exists (k, s). split; [done|]. by apply elem_of_map_to_list.
Qed.

Lemma candidates_subset sources k s subs x :
  sources !! k = Some s → Item.subsets s = Some subs → x ∈ subs → x ∈ candidates sources.
Proof.
  intros H Hs Hx. unfold candidates. apply elem_of_app. left.
  apply list_elem_of_bind. exists s. split.
  - rewrite Hs. simpl. by right.
  - apply list_elem_of_fmap. exists (k, s). split; [done|]. by apply elem_of_map_to_list.
Qed.

Lemma candidates_member sources x : x ∈ Object.members → x ∈ candidates sources.
Proof. intros H. unfold candidates. apply elem_of_app. by right. Qed.

Lemma candidates_depth sources x : x ∈ candidates sources → (depth x ≤ maxdepth sources)%nat.
Proof.
  intros H. unfold maxdepth. apply max_list_elem_of_le. apply list_elem_of_fmap. eauto.
Qed.

Lemma candidates_universe sources x :
  x ∈ candidates sources → Js.str (Item.id x) ∈ universe sources.
Proof.
  intros H. unfold universe. apply elem_of_list_to_set, list_elem_of_fmap. eauto.
Qed.

Section Rank.
Variable invalidCaseProperties : list string.
Variable sources : gmap string Item.t.
Hypothesis sources_storable : storable sources.

Lemma findWhere_elem subs i k x :
  Underscore.findWhere subs i k = Some x → x ∈ subs.
Proof.
  unfold Underscore.findWhere. intros H. apply find_some in H as [H _].
  by apply list_elem_of_In.
Qed.

Lemma selection_candidate k source0 fields ref :
  Object.get sources k = Some (source0, fields) →
  match Item.subsets source0, ref_subset ref with
  | Some subs, Some sub =>
      if Js.truthy (Some sub)
      then default source0 (Underscore.findWhere subs sub "@case_type")
      else source0
  | _, _ => source0
  end ∈ candidates sources.
Proof.
  intros [[Hsrc _]|(_ & Hm & _)]%Object_get_Some.
  2:{ destruct (Object_member_leaf _ Hm) as (_ & _ & -> & _).
      by apply candidates_member. }
  destruct (Item.subsets source0) as [subs|] eqn:Hsubs;
    [|by eapply candidates_source].
  destruct (ref_subset ref) as [sub|]; [|by eapply candidates_source].
  destruct (Js.truthy (Some sub)); [|by eapply candidates_source].
  destruct (Underscore.findWhere subs sub "@case_type") as [x|] eqn:Hf; simpl;
    [|by eapply candidates_source].
  eapply candidates_subset; [exact Hsrc|exact Hsubs|by eapply findWhere_elem].
Qed.

Lemma getTree_source_origin seen item id path info x :
  tree_source (getTree sources seen item id path info).1 = Some x →
  x = item ∨ x ∈ candidates sources.
Proof.
  unfold getTree.
  destruct (Item.structure item) as [st|]; [simpl; intros [= <-]; by left|].
  destruct (Item.reference item) as [ref|]; [|simpl; intros [= <-]; by left].
  destruct (Object.get sources _) as [[source0 fields]|] eqn:Hsrc; [|done].
  case_bool_decide; simpl; intros [= <-]; right;
    eapply selection_candidate; exact Hsrc.
Qed.

Lemma getTree_rank seen item id path info :
  progress sources (item_rank item) seen
    (getTree sources seen item id path info).2
    [tree_rank (getTree sources seen item id path info).1].
Proof.
  unfold progress. split; [apply getTree_seen_mono|].
  unfold getTree, item_rank, tree_rank.
  destruct (Item.structure item) as [st|] eqn:Hst.
  { left. simpl. split; [done|]. repeat constructor. }
  destruct (Item.reference item) as [ref|] eqn:Href.
  2:{ left. simpl. split; [done|]. repeat constructor. }
  destruct (Object.get sources _) as [[source0 fields]|] eqn:Hsrc.
  2:{ left. simpl. split; [done|]. repeat constructor. }
  match goal with |- context [bool_decide (Js.str (Item.id ?t) ∈ seen)] =>
    set (target := t) end.
  assert (target ∈ candidates sources) as Hcand
    by (eapply selection_candidate; exact Hsrc).
  case_bool_decide as Hin; simpl.
  - left. split; [done|]. repeat constructor; lia.
  - right. split.
    + unfold Object.set.
      destruct (String.eqb_spec (Js.str (Item.id target)) "__proto__") as [Heq|_].
      * exfalso. apply sources_storable. rewrite <- Heq.
        by apply candidates_universe.
      * apply unseen_decreases; [by apply candidates_universe|done].
    + pose proof (candidates_depth _ _ Hcand). repeat constructor; lia.
Qed.

Lemma node_rank source pp info idx seen item id :
  progress sources (item_rank item) seen
    (node invalidCaseProperties sources source pp info idx seen item id).2
    [rank (node invalidCaseProperties sources source pp info idx seen item id).1].
Proof.
  destruct (decide (id ∈ invalidCaseProperties)) as [Hin|Hin].
  - rewrite node_excluded by done. simpl. split; [done|]. left. split; [done|].
    repeat constructor; lia.
  - destruct (node_included invalidCaseProperties sources source pp info idx seen item id Hin)
      as (n & -> & _ & _ & _ & _ & _ & Hr & Hs & _).
    pose proof (getTree_rank seen item id (child_path pp id) info) as Ht.
    simpl. unfold rank. rewrite Hr, Hs. exact Ht.
Qed.

Lemma progress_mono r r' seen seen' ranks :
  (r ≤ r')%nat → progress sources r seen seen' ranks → progress sources r' seen seen' ranks.
Proof.
  intros Hle [Hsub [[-> Hall]|Hdec]]; (split; [done|]); [left|by right].
  split; [done|]. eapply Forall_impl; [exact Hall|]. simpl. lia.
Qed.

Lemma progress_app r seen seen1 seen2 ranks1 ranks2 :
  (r ≤ maxdepth sources + 2)%nat →
  progress sources r seen seen1 ranks1 →
  progress sources r seen1 seen2 ranks2 →
  progress sources r seen seen2 (ranks1 ++ ranks2).
Proof.
  intros Hr [Hsub1 H1] [Hsub2 H2]. split; [by etrans|].
  assert (∀ l, Forall (fun k => k ≤ r)%nat l →
               Forall (fun k => k ≤ maxdepth sources + 2)%nat l) as Hweak.
  { intros l Hl. eapply Forall_impl; [exact Hl|]. simpl. lia. }
  destruct H1 as [[-> Hall1]|[Hdec1 Hall1]], H2 as [[-> Hall2]|[Hdec2 Hall2]].
  - left. split; [done|]. by apply Forall_app.
  - right. split; [done|]. apply Forall_app. auto.
  - right. split; [done|]. apply Forall_app. auto.
  - right. split; [|apply Forall_app; auto].
    pose proof (unseen_mono (universe sources) _ _ Hsub1). lia.
Qed.

Lemma map_seen_progress {A} (f : gset string → A → option DataNode * gset string)
    (b : A → nat) r seen (l : list A) :
  (r ≤ maxdepth sources + 2)%nat →
  (∀ a, a ∈ l → (b a ≤ r)%nat) →
  (∀ sn a, progress sources (b a) sn (f sn a).2 [rank (f sn a).1]) →
  progress sources r seen (map_seen f seen l).2 (rank <$> (map_seen f seen l).1).
Proof.
  intros Hr Hb Hf. revert seen. induction l as [|a l IH]; intros seen; simpl.
  - split; [done|]. left. split; [done|constructor].
  - pose proof (Hf seen a) as Ha.
    destruct (f seen a) as [on seen1].
    specialize (IH (fun x Hx => Hb x ltac:(by right)) seen1).
    destruct (map_seen f seen1 l) as [ons seen2]. simpl in *.
    apply (progress_app r seen seen1 seen2 [rank on] (rank <$> ons)); [done| |exact IH].
    eapply progress_mono; [|exact Ha]. apply Hb. left.
Qed.

Lemma progress_subseteq r seen seen' (ranks ranks' : list nat) :
  ranks' ⊆ ranks → progress sources r seen seen' ranks → progress sources r seen seen' ranks'.
Proof.
  intros Hsub [Hs H]. split; [done|].
  assert (∀ P : nat → Prop, Forall P ranks → Forall P ranks') as Hall.
  { intros P HP. apply Forall_forall. intros x Hx.
    eapply Forall_forall in HP; [exact HP|]. by apply Hsub. }
  destruct H as [[-> H]|[Hd H]]; [left|right]; auto.
Qed.

Lemma item_rank_entry it es id x :
  Item.structure it = Some es → (id, x) ∈ es → (item_rank x ≤ 1 + depth it)%nat.
Proof.
  intros Hst Hin. pose proof (depth_entry _ _ _ _ Hst Hin).
  unfold item_rank. repeat case_match; lia.
Qed.

Lemma compact_subseteq {A} (l : list (option A)) : Underscore.compact l ⊆ l.
Proof.
  intros x Hx. apply list_elem_of_In, filter_In in Hx as [Hx _].
  by apply list_elem_of_In.
Qed.

Lemma getNodes_progress seen source path info :
  (∀ it, source = Some it → depth it ≤ maxdepth sources)%nat →
  progress sources (children_rank source) seen
    (getNodes invalidCaseProperties sources seen source path info).2
    (rank <$> (getNodes invalidCaseProperties sources seen source path info).1).
Proof.
  intros Hd. destruct source as [it|];
    [|simpl; split; [done|]; left; split; [done|constructor]].
  specialize (Hd it eq_refl). unfold getNodes, children_rank.
  assert (1 + depth it ≤ maxdepth sources + 2)%nat as Hr by lia.
  match goal with |- context [map_seen ?f seen ?l] =>
    pose proof (map_seen_progress f (fun e => item_rank e.2) (1 + depth it) seen l Hr)
      as Hstr
  end.
  destruct (map_seen _ seen _) as [mapped seen1] eqn:Hm. simpl in Hstr.
  rewrite sortBy_text.
  assert (progress sources (1 + depth it) seen seen1 (rank <$> Underscore.compact mapped))
    as Hc.
  { eapply progress_subseteq; [|apply Hstr].
    - intros k Hk. apply list_elem_of_fmap in Hk as (on & -> & Hon).
      apply list_elem_of_fmap. exists on. split; [done|]. by apply compact_subseteq.
    - intros [id x] Hx. simpl. destruct (Item.structure it) as [es|] eqn:Hes;
        [|by apply elem_of_nil in Hx].
      by eapply item_rank_entry.
    - intros sn [id x]. apply node_rank. }
  destruct (Some it ≫= Item.related) as [rel|]; [|exact Hc].
  match goal with |- context [map_seen ?f seen1 rel] =>
    pose proof (map_seen_progress f (fun _ => 1%nat) (1 + depth it) seen1 rel Hr)
      as Hrel
  end.
  destruct (map_seen _ seen1 rel) as [relnodes seen2]. simpl in *.
  rewrite sortBy_text.
  eapply progress_subseteq;
    [|eapply progress_app; [exact Hr|exact Hc|apply Hrel]].
  - rewrite !fmap_app. intros k. rewrite !elem_of_app. tauto.
  - intros _ _. lia.
  - intros sn [relation subset]. apply node_rank.
Qed.

Lemma walk_nil fuel seen h :
  walk invalidCaseProperties sources (S fuel) seen [] h = Js.Ok (h, seen).
Proof. reflexivity. Qed.

(** With fuel beyond the bound, [walk] returns or throws, and [seen] only
    grows. *)
Lemma walk_within_fuel fuel :
  ∀ k r seen nodes h,
    (r ≤ maxdepth sources + 2)%nat →
    (size (universe sources ∖ seen) ≤ k)%nat →
    Forall (fun on => rank on ≤ r)%nat nodes →
    (k * (maxdepth sources + 3) + r < fuel)%nat →
    match walk invalidCaseProperties sources fuel seen nodes h with
    | Js.Ok (_, seen') => seen ⊆ seen'
    | Js.TypeError => True
    | Js.OutOfFuel => False
    end.
Proof.
  induction fuel as [|fuel IHf]; intros k r seen nodes h Hr Hk Hall Hfuel; [lia|].
  simpl. revert seen h Hk.
  induction Hall as [|on rest Hon Hrest IH]; intros seen h Hk; simpl; [done|].
  destruct on as [n|]; [|done].
  unfold rank in Hon.
  destruct (recursive n) eqn:Hrec; [by apply IH|].
  unfold expand.
  pose proof (getNodes_progress seen (thunk_source n) (thunk_path n) (thunk_info n)) as Hp.
  destruct (getNodes _ _ seen _ _ _) as [children seen1]. simpl in Hp.
  destruct Hp as [Hsub Hp].
  { intros it Hit. rewrite Hit in Hon. lia. }
  assert (match walk invalidCaseProperties sources fuel seen1 children (record n h) with
          | Js.Ok (_, seen') => seen1 ⊆ seen'
          | Js.TypeError => True
          | Js.OutOfFuel => False
          end) as Hrec_call.
  { destruct Hp as [[-> Hch]|[Hdec Hch]].
    - apply (IHf k (children_rank (thunk_source n))); [| done | |].
      + unfold children_rank. destruct (thunk_source n); lia.
      + by apply Forall_fmap in Hch.
      + unfold children_rank. destruct (thunk_source n); lia.
    - destruct k as [|k]; [lia|].
      apply (IHf k (maxdepth sources + 2)%nat); [lia | lia | | nia].
      by apply Forall_fmap in Hch. }
  destruct (walk _ _ fuel seen1 children (record n h)) as [[h2 seen2]| |]; [|done..].
  assert (seen ⊆ seen2) as Hsub2 by (by etrans).
  specialize (IH seen2 h2).
  destruct (each _ _ _ seen2 rest h2) as [[h3 seen3]| |]; [| done |].
  - etrans; [exact Hsub2|]. apply IH.
    pose proof (unseen_mono (universe sources) _ _ Hsub2). lia.
  - apply IH. pose proof (unseen_mono (universe sources) _ _ Hsub2). lia.
Qed.
End Rank.

(** [builders.hashtags] returns or throws once the fuel reaches
    [walk_fuel]: the walk terminates on every list of descriptors in which
    no source or subset has the id [__proto__]. *)
Lemma hashtags_terminates invalidCaseProperties l fuel :
  storable (Underscore.indexBy_id l) →
  (walk_fuel l ≤ fuel)%nat →
  hashtags fuel invalidCaseProperties (Some l) ≠ Js.OutOfFuel.
Proof.
  unfold walk_fuel, hashtags, dataNodes. intros Hst Hfuel.
  set (sources := Underscore.indexBy_id l) in *.
  destruct (sources !! "commcaresession") as [source|] eqn:Hidx; [|done].
  match goal with |- context [node _ _ _ _ ?i _ _ _ ?p] =>
    set (info := i); set (path := p) end.
  destruct (decide (path ∈ invalidCaseProperties)) as [Hin|Hin].
  { by rewrite node_excluded by done. }
  destruct (node_included invalidCaseProperties sources (Some source) None info false
              ∅ source path Hin) as (root & -> & _ & _ & _ & _ & _ & _ & Hs & _).
  set (seen0 := (getTree sources ∅ source path (child_path None path) info).2) in *.
  assert (∀ it, thunk_source root = Some it → (depth it ≤ maxdepth sources)%nat) as Hd.
  { intros it Hit.
    rewrite Hs in Hit. apply getTree_source_origin in Hit as [->|Hc];
      apply candidates_depth; [by eapply candidates_source|done]. }
  unfold expand.
  pose proof (getNodes_progress invalidCaseProperties sources Hst seen0
                (thunk_source root) (thunk_path root) (thunk_info root) Hd) as [_ Hp].
  destruct (getNodes _ _ seen0 _ _ _) as [nodes seen]. simpl in Hp.
  pose proof (walk_within_fuel invalidCaseProperties sources Hst fuel
                (size (universe sources)) (maxdepth sources + 2)%nat seen nodes
                Hashtags.empty) as Hw.
  destruct (walk _ _ fuel seen nodes Hashtags.empty) as [[h seen']| |]; [done..|].
  exfalso. apply Hw.
  - lia.
  - apply subseteq_size. set_solver.
  - assert ((children_rank (thunk_source root) ≤ maxdepth sources + 2)%nat) as Hcr.
    { unfold children_rank. destruct (thunk_source root) as [it|]; [|lia].
      specialize (Hd it eq_refl). lia. }
    assert (Forall (fun k => k ≤ maxdepth sources + 2)%nat (rank <$> nodes)) as Hall.
    { destruct Hp as [[_ Hp]|[_ Hp]]; [|done].
      eapply Forall_impl; [exact Hp|]. simpl. lia. }
    by apply Forall_fmap in Hall.
  - nia.
Qed.


(** ** Nothing throws without invalid case properties *)

Section NoThrow.
Variable sources : gmap string Item.t.

Lemma node_not_null source pp info idx seen item id :
  is_Some (node [] sources source pp info idx seen item id).1.
Proof.
  destruct (node_included [] sources source pp info idx seen item id) as (n & -> & _);
    [apply not_elem_of_nil|]. simpl. eauto.
Qed.

Lemma walk_does_not_throw fuel :
  ∀ seen nodes h,
    Forall is_Some nodes →
    walk [] sources fuel seen nodes h ≠ Js.TypeError.
Proof.
  induction fuel as [|fuel IHf]; [done|].
  intros seen nodes h Hall. simpl. revert seen h.
  induction Hall as [|on rest [n ->] _ IH]; intros seen h; simpl; [done|].
  destruct (recursive n); [apply IH|].
  unfold expand.
  pose proof (getNodes_all_option [] sources is_Some node_not_null seen (thunk_source n)
                (thunk_path n) (thunk_info n)) as Hch.
  destruct (getNodes _ _ seen _ _ _) as [children seen1]. simpl in Hch.
  specialize (IHf seen1 children (record n h) Hch).
  destruct (walk [] sources fuel seen1 children (record n h)) as [[h2 seen2]| |];
    [apply IH|done..].
Qed.
End NoThrow.

(** Without invalid case properties [builders.hashtags] returns a value
    for every list of descriptors in which no source or subset has the id
    [__proto__] or [hasOwnProperty]. *)
Lemma hashtags_returns l fuel :
  storable (Underscore.indexBy_id l) → unshadowed (Underscore.indexBy_id l) →
  (walk_fuel l ≤ fuel)%nat → ∃ o, hashtags fuel [] (Some l) = Js.Ok o.
Proof.
  intros Hst _ Hfuel. pose proof (hashtags_terminates [] l fuel Hst Hfuel) as Hterm.
  assert (hashtags fuel [] (Some l) ≠ Js.TypeError) as Hthrow.
  { unfold hashtags, dataNodes.
    destruct (_ !! "commcaresession") as [source|]; [|done].
    match goal with |- context [node [] ?s ?so ?pp ?i ?ix ?sn ?it ?p] =>
      destruct (node_not_null s so pp i ix sn it p) as [root Hroot];
      destruct (node [] s so pp i ix sn it p) as [r seen0] eqn:Hn
    end.
    simpl in Hroot. subst r. unfold expand.
    pose proof (getNodes_all_option [] (Underscore.indexBy_id l) is_Some
                  (node_not_null _) seen0 (thunk_source root) (thunk_path root)
                  (thunk_info root)) as Hch.
    destruct (getNodes _ _ seen0 _ _ _) as [nodes seen]. simpl in Hch.
    pose proof (walk_does_not_throw (Underscore.indexBy_id l) fuel seen nodes
                  Hashtags.empty Hch) as Hw.
    by destruct (walk _ _ fuel seen nodes Hashtags.empty) as [[h s]| |]. }
  destruct (hashtags fuel [] (Some l)) as [o| |]; [eauto|done..].
Qed.

(** ** A reference to a source that does not exist *)

Lemma getTree_dangling sources seen item id path info ref :
  Item.structure item = None →
  Item.reference item = Some ref →
  Object.get sources (Js.str (Js.or (ref_source ref) (Item.id (info_fields info)))) = None →
  getTree sources seen item id path info
  = (mkTree (Js.str (Js.or (Item.name item) (Some id))) false None path info, seen).
Proof. intros Hst Href Hmiss. unfold getTree. by rewrite Hst, Href, Hmiss. Qed.

(** Where no source has the id [__proto__], a reference entry whose source
    id is neither the id of a descriptor nor a name the index inherits
    resolves to no source: its node is built
    all the same, under the name of the entry, with [recursive = false],
    with the path its children would hang from left as it was (not
    rewritten to an [instance(...)] expression) and with no children, and
    [seen] is not touched; the list the entry stands in still yields one
    node for every relation and for every entry that is not an invalid case
    property. *)
Lemma dangling_reference_builds_a_leaf
    invalidCaseProperties sources seen source path info id item ref :
  indexed sources →
  (id, item) ∈ entries_of source →
  Item.structure item = None →
  Item.reference item = Some ref →
  Object.get sources (Js.str (Js.or (ref_source ref) (Item.id (info_fields info)))) = None →
  id ∉ invalidCaseProperties →
  (∀ sn, ∃ n,
     node invalidCaseProperties sources source (Some path) info false sn item id
       = (Some n, sn)
     ∧ name n = Js.str (Js.or (Item.name item) (Some id))
     ∧ xpath n = child_path (Some path) id
     ∧ thunk_path n = xpath n
     ∧ thunk_source n = None
     ∧ recursive n = false
     ∧ expand invalidCaseProperties sources sn n = ([], sn))
  ∧ ∃ rel str,
      (getNodes invalidCaseProperties sources seen source path info).1 = rel ++ str
      ∧ Forall2 (relational path info) (relations_of source) rel
      ∧ Forall2 (structural path info)
          (filter (fun e => e.1 ∉ invalidCaseProperties) (entries_of source)) str
      ∧ ∃ n, Some n ∈ str ∧ xpath n = child_path (Some path) id.
Proof.
  intros _ Hin Hst Href Hmiss Hok. split.
  - intros sn.
    destruct (node_included invalidCaseProperties sources source (Some path) info
                false sn item id Hok)
      as (n & Hn & Hx & _ & _ & _ & Hnm & Hr & Hs & Hp & Hi).
    rewrite (getTree_dangling _ _ _ _ _ _ _ Hst Href Hmiss) in *. simpl in *.
    exists n. repeat split; try done.
    + congruence.
    + unfold expand. rewrite Hs. apply getNodes_undefined.
  - destruct (getNodes_shape invalidCaseProperties sources seen source path info)
      as (rel & str & Heq & Hrel & Hstr).
    exists rel, str. repeat split; try done.
    assert ((id, item) ∈ filter (fun e => e.1 ∉ invalidCaseProperties) (entries_of source))
      as Hin' by (apply list_elem_of_filter; done).
    apply list_elem_of_lookup in Hin' as [i Hi].
    destruct (Forall2_lookup_l _ _ _ _ _ Hstr Hi) as (on & Hon & (n & -> & Hx & _)).
    exists n. split; [|done]. apply list_elem_of_lookup. eauto.
Qed.

(** C5, where the code departs from it.  In [Samples.inherited] the root has
    a plain entry, a reference to [nowhere], a reference to [constructor]
    and a reference to the source [A]; no descriptor has the id [nowhere]
    or [constructor].  All four nodes are built and the hashtags compile.
    The reference to [nowhere] gives the leaf the claim describes.  The
    reference to [constructor] does not: [sources["constructor"]] is the
    function [Object] the index inherits, so the node is named [Object], the
    path of its closure is rewritten to an [instance(...)] expression built
    from the [undefined] id and path of that function, its closure holds
    the function as its source, and the key [undefined] is written to
    [seen]. *)
Theorem inherited_member_is_taken_for_a_source :
  ∃ sources user ghost ctor case seen,
    dataNodes [] (Some Samples.inherited)
    = Js.Ok (Some (sources, [Some user; Some ghost; Some ctor; Some case], seen))
    ∧ (name ghost, xpath ghost, recursive ghost, thunk_source ghost, thunk_path ghost)
      = ("ghost", "instance('commcaresession')/session/ghost", false, None,
         "instance('commcaresession')/session/ghost")
    ∧ expand [] sources seen ghost = ([], seen)
    ∧ (name ctor, xpath ctor, recursive ctor, thunk_source ctor, thunk_path ctor)
      = ("Object", "instance('commcaresession')/session/ctor", false,
         Some (Object.member (Some "Object")),
         "instance('undefined')undefined[@case_id = instance('commcaresession')/session/ctor]")
    ∧ thunk_info ctor = mkInfo Item.empty (Some (sourceInfo ctor))
    ∧ expand [] sources seen ctor = ([], seen)
    ∧ seen = {["undefined"; "A"]}
    ∧ Object.get sources "constructor"
      = Some (Object.member (Some "Object"), Item.empty)
    ∧ Object.get sources "nowhere" = None
    ∧ hashtagMap 16 [] (Some Samples.inherited)
      = Js.Ok (Some (list_to_map
          [ ("#case/A/name",
             "instance('A')/a[@case_id = instance('commcaresession')/session/case]/name") ])).
Proof.
  eexists _, _, _, _, _, _. split; [vm_compute; reflexivity|].
  repeat split; vm_compute; reflexivity.
Qed.

(** ** A cycle of two sources *)

(** The map holds the hashtag of every property of every source, subset or
    container the walk expands. *)
Lemma expanded_properties_are_mapped invalidCaseProperties l fuel h visited expanded seen' :
  hashtags fuel invalidCaseProperties (Some l) = Js.Ok (Some h) →
  hashtags_trace fuel invalidCaseProperties (Some l) = Js.Ok (visited, expanded, seen') →
  ∀ n id item t,
    n ∈ expanded → (id, item) ∈ entries_of (thunk_source n) →
    id ∉ invalidCaseProperties → hashtag_of (thunk_source n) id = Some t →
    is_Some (Hashtags.map h !! t).
Proof.
  intros Hh Ht n id item t Hn Hin Hok Htag.
  destruct (hashtags_fill _ _ _ _ Hh) as (v & e & s & Ht' & Hv & -> & _ & Hc).
  rewrite Ht in Ht'. injection Ht' as <- <- <-.
  eapply Forall_forall in Hc as [sn Hc]; [|exact Hn].
  destruct (getNodes_entry invalidCaseProperties (Underscore.indexBy_id l) sn
              (thunk_source n) (thunk_path n) (thunk_info n) id item Hin Hok)
    as (c & Hchild & _ & Hi & Hhc).
  specialize (Hc c Hchild).
  replace t with (Js.str_null (hashtag c)) by by rewrite Hhc, Htag.
  apply foldl_assign_map_member, list_elem_of_filter. split; [|done].
  unfold selected. rewrite Hhc, Htag, Hi. by rewrite bool_decide_eq_true_2.
Qed.

(** Where no source or subset has the id [__proto__], compiling the
    hashtag map terminates, on cyclic descriptors as on others; the walk
    expands no node marked recursive, and the map it returns holds the
    hashtag of every property of every source it expands.  In
    [Samples.cyclic], where the root refers to source [A], [A] to [B] and
    [B] back to [A], the node of [B]'s reference to [A] is visited, is
    marked recursive and is not expanded, and the map holds the hashtags of
    the properties of [A] and of [B], those of the two references among
    them. *)
Lemma cyclic_sources_compile :
  (∀ invalidCaseProperties l fuel,
     storable (Underscore.indexBy_id l) →
     hashtags (walk_fuel l + fuel) invalidCaseProperties (Some l) ≠ Js.OutOfFuel)
  ∧ (∀ invalidCaseProperties l fuel h visited expanded seen',
       hashtags fuel invalidCaseProperties (Some l) = Js.Ok (Some h) →
       hashtags_trace fuel invalidCaseProperties (Some l)
       = Js.Ok (visited, expanded, seen') →
       Forall (fun n => recursive n = false) expanded
       ∧ ∀ n id item t,
           n ∈ expanded → (id, item) ∈ entries_of (thunk_source n) →
           id ∉ invalidCaseProperties → hashtag_of (thunk_source n) id = Some t →
           is_Some (Hashtags.map h !! t))
  ∧ ∀ fuel,
      hashtagMap (walk_fuel Samples.cyclic + fuel) [] (Some Samples.cyclic)
      = Js.Ok (Some (list_to_map
          [ ("#case/A/name",
             "instance('A')/a[@case_id = instance('commcaresession')/session/case]/name");
            ("#case/A/child",
             "instance('A')/a[@case_id = instance('commcaresession')/session/case]/child");
            ("#case/B/age",
             "instance('B')/b[@case_id = instance('A')/a[@case_id = instance('commcaresession')/session/case]/child]/age");
            ("#case/B/parent",
             "instance('B')/b[@case_id = instance('A')/a[@case_id = instance('commcaresession')/session/case]/child]/parent") ]))
      ∧ ∃ visited expanded seen',
          hashtags_trace (walk_fuel Samples.cyclic + fuel) [] (Some Samples.cyclic)
          = Js.Ok (visited, expanded, seen')
          ∧ (fun n => (name n, hashtag n, recursive n)) <$> visited
            = [ ("A", None, false);
                ("name", Some "#case/A/name", false);
                ("B", Some "#case/A/child", false);
                ("age", Some "#case/B/age", false);
                ("A", Some "#case/B/parent", true) ]
          ∧ (fun n => (name n, hashtag n, recursive n)) <$> expanded
            = [ ("A", None, false);
                ("name", Some "#case/A/name", false);
                ("B", Some "#case/A/child", false);
                ("age", Some "#case/B/age", false) ].
Proof.
  split; [|split].
  - intros inv l fuel Hst. apply hashtags_terminates; [done|lia].
  - intros inv l fuel h visited expanded seen' Hh Ht. split.
    + destruct (hashtags_fill _ _ _ _ Hh) as (v & e & s & Ht' & _ & _ & He & _).
      rewrite Ht in Ht'. injection Ht' as <- <- <-.
      eapply Forall_impl; [exact He|]. by intros n [? _].
    + by eapply expanded_properties_are_mapped.
  - intros fuel. split.
    + apply hashtagMap_more_fuel. vm_compute. reflexivity.
    + eexists _, _, _. split.
      * apply hashtags_trace_more_fuel. vm_compute. reflexivity.
      * split; vm_compute; reflexivity.
Qed.

Lemma cyclic_sources_compile_witness :
  ∃ h expanded,
    hashtags 16 [] (Some Samples.cyclic) = Js.Ok (Some h)
    ∧ Forall (fun n => recursive n = false) expanded
    ∧ length expanded = 4.
Proof.
  assert (∃ h, hashtags 16 [] (Some Samples.cyclic) = Js.Ok (Some h)) as [h Hh]
    by (eexists; vm_compute; reflexivity).
  assert (∃ visited expanded seen',
            hashtags_trace 16 [] (Some Samples.cyclic) = Js.Ok (visited, expanded, seen')
            ∧ length expanded = 4) as (visited & expanded & seen' & Ht & Hlen)
    by (eexists _, _, _; split; vm_compute; reflexivity).
  destruct (proj1 (proj2 cyclic_sources_compile) [] Samples.cyclic 16 h
              visited expanded seen' Hh Ht) as [Hrec _].
  exists h, expanded. split; [exact Hh|]. split; [exact Hrec|exact Hlen].
Defined.

(** *** A cycle through a source with the id [__proto__] *)

Lemma proto_loop_children path info :
  ∃ n,
    getNodes [] (Underscore.indexBy_id Samples.proto_loop) ∅
      (Some (Samples.source "__proto__" "/a" [("self", Samples.ref "__proto__")]))
      path info
    = ([Some n], ∅)
    ∧ thunk_source n
      = Some (Samples.source "__proto__" "/a" [("self", Samples.ref "__proto__")])
    ∧ recursive n = false.
Proof. eexists. split; [vm_compute; reflexivity|]. split; reflexivity. Qed.

Lemma proto_loop_walk fuel :
  ∀ n h,
    thunk_source n
    = Some (Samples.source "__proto__" "/a" [("self", Samples.ref "__proto__")]) →
    recursive n = false →
    walk [] (Underscore.indexBy_id Samples.proto_loop) fuel ∅ [Some n] h = Js.OutOfFuel.
Proof.
  induction fuel as [|fuel IH]; intros n h Hs Hr; [done|].
  cbn [walk each]. rewrite Hr. unfold expand. rewrite Hs.
  destruct (proto_loop_children (thunk_path n) (thunk_info n)) as (c & -> & Hcs & Hcr).
  by rewrite (IH c _ Hcs Hcr).
Qed.

Lemma proto_loop_never_returns fuel :
  hashtags fuel [] (Some Samples.proto_loop) = Js.OutOfFuel.
Proof.
  assert (∃ n, dataNodes [] (Some Samples.proto_loop)
               = Js.Ok (Some (Underscore.indexBy_id Samples.proto_loop, [Some n], ∅))
               ∧ thunk_source n
                 = Some (Samples.source "__proto__" "/a"
                           [("self", Samples.ref "__proto__")])
               ∧ recursive n = false) as (n & Hd & Hs & Hr)
    by (eexists; split; [vm_compute; reflexivity|]; split; reflexivity).
  unfold hashtags. rewrite Hd. by rewrite proto_loop_walk.
Qed.

(** C2, where the code departs from it.  [seen[source.id] = true] records
    nothing when the id is [__proto__], so a reference to a source with
    that id is never marked recursive.  In [Samples.proto_cycle], which is
    [Samples.cyclic] with [__proto__] for the id [A], the node of [B]'s
    reference back to the first source is visited with [recursive = false]
    and is expanded: the first source is unfolded a second time, the walk
    stops only at its reference to [B], [seen] ends with [B] as its one
    key, and the map gives the hashtags of the first source the paths of
    the second unfolding, through the cycle.  In [Samples.proto_loop],
    where such a source refers to itself, the walk never returns: no amount
    of fuel is enough. *)
Theorem proto_cycle_is_not_cut :
  (∃ visited expanded seen',
     hashtags_trace 16 [] (Some Samples.proto_cycle) = Js.Ok (visited, expanded, seen')
     ∧ (fun n => (name n, hashtag n, recursive n)) <$> visited
       = [ ("__proto__", None, false);
           ("name", Some "#case/__proto__/name", false);
           ("B", Some "#case/__proto__/child", false);
           ("age", Some "#case/B/age", false);
           ("__proto__", Some "#case/B/parent", false);
           ("name", Some "#case/__proto__/name", false);
           ("B", Some "#case/__proto__/child", true) ]
     ∧ (fun n => (name n, hashtag n, recursive n)) <$> expanded
       = [ ("__proto__", None, false);
           ("name", Some "#case/__proto__/name", false);
           ("B", Some "#case/__proto__/child", false);
           ("age", Some "#case/B/age", false);
           ("__proto__", Some "#case/B/parent", false);
           ("name", Some "#case/__proto__/name", false) ]
     ∧ seen' = {["B"]})
  ∧ hashtagMap 16 [] (Some Samples.proto_cycle)
    = Js.Ok (Some (list_to_map
        [ ("#case/__proto__/name",
           "instance('__proto__')/a[@case_id = instance('B')/b[@case_id = instance('__proto__')/a[@case_id = instance('commcaresession')/session/case]/child]/parent]/name");
          ("#case/__proto__/child",
           "instance('__proto__')/a[@case_id = instance('B')/b[@case_id = instance('__proto__')/a[@case_id = instance('commcaresession')/session/case]/child]/parent]/child");
          ("#case/B/age",
           "instance('B')/b[@case_id = instance('__proto__')/a[@case_id = instance('commcaresession')/session/case]/child]/age");
          ("#case/B/parent",
           "instance('B')/b[@case_id = instance('__proto__')/a[@case_id = instance('commcaresession')/session/case]/child]/parent") ]))
  ∧ ∀ fuel, hashtags fuel [] (Some Samples.proto_loop) = Js.OutOfFuel.
Proof.
  split; [|split; [vm_compute; reflexivity | apply proto_loop_never_returns]].
  eexists _, _, _. split; [vm_compute; reflexivity|].
  repeat split; vm_compute; reflexivity.
Qed.

(** C3 at [Samples.cyclic]. *)
Lemma walk_records_selected_nodes_witness :
  ∃ h visited,
    hashtags 16 [] (Some Samples.cyclic) = Js.Ok (Some h)
    ∧ h = foldl assign Hashtags.empty (filter (fun n => selected n = true) visited).
Proof.
  assert (∃ h, hashtags 16 [] (Some Samples.cyclic) = Js.Ok (Some h)) as [h Hh]
    by (eexists; vm_compute; reflexivity).
  destruct (walk_records_selected_nodes [] Samples.cyclic 16 h Hh)
    as (visited & expanded & seen' & Ht & Heq & _).
  exists h, visited. split; [exact Hh|exact Heq].
Defined.

(** ** The loader after a failed request *)

Module LoaderFacts.
Import Datasources.

Lemma retries_emit e that :
  retries (emit e that)
  = retries that ++ omap (fun e => match e with SetTimeout d => Some d | _ => None end) e.
Proof. unfold retries, emit. simpl. by rewrite omap_app. Qed.

Lemma onError_cache that : cache (onError that) = cache that.
Proof. unfold onError. by destruct (_ <? _)%Z. Qed.

Lemma onError_retries that :
  retries (onError that)
  = retries that ++ (if (retryTimeout that <? 8001)%Z then [retryTimeout that] else []).
Proof.
  unfold onError. simpl. destruct (_ <? _)%Z.
  - unfold retries. simpl. rewrite !omap_app. simpl. by rewrite app_nil_r.
  - unfold retries. simpl. rewrite !omap_app. simpl. by rewrite !app_nil_r.
Qed.

Lemma onError_retryTimeout that :
  retryTimeout (onError that)
  = if (retryTimeout that <? 8001)%Z then (retryTimeout that * 2)%Z else retryTimeout that.
Proof. unfold onError. simpl. by destruct (_ <? _)%Z. Qed.

Lemma loadDataSources_retries that : retries (loadDataSources that) = retries that.
Proof.
  unfold loadDataSources, finish.
  destruct (endpoint that) as [|u|]; [|destruct (String.eqb u "")|];
    rewrite retries_emit; simpl; by rewrite app_nil_r.
Qed.

Lemma loadDataSources_retryTimeout that :
  retryTimeout (loadDataSources that) = retryTimeout that.
Proof.
  unfold loadDataSources, finish.
  by destruct (endpoint that) as [|u|]; [|destruct (String.eqb u "")|].
Qed.

Lemma fail_and_wait_retries that :
  retries (fail_and_wait that)
  = retries that ++ (if (retryTimeout that <? 8001)%Z then [retryTimeout that] else []).
Proof.
  unfold fail_and_wait. case_bool_decide.
  - apply onError_retries.
  - rewrite loadDataSources_retries. apply onError_retries.
Qed.

Lemma fail_and_wait_retryTimeout that :
  retryTimeout (fail_and_wait that)
  = if (retryTimeout that <? 8001)%Z then (retryTimeout that * 2)%Z else retryTimeout that.
Proof.
  unfold fail_and_wait. case_bool_decide.
  - apply onError_retryTimeout.
  - rewrite loadDataSources_retryTimeout. apply onError_retryTimeout.
Qed.

Lemma fail_and_wait_step that t :
  retryTimeout that = t → (t <? 8001)%Z = true →
  retries (fail_and_wait that) = retries that ++ [t]
  ∧ retryTimeout (fail_and_wait that) = (t * 2)%Z.
Proof.
  intros <- Hlt. by rewrite fail_and_wait_retries, fail_and_wait_retryTimeout, Hlt.
Qed.

Lemma no_retry_past_the_limit n that :
  (8001 ≤ retryTimeout that)%Z →
  retries (Nat.iter n fail_and_wait that) = retries that
  ∧ retryTimeout (Nat.iter n fail_and_wait that) = retryTimeout that.
Proof.
  intros Hlim. induction n as [|n [IHr IHt]]; [done|].
  simpl. rewrite fail_and_wait_retries, fail_and_wait_retryTimeout, IHr, IHt.
  destruct (Z.ltb_spec (retryTimeout that) 8001); [lia|]. by rewrite app_nil_r.
Qed.

(** X19: the loader's error handler leaves [that.cache] as it was; it sets
    a timer that runs [loadDataSources] again after [retryTimeout]
    milliseconds and doubles [retryTimeout], as long as [retryTimeout] is
    below 8001; from a reset loader that makes four retries, after 1000,
    2000, 4000 and 8000 ms, and none after them, however often the request
    fails. *)
Theorem failed_request_keeps_cache_and_retries_four_times that :
  cache (onError that) = cache that
  ∧ retries (onError that)
    = retries that ++ (if (retryTimeout that <? 8001)%Z then [retryTimeout that] else [])
  ∧ retryTimeout (onError that)
    = (if (retryTimeout that <? 8001)%Z then (retryTimeout that * 2)%Z
       else retryTimeout that)
  ∧ ∀ n, retries (Nat.iter (4 + n) fail_and_wait (reset that))
         = retries that ++ [1000; 2000; 4000; 8000]%Z.
Proof.
  split; [apply onError_cache|].
  split; [apply onError_retries|].
  split; [apply onError_retryTimeout|].
  intros n. rewrite Nat.add_comm, Nat.iter_add.
  set (that4 := Nat.iter 4 fail_and_wait (reset that)).
  assert (retries that4 = retries that ++ [1000; 2000; 4000; 8000]%Z
          ∧ retryTimeout that4 = 16000%Z) as [Hr Ht].
  { subst that4.
    change (Nat.iter 4 fail_and_wait (reset that))
      with (fail_and_wait (fail_and_wait (fail_and_wait (fail_and_wait (reset that))))).
    destruct (fail_and_wait_step (reset that) 1000 eq_refl eq_refl) as [R1 T1].
    destruct (fail_and_wait_step _ 2000 T1 eq_refl) as [R2 T2].
    destruct (fail_and_wait_step _ 4000 T2 eq_refl) as [R3 T3].
    destruct (fail_and_wait_step _ 8000 T3 eq_refl) as [R4 T4].
    split; [|exact T4].
    rewrite R4, R3, R2, R1. change (retries (reset that)) with (retries that).
    by rewrite <- !app_assoc. }
  destruct (no_retry_past_the_limit n that4) as [-> _]; [lia|done].
Qed.

(** After one failed request to a URL endpoint the loader has set a timer,
    and when it expires the loader sends the request again. *)
Lemma loader_retries_by_itself :
  retries (onError (init (Url "/sources") [])) = [1000%Z]
  ∧ effects (fail_and_wait (init (Url "/sources") []))
    = [Ajax "/sources"; Fire "error"; ConsoleLog; SetTimeout 1000; Ajax "/sources"].
Proof. split; reflexivity. Qed.
End LoaderFacts.

(** ** The source list after a load *)

(** C10: [finish] never caches an empty list of sources: an empty list of
    descriptors is replaced by the one placeholder source, any other list
    is cached as it is.  That is so in the loader and in its predecessor,
    where the callbacks receive the cached list; an empty list arrives at
    [finish] when there is no endpoint and, in the predecessor, after a
    failed request. *)
Theorem finish_never_caches_an_empty_list :
  Datasources.placeholder
  = Item.mk (Some "") (Some "") (Some "") (Some "Not Found") None (Some []) None None None
  ∧ DatasourcesLegacy.placeholder = Datasources.placeholder
  ∧ (∀ data that,
       Datasources.c_sources (Datasources.cache (Datasources.finish data that))
       = Some (match data with [] => [Datasources.placeholder] | _ => data end)
       ∧ Datasources.c_sources (Datasources.cache (Datasources.finish data that)) ≠ Some [])
  ∧ (∀ invalid timeout cache loading effects,
       Datasources.c_sources (Datasources.cache (Datasources.loadDataSources
         (Datasources.mkThat Datasources.Missing invalid timeout cache loading effects)))
       = Some [Datasources.placeholder])
  ∧ (∀ data st,
       DatasourcesLegacy.dataCache (DatasourcesLegacy.finish data st)
       = Some (match data with [] => [DatasourcesLegacy.placeholder] | _ => data end)
       ∧ DatasourcesLegacy.dataCache (DatasourcesLegacy.finish data st) ≠ Some []
       ∧ DatasourcesLegacy.effects (DatasourcesLegacy.finish data st)
         = DatasourcesLegacy.effects st
           ++ ((fun c => DatasourcesLegacy.Success c
                           (match data with
                            | [] => [DatasourcesLegacy.placeholder]
                            | _ => data
                            end))
               <$> omap id (DatasourcesLegacy.dataCallbacks st)))
  ∧ (∀ st,
       DatasourcesLegacy.dataCache (DatasourcesLegacy.ajaxError st)
       = Some [DatasourcesLegacy.placeholder])
  ∧ (∀ success error effects,
       DatasourcesLegacy.getDataSources success error
         (DatasourcesLegacy.mkState DatasourcesLegacy.Missing None [] [] effects)
       = DatasourcesLegacy.mkState DatasourcesLegacy.Missing
           (Some [DatasourcesLegacy.placeholder]) [] [error]
           (effects ++ [DatasourcesLegacy.Success success [DatasourcesLegacy.placeholder]])).
Proof.
  split; [reflexivity|]. split; [reflexivity|].
  split; [|split; [|split; [|split]]].
  - intros data that. unfold Datasources.finish. simpl.
    destruct data as [|d data]; simpl; split; done.
  - reflexivity.
  - intros data st. unfold DatasourcesLegacy.finish. simpl.
    destruct data as [|d data]; simpl; repeat split; done.
  - reflexivity.
  - reflexivity.
Qed.

(** ** Escaped hashtags *)

Module EscapedHashtagsFacts.
Import EscapedHashtags.

(** The fixtures of [tests/escapedHashtags.js], default transform and
    [transformToProperty], against the model. *)
Lemma transform_fixtures :
  Forall (fun '(input, outputNoTransform, outputToProp) =>
            transform wordSuffix input (fun hashtag => hashtag) = outputNoTransform
            ∧ transform wordSuffix input transformToProperty = outputToProp)
    [ ("`#case/type/prop`", "#case/type/prop", "prop");
      ("`#case/type/prop`- 1", "#case/type/prop - 1", "prop - 1");
      ("(`#case/type/prop`)", "(#case/type/prop)", "(prop)");
      ("(`#case/type/prop`", "(#case/type/prop", "(prop");
      ("`#case/type/prop` = `#case/type/prop2`",
       "#case/type/prop = #case/type/prop2", "prop = prop2");
      ("``", "`", "`");
      ("🍊you glad I didn't use 🍌`", "🍊you glad I didn't use 🍌`",
       "🍊you glad I didn't use 🍌`");
      ("`🍠", "`🍠", "`🍠");
      ("`#case/type/prop` = `", "#case/type/prop = `", "prop = `");
      ("`#case/type/prop` = ``", "#case/type/prop = `", "prop = `");
      ("`#case/prop1``#case/prop2` = ``", "#case/prop1#case/prop2 = `", "prop1prop2 = `");
      ("``#case/type/``prop` = ``", "`#case/type/`prop = `", "`#case/type/`prop = `") ].
Proof. repeat constructor. Qed.

Lemma has_delimiter_app a b :
  has_delimiter (a +:+ b) = has_delimiter a || has_delimiter b.
Proof.
  induction a as [|c a IH]; [done|].
  change (Ascii.eqb c DELIMITER || has_delimiter (a +:+ b)
          = Ascii.eqb c DELIMITER || has_delimiter a || has_delimiter b).
  rewrite IH. by rewrite orb_assoc.
Qed.

Lemma append_snoc t c s : (t +:+ String c "") +:+ s = t +:+ String c s.
Proof.
  induction t as [|d t IH]; [done|].
  change (String d ((t +:+ String c "") +:+ s) = String d (t +:+ String c s)).
  by f_equal.
Qed.

Lemma append_empty t : t +:+ "" = t.
Proof.
  induction t as [|d t IH]; [done|].
  change (String d (t +:+ "") = String d t). by f_equal.
Qed.

Lemma append_cons c a b : String c a +:+ b = String c (a +:+ b).
Proof. reflexivity. Qed.

Lemma raw_text_app ts1 ts2 : raw_text (ts1 ++ ts2) = raw_text ts1 +:+ raw_text ts2.
Proof.
  induction ts1 as [|t ts1 IH]; [done|].
  unfold raw_text in *. simpl. rewrite IH.
  generalize (raw t). intros r. induction r as [|c r IHr]; [done|].
  rewrite !append_cons. by f_equal.
Qed.

Lemma raw_text_flush t : raw_text (flush t) = t.
Proof.
  unfold flush. destruct (String.eqb_spec t ""); [by subst|].
  unfold raw_text. simpl. apply append_empty.
Qed.

Lemma scan_lossless s m : raw_text (scan s m) = consumed m +:+ s.
Proof.
  revert m. induction s as [|c s IH]; intros m.
  - destruct m as [t| |t]; simpl.
    + by rewrite raw_text_flush, append_empty.
    + reflexivity.
    + unfold raw_text. simpl. reflexivity.
  - destruct m as [t| |t]; simpl; destruct (Ascii.eqb_spec c DELIMITER) as [->|Hc].
    + rewrite raw_text_app, raw_text_flush, IH. reflexivity.
    + rewrite IH. simpl. apply append_snoc.
    + unfold raw_text at 1. simpl. fold (raw_text (scan s (Outside ""))).
      rewrite IH. reflexivity.
    + rewrite IH. reflexivity.
    + unfold raw_text at 1. simpl. fold (raw_text (scan s (Outside ""))).
      rewrite IH. simpl. rewrite !append_cons. f_equal. apply append_snoc.
    + rewrite IH. simpl. rewrite !append_cons. f_equal. apply append_snoc.
Qed.

(** The tokens partition the input: their raw texts, put together, are the
    input. *)
Lemma tokenize_lossless s : raw_text (tokenize s) = s.
Proof. unfold tokenize. by rewrite scan_lossless. Qed.

Lemma render_flush suffix map_fn t : render suffix map_fn (flush t) = t.
Proof.
  unfold flush. destruct (String.eqb_spec t ""); [by subst|]. simpl. apply append_empty.
Qed.

Lemma scan_no_delimiter s t :
  has_delimiter s = false → scan s (Outside t) = flush (t +:+ s).
Proof.
  revert t. induction s as [|c s IH]; intros t; simpl.
  - by rewrite append_empty.
  - intros [Hc Hs]%orb_false_iff. rewrite Hc, IH by done. by rewrite append_snoc.
Qed.

(** A string without a backtick comes back as it is, whatever the
    transform. *)
Lemma transform_no_delimiter suffix s map_fn :
  has_delimiter s = false → transform suffix s map_fn = s.
Proof.
  intros H. unfold transform, tokenize. rewrite scan_no_delimiter by done.
  apply render_flush.
Qed.

Lemma flush_clean t : has_delimiter t = false → Forall clean_token (flush t).
Proof. intros H. unfold flush. destruct (String.eqb t ""); repeat constructor. done. Qed.

Lemma scan_clean s m : clean_mode m → Forall clean_token (scan s m).
Proof.
  revert m. induction s as [|c s IH]; intros m Hm.
  - destruct m; simpl; [by apply flush_clean|repeat constructor..].
  - destruct m as [t| |t]; simpl; destruct (Ascii.eqb c DELIMITER) eqn:Hc.
    + apply Forall_app. split; [by apply flush_clean|by apply IH].
    + apply IH. simpl. rewrite has_delimiter_app. simpl in *. by rewrite Hm, Hc.
    + constructor; [done|by apply IH].
    + apply IH. simpl. by rewrite Hc.
    + constructor; [done|by apply IH].
    + apply IH. simpl. rewrite has_delimiter_app. simpl in *. by rewrite Hm, Hc.
Qed.

Lemma render_clean suffix map_fn ts :
  (∀ c, has_delimiter c = false → has_delimiter (map_fn c) = false) →
  Forall clean_token ts →
  forallb (fun t => match t with Literal _ | Hashtag _ => true | _ => false end) ts = true →
  has_delimiter (render suffix map_fn ts) = false.
Proof.
  intros Hf Hclean. induction Hclean as [|t ts Ht _ IH]; [done|].
  simpl. intros [Hk Hrest]%andb_true_iff. specialize (IH Hrest).
  destruct t as [text|content|content|]; try done; simpl in *.
  - by rewrite has_delimiter_app, Ht, IH.
  - rewrite !has_delimiter_app, Hf, IH by done. by destruct (before_suffix suffix ts).
Qed.

Lemma lastSegment_clean s acc :
  has_delimiter s = false → has_delimiter acc = false →
  has_delimiter (lastSegment s acc) = false.
Proof.
  revert acc. induction s as [|c s IH]; intros acc; [done|]. simpl.
  intros [Hc Hs]%orb_false_iff Hacc.
  destruct (Ascii.eqb c "/"); apply IH; try done.
  rewrite has_delimiter_app. simpl. by rewrite Hacc, Hc.
Qed.

Lemma balanced_filled ts :
  forallb (fun t => match t with Unterminated _ => false | _ => true end) ts = true →
  forallb (fun t => match t with Doubled => false | _ => true end) ts = true →
  forallb (fun t => match t with Literal _ | Hashtag _ => true | _ => false end) ts = true.
Proof.
  induction ts as [|t ts IH]; [done|]. simpl.
  intros [H1 H1']%andb_true_iff [H2 H2']%andb_true_iff.
  rewrite (IH H1' H2'). by destruct t.
Qed.

(** C8, as the model has it: on a string with balanced backtick pairs none
    of which is empty, and for a transform that puts no backtick into its
    results, the first pass drops every delimiter, so a second pass finds
    no hashtag to rewrite and returns its input:
    [transform(transform(s, f), g) = transform(s, f)]. *)
Theorem second_transform_is_the_identity suffix s f g :
  balanced s = true →
  filled s = true →
  (∀ c, has_delimiter c = false → has_delimiter (f c) = false) →
  has_delimiter (transform suffix s f) = false
  ∧ transform suffix (transform suffix s f) g = transform suffix s f.
Proof.
  intros Hb Hn Hf.
  assert (has_delimiter (transform suffix s f) = false) as Hclean.
  { unfold transform. apply render_clean; [done| |by apply balanced_filled].
    unfold tokenize. by apply scan_clean. }
  split; [done|]. by apply transform_no_delimiter.
Qed.

Lemma second_transform_is_the_identity_witness :
  balanced "`#case/type/prop`- 1" = true
  ∧ filled "`#case/type/prop`- 1" = true
  ∧ transform wordSuffix
      (transform wordSuffix "`#case/type/prop`- 1" transformToProperty)
      (fun _ => "x")
    = "prop - 1".
Proof.
  split; [reflexivity|]. split; [reflexivity|].
  destruct (second_transform_is_the_identity wordSuffix "`#case/type/prop`- 1"
              transformToProperty (fun _ => "x")) as [_ ->].
  - reflexivity.
  - reflexivity.
  - intros c Hc. by apply lastSegment_clean.
  - reflexivity.
Defined.

(** Where a pair is empty the first pass leaves a backtick for it, and the
    second pass can find a hashtag between two of them. *)
Lemma empty_pairs_leave_backticks :
  balanced "``a``" = true
  ∧ filled "``a``" = false
  ∧ transform wordSuffix "``a``" (fun hashtag => hashtag) = "`a`"
  ∧ transform wordSuffix (transform wordSuffix "``a``" (fun hashtag => hashtag))
      (fun _ => "x")
    = "x".
Proof. repeat split. Qed.

(** C8 as stated fails on the first fixture of the test suite: the default
    transform turns [`#case/type/prop`] into [#case/type/prop], which
    [transformToProperty] then has nothing to rewrite in; composed, the two
    give [prop]. *)
Lemma transform_composition_fails :
  balanced "`#case/type/prop`" = true
  ∧ transform wordSuffix
      (transform wordSuffix "`#case/type/prop`" (fun hashtag => hashtag))
      transformToProperty
    = "#case/type/prop"
  ∧ transform wordSuffix "`#case/type/prop`"
      (fun hashtag => transformToProperty ((fun hashtag => hashtag) hashtag))
    = "prop".
Proof. repeat split. Qed.
End EscapedHashtagsFacts.

(** * More of the builder and of the compiler *)

(** ** A null among the nodes *)

Section Null.
Variable invalidCaseProperties : list string.
Variable sources : gmap string Item.t.

Lemma each_null rec seen nodes h r :
  None ∈ nodes → each invalidCaseProperties sources rec seen nodes h ≠ Js.Ok r.
Proof.
  revert seen h. induction nodes as [|[n|] rest IH]; intros seen h Hin; simpl.
  - by apply elem_of_nil in Hin.
  - apply elem_of_cons in Hin as [Hin|Hin]; [done|].
    destruct (recursive n); [by apply IH|].
    destruct (expand _ _ seen n) as [children seen1].
    destruct (rec seen1 children (record n h)) as [[h2 seen2]| |]; [by apply IH|done..].
  - done.
Qed.

Lemma walk_null fuel seen nodes h r :
  None ∈ nodes → walk invalidCaseProperties sources fuel seen nodes h ≠ Js.Ok r.
Proof. destruct fuel; [done|]. apply each_null. Qed.

Lemma getNodes_excluded_relation seen source path info relation subset :
  (relation, subset) ∈ relations_of source →
  relation ∈ invalidCaseProperties →
  None ∈ (getNodes invalidCaseProperties sources seen source path info).1.
Proof.
  intros Hin Hex. unfold getNodes.
  destruct (map_seen _ seen _) as [mapped seen1].
  unfold relations_of in Hin.
  destruct (source ≫= Item.related) as [rel|]; [|by apply elem_of_nil in Hin].
  simpl in Hin.
  match goal with |- context [map_seen ?f seen1 rel] =>
    destruct (map_seen_lookup f seen1 rel (relation, subset) Hin) as [sn Hsn]
  end.
  destruct (map_seen _ seen1 rel) as [relnodes seen2]. simpl in *.
  rewrite node_excluded in Hsn by done. simpl in Hsn.
  rewrite !sortBy_text. apply elem_of_app. by left.
Qed.

(** A node that is not marked recursive and whose source has a relation
    named by an invalid case property cannot be walked: the relation's node
    is [null], and the walk throws on it (or on an earlier one). *)
Lemma walk_stops_at_a_null_relation fuel seen nodes h n relation subset r :
  Some n ∈ nodes →
  recursive n = false →
  (relation, subset) ∈ relations_of (thunk_source n) →
  relation ∈ invalidCaseProperties →
  walk invalidCaseProperties sources fuel seen nodes h ≠ Js.Ok r.
Proof.
  intros Hn Hrec Hrel Hex. destruct fuel as [|fuel]; [done|]. simpl.
  revert seen h. induction nodes as [|[m|] rest IH]; intros seen h; simpl.
  - by apply elem_of_nil in Hn.
  - apply elem_of_cons in Hn as [[= <-]|Hn].
    + rewrite Hrec. unfold expand.
      pose proof (getNodes_excluded_relation seen (thunk_source n) (thunk_path n)
                    (thunk_info n) relation subset Hrel Hex) as Hnull.
      destruct (getNodes _ _ seen _ _ _) as [children seen1]. simpl in Hnull.
      pose proof (walk_null fuel seen1 children (record n h)) as Hw.
      destruct (walk _ _ fuel seen1 children (record n h)) as [[h2 seen2]| |];
        [|done..].
      exfalso. by eapply Hw.
    + destruct (recursive m); [by apply IH|].
      destruct (expand _ _ seen m) as [children seen1].
      destruct (walk _ _ fuel seen1 children (record m h)) as [[h2 seen2]| |];
        [by apply IH|done..].
  - done.
Qed.
End Null.

(** X1: a node that is not marked recursive and whose source has a relation
    named by an invalid case property cannot be walked: the relation's
    member of the list of children is [null], and [walk] does not return
    once such a node is in a list it is given.  When the node is among those
    [builders.dataNodes] returns, [builders.hashtags] throws, provided no
    source or subset has the id [__proto__] (a cycle through such a source
    can keep the walk from ever reaching the node). *)
Theorem excluded_relation_stops_the_walk invalidCaseProperties l fuel n relation subset :
  recursive n = false →
  (relation, subset) ∈ relations_of (thunk_source n) →
  relation ∈ invalidCaseProperties →
  (∀ sources seen nodes h r,
     Some n ∈ nodes → walk invalidCaseProperties sources fuel seen nodes h ≠ Js.Ok r)
  ∧ (∀ sources nodes seen,
       dataNodes invalidCaseProperties (Some l) = Js.Ok (Some (sources, nodes, seen)) →
       Some n ∈ nodes → storable (Underscore.indexBy_id l) → (walk_fuel l ≤ fuel)%nat →
       hashtags fuel invalidCaseProperties (Some l) = Js.TypeError).
Proof.
  intros Hrec Hrel Hex. split.
  - intros sources seen nodes h r Hn.
    by eapply walk_stops_at_a_null_relation.
  - intros sources nodes seen Hd Hn Hst Hfuel.
    pose proof (hashtags_terminates invalidCaseProperties l fuel Hst Hfuel) as Hterm.
    unfold hashtags in *. rewrite Hd in *.
    pose proof (walk_stops_at_a_null_relation invalidCaseProperties sources fuel seen nodes
                  Hashtags.empty n relation subset) as Hw.
    destruct (walk _ _ fuel seen nodes Hashtags.empty) as [[h s]| |]; [|done..].
    exfalso. by eapply Hw.
Qed.

Lemma excluded_relation_stops_the_walk_witness :
  (∀ r, walk ["parent"] ∅ 4 ∅ [Some Samples.mother_node] Hashtags.empty ≠ Js.Ok r)
  ∧ hashtags 16 ["parent"] (Some Samples.with_relation) = Js.TypeError.
Proof.
  split; [|vm_compute; reflexivity].
  intros r.
  apply (proj1 (excluded_relation_stops_the_walk ["parent"] [] 4 Samples.mother_node
                  "parent" "mother" eq_refl ltac:(left) ltac:(left))).
  left.
Defined.

(** ** Paths and hashtags of the nodes below the root *)

Lemma append_nonempty_l a b : a ≠ "" → a +:+ b ≠ "".
Proof. destruct a as [|c a]; [done|]. intros _. by change (String c (a +:+ b) ≠ ""). Qed.

Lemma append_nonempty_r a b : b ≠ "" → a +:+ b ≠ "".
Proof.
  intros Hb. destruct a as [|c a]; [done|]. by change (String c (a +:+ b) ≠ "").
Qed.

Lemma append_cancel_l a b c : a +:+ b = a +:+ c → b = c.
Proof.
  induction a as [|x a IH]; [done|].
  change (String x (a +:+ b) = String x (a +:+ c) → b = c).
  intros [= H]. by apply IH.
Qed.

Lemma child_path_inj pp id id' : child_path pp id = child_path pp id' → id = id'.
Proof.
  unfold child_path. destruct (Js.truthy pp); [|done].
  intros H. by do 2 apply append_cancel_l in H.
Qed.

(** ** What holds of a node's children given what holds of the node *)

Section Inherit.
Variable invalidCaseProperties : list string.
Variable sources : gmap string Item.t.

Lemma walk_trace_inherits (P : DataNode → Prop) :
  (∀ seen n, P n → recursive n = false →
     all_nodes P (expand invalidCaseProperties sources seen n).1) →
  ∀ fuel seen nodes visited expanded seen',
    all_nodes P nodes →
    walk_trace invalidCaseProperties sources fuel seen nodes
    = Js.Ok (visited, expanded, seen') →
    Forall P visited.
Proof.
  intros HP fuel. induction fuel as [|fuel IHf]; [done|].
  intros seen nodes. revert seen. simpl.
  induction nodes as [|[n|] rest IH]; intros seen visited expanded seen' Hall; simpl.
  - intros [= <- <- <-]. constructor.
  - apply Forall_cons in Hall as [Hn Hrest]. specialize (Hn n eq_refl).
    destruct (recursive n) eqn:Hrec.
    + destruct (each_trace _ _ _ seen rest) as [[[v e] s]| |] eqn:E; [|done..].
      intros [= <- <- <-]. constructor; [done|]. by eapply IH.
    + pose proof (HP seen n Hn Hrec) as Hch.
      destruct (expand _ _ seen n) as [children seen1]. simpl in Hch.
      destruct (walk_trace _ _ fuel seen1 children) as [[[v1 e1] seen2]| |] eqn:E1;
        [|done..].
      destruct (each_trace _ _ _ seen2 rest) as [[[v2 e2] s]| |] eqn:E2; [|done..].
      intros [= <- <- <-].
      constructor; [done|]. apply Forall_app. split; [by eapply IHf|by eapply IH].
  - done.
Qed.

Lemma getTree_path_nonempty seen item id path info :
  path ≠ "" → tree_path (getTree sources seen item id path info).1 ≠ "".
Proof.
  intros Hp. unfold getTree.
  destruct (Item.structure item); [done|].
  destruct (Item.reference item) as [ref|]; [|done].
  destruct (Object.get sources _) as [[source0 fields]|]; [|done].
  case_bool_decide; simpl; by apply append_nonempty_l.
Qed.

Lemma node_rooted source pp info idx seen item id n :
  pp ≠ None → pp ≠ Some "" →
  (node invalidCaseProperties sources source pp info idx seen item id).1 = Some n →
  rooted invalidCaseProperties n.
Proof.
  intros Hp1 Hp2 Hn.
  destruct (decide (id ∈ invalidCaseProperties)) as [Hin|Hin];
    [by rewrite node_excluded in Hn|].
  pose proof (node_hashtag _ _ _ _ _ _ _ _ _ _ Hn) as Htag.
  destruct (node_included invalidCaseProperties sources source pp info idx seen item id Hin)
    as (n' & Hnode & Hx & Hpp & _ & _ & _ & _ & _ & Hpath & _).
  rewrite Hnode in Hn. simpl in Hn. injection Hn as ->.
  assert (Js.truthy pp = true) as Htr.
  { destruct pp as [p|]; [|done]. simpl. destruct (String.eqb_spec p ""); [by subst|done]. }
  assert (child_path pp id ≠ "") as Hne.
  { unfold child_path. rewrite Htr. destruct pp as [p|]; [|done]. simpl.
    apply append_nonempty_l. congruence. }
  split; [rewrite Hpath; by apply getTree_path_nonempty|].
  split; [by rewrite Hpp|].
  exists id. split; [done|]. split; [by rewrite Hx, Hpp|done].
Qed.

(** Whatever holds of everything [node] returns for the two parent paths
    [getNodes] uses holds of every member of the list it returns. *)
Lemma getNodes_all_at (P : option DataNode → Prop) seen source path info :
  (∀ pp idx sn item id,
     pp = Some path ∨ pp = Some (path +:+ "/index") →
     P (node invalidCaseProperties sources source pp info idx sn item id).1) →
  Forall P (getNodes invalidCaseProperties sources seen source path info).1.
Proof.
  intros HP. unfold getNodes.
  match goal with |- context [map_seen ?f seen ?l] =>
    pose proof (map_seen_Forall P f seen l) as Hstr
  end.
  destruct (map_seen _ seen _) as [mapped seen1]. simpl in Hstr.
  rewrite sortBy_text.
  assert (Forall P (Underscore.compact mapped)) as Hc.
  { apply compact_Forall, Hstr. intros sn [id item]. apply HP. by left. }
  destruct (source ≫= Item.related) as [rel|]; [|done].
  match goal with |- context [map_seen ?f seen1 rel] =>
    pose proof (map_seen_Forall P f seen1 rel) as Hrel
  end.
  destruct (map_seen _ seen1 rel) as [relnodes seen2]. simpl in *.
  rewrite sortBy_text. apply Forall_app. split; [|done].
  apply Hrel. intros sn [relation subset]. apply HP. by right.
Qed.

Lemma getNodes_rooted seen source path info :
  path ≠ "" →
  all_nodes (rooted invalidCaseProperties)
            (getNodes invalidCaseProperties sources seen source path info).1.
Proof.
  intros Hp. apply getNodes_all_at. intros pp idx sn item id Hpp n Hn.
  apply (node_rooted source pp info idx sn item id n); [by destruct Hpp as [->| ->]| |done].
  destruct Hpp as [->| ->]; [congruence|].
  intros [= H]. by apply (append_nonempty_r path "/index") in H.
Qed.
End Inherit.

(** The nodes [builders.dataNodes] returns. *)
Lemma dataNodes_rooted invalidCaseProperties l sources nodes seen :
  dataNodes invalidCaseProperties (Some l) = Js.Ok (Some (sources, nodes, seen)) →
  sources = Underscore.indexBy_id l ∧ all_nodes (rooted invalidCaseProperties) nodes.
Proof.
  unfold dataNodes. destruct (_ !! "commcaresession") as [source|]; [|done].
  destruct (node _ _ _ _ _ _ _ _ _) as [[root|] seen0] eqn:Hroot; [|done].
  assert (thunk_path root ≠ "") as Hp.
  { fold (root_path source) in Hroot.
    destruct (decide ((root_path source) ∈ invalidCaseProperties)) as [Hin|Hin];
      [by rewrite node_excluded in Hroot|].
    destruct (node_included invalidCaseProperties (Underscore.indexBy_id l) (Some source)
                None (mkInfo (Item.omit_structure source) None) false ∅ source
                (root_path source) Hin) as (n' & Hnode & _ & _ & _ & _ & _ & _ & _ & Hpath & _).
    rewrite Hnode in Hroot. injection Hroot as -> _.
    rewrite Hpath. apply getTree_path_nonempty. unfold child_path, root_path. simpl.
    by apply append_nonempty_l. }
  unfold expand.
  pose proof (getNodes_rooted invalidCaseProperties (Underscore.indexBy_id l) seen0
                (thunk_source root) (thunk_path root) (thunk_info root) Hp) as Hall.
  destruct (getNodes _ _ seen0 _ _ _) as [ns sn]. by intros [= <- <- <-].
Qed.

Lemma hashtags_trace_rooted invalidCaseProperties l fuel visited expanded seen' :
  hashtags_trace fuel invalidCaseProperties (Some l) = Js.Ok (visited, expanded, seen') →
  Forall (rooted invalidCaseProperties) visited.
Proof.
  unfold hashtags_trace.
  destruct (dataNodes invalidCaseProperties (Some l))
    as [[[[sources nodes] seen]|]| |] eqn:Hd; try done; [|by intros [= <- <- <-]].
  apply dataNodes_rooted in Hd as [-> Hnodes]. intros Ht.
  eapply walk_trace_inherits; [|exact Hnodes|exact Ht].
  intros sn n (Hn & _) _. by apply getNodes_rooted.
Qed.

(** X2: no node of the tree the compiler walks stands for an invalid case
    property: whenever the walk returns, no visited node has as its xpath
    the path of an invalid case property below the node's parent path. *)
Theorem invalid_case_properties_have_no_node invalidCaseProperties l fuel
    visited expanded seen' :
  hashtags_trace fuel invalidCaseProperties (Some l) = Js.Ok (visited, expanded, seen') →
  ∀ n id, n ∈ visited → id ∈ invalidCaseProperties →
          xpath n ≠ Js.str_null (parentPath n) +:+ "/" +:+ id.
Proof.
  intros Ht n id Hn Hid Hx.
  pose proof (hashtags_trace_rooted _ _ _ _ _ _ Ht) as Hall.
  eapply Forall_forall in Hall as (_ & Htr & id' & Hid' & Hx' & _); [|exact Hn].
  rewrite Hx in Hx'. unfold child_path in Hx'. rewrite Htr in Hx'.
  do 2 apply append_cancel_l in Hx'. by subst.
Qed.

Lemma invalid_case_properties_have_no_node_witness :
  ∃ visited expanded seen',
    hashtags_trace 16 ["name"] (Some Samples.cyclic) = Js.Ok (visited, expanded, seen')
    ∧ ∀ n, n ∈ visited → xpath n ≠ Js.str_null (parentPath n) +:+ "/" +:+ "name".
Proof.
  assert (∃ visited expanded seen',
            hashtags_trace 16 ["name"] (Some Samples.cyclic)
            = Js.Ok (visited, expanded, seen')) as (visited & expanded & seen' & Ht)
    by (eexists _, _, _; vm_compute; reflexivity).
  exists visited, expanded, seen'. split; [exact Ht|].
  intros n Hn.
  apply (invalid_case_properties_have_no_node ["name"] Samples.cyclic 16
           visited expanded seen' Ht n "name" Hn).
  left.
Defined.

Lemma foldl_assign_transforms_preserved ns h k :
  is_Some (Hashtags.transforms h !! k) →
  is_Some (Hashtags.transforms (foldl assign h ns) !! k).
Proof.
  revert h. induction ns as [|n ns IH]; intros h Hk; [done|].
  simpl. apply IH. unfold assign. simpl.
  destruct (decide (Js.str_null (hashtagPrefix n) = k)) as [<-|Hne].
  - rewrite lookup_insert_eq. eauto.
  - by rewrite lookup_insert_ne.
Qed.

Lemma foldl_assign_transforms_member ns h n :
  n ∈ ns →
  is_Some (Hashtags.transforms (foldl assign h ns) !! Js.str_null (hashtagPrefix n)).
Proof.
  revert h. induction ns as [|m ns IH]; intros h Hin; [by apply elem_of_nil in Hin|].
  simpl. apply elem_of_cons in Hin as [<-|Hin]; [|by apply IH].
  apply foldl_assign_transforms_preserved. unfold assign. simpl.
  rewrite lookup_insert_eq. eauto.
Qed.

(** X3: every entry of the compiled map agrees with the transform of the
    node that wrote it: the key is the node's prefix, which begins with
    [#case/] and has a transform stored under it, followed by a property
    name that is not an invalid case property, and the value is what the
    node's transform makes of that property name. *)
Theorem mapped_xpath_is_the_transform_of_its_property invalidCaseProperties l fuel h :
  hashtags fuel invalidCaseProperties (Some l) = Js.Ok (Some h) →
  ∀ t x, Hashtags.map h !! t = Some x →
    ∃ visited expanded seen' n p id,
      hashtags_trace fuel invalidCaseProperties (Some l) = Js.Ok (visited, expanded, seen')
      ∧ n ∈ visited
      ∧ hashtagPrefix n = Some ("#case/" +:+ p)
      ∧ t = ("#case/" +:+ p) +:+ id
      ∧ x = Hashtags.call n id
      ∧ (id ∉ invalidCaseProperties)
      ∧ is_Some (Hashtags.transforms h !! ("#case/" +:+ p)).
Proof.
  intros H t x Hl.
  destruct (hashtags_fill _ _ _ _ H) as (visited & expanded & seen' & Ht & Hv & -> & _ & _).
  apply foldl_assign_map_lookup in Hl as [Hl|(n & Hn & Hk & Hx)];
    [by (unfold Hashtags.empty in Hl; simpl in Hl; rewrite lookup_empty in Hl)|].
  pose proof (foldl_assign_transforms_member _ Hashtags.empty n Hn) as Htr'.
  apply list_elem_of_filter in Hn as [Hs Hn].
  pose proof (hashtags_trace_rooted _ _ _ _ _ _ Ht) as Hall.
  eapply Forall_forall in Hall as (_ & Htr & id & Hid & Hxp & Htag); [|exact Hn].
  unfold selected in Hs. apply andb_true_iff in Hs as [Hh _].
  apply bool_decide_eq_true in Hh.
  destruct Htag as [[Hnone _]|(p & Hp & Hht)]; [done|].
  exists visited, expanded, seen', n, p, id.
  rewrite Hht in Hk. simpl in Hk. rewrite Hp in Htr'. simpl in Htr'.
  repeat split; try done.
  rewrite <- Hx, Hxp. unfold child_path, Hashtags.call. by rewrite Htr.
Qed.

Lemma mapped_xpath_is_the_transform_of_its_property_witness :
  ∃ h x n p id,
    hashtags 16 [] (Some Samples.cyclic) = Js.Ok (Some h)
    ∧ Hashtags.map h !! "#case/A/name" = Some x
    ∧ "#case/A/name" = ("#case/" +:+ p) +:+ id
    ∧ x = Hashtags.call n id.
Proof.
  assert (∃ h x, hashtags 16 [] (Some Samples.cyclic) = Js.Ok (Some h)
                 ∧ Hashtags.map h !! "#case/A/name" = Some x) as (h & x & Hh & Hl)
    by (eexists _, _; split; vm_compute; reflexivity).
  destruct (mapped_xpath_is_the_transform_of_its_property [] Samples.cyclic 16 h Hh
              "#case/A/name" x Hl)
    as (visited & expanded & seen' & n & p & id & _ & _ & _ & Ht & Hx & _ & _).
  exists h, x, n, p, id. split; [exact Hh|]. split; [exact Hl|]. split; [exact Ht|exact Hx].
Defined.

(** ** Every source is unfolded once *)

Lemma claims_app l1 l2 : claims (l1 ++ l2) = claims l1 ++ claims l2.
Proof. unfold claims. by rewrite omap_app, filter_app, fmap_app. Qed.

Lemma claims_cons on l : claims (on :: l) = claims [on] ++ claims l.
Proof. apply (claims_app [on] l). Qed.

Lemma claims_compact l : claims (Underscore.compact l) = claims l.
Proof.
  unfold claims. f_equal. f_equal.
  induction l as [|[n|] l IH]; [done| |done].
  change (omap id (Some n :: Underscore.compact l) = omap id (Some n :: l)).
  change (n :: omap id (Underscore.compact l) = n :: omap id l). by rewrite IH.
Qed.

Lemma fresh_nil seen : fresh seen seen [].
Proof. split; [constructor|]. split; [by intros k ?%elem_of_nil|set_solver]. Qed.

Lemma fresh_app seen seen1 seen2 k1 k2 :
  fresh seen seen1 k1 → fresh seen1 seen2 k2 → fresh seen seen2 (k1 ++ k2).
Proof.
  intros (Hd1 & Hn1 & ->) (Hd2 & Hn2 & ->). split; [|split].
  - apply NoDup_app. split; [done|]. split; [|done].
    intros k Hk1 Hk2. apply (Hn2 k Hk2). set_solver.
  - intros k [Hk|Hk]%elem_of_app; [by apply Hn1|].
    intros Hs. apply (Hn2 k Hk). set_solver.
  - rewrite list_to_set_app_L. set_solver.
Qed.

Lemma fresh_perm seen seen' k1 k2 : k1 ≡ₚ k2 → fresh seen seen' k1 → fresh seen seen' k2.
Proof.
  intros Hp (Hd & Hn & ->). split; [by rewrite <- Hp|]. split.
  - intros k Hk. apply Hn. by rewrite Hp.
  - apply set_eq. intros x. rewrite !elem_of_union, !elem_of_list_to_set. by rewrite Hp.
Qed.

Lemma fresh_subseteq seen seen' ks : fresh seen seen' ks → seen ⊆ seen'.
Proof. intros (_ & _ & ->). set_solver. Qed.

Lemma fresh_elem seen seen' ks k : fresh seen seen' ks → k ∈ ks → k ∈ seen'.
Proof. intros (_ & _ & ->) Hk. set_solver. Qed.

Section Once.
Variable invalidCaseProperties : list string.
Variable sources : gmap string Item.t.
Hypothesis sources_storable : storable sources.

Lemma getTree_fresh seen item id path info :
  let t := getTree sources seen item id path info in
  (tree_info t.1 = info ∧ t.2 = seen)
  ∨ (∃ s0, tree_info t.1 = mkInfo s0 (Some info)
           ∧ tree_recursive t.1 = true ∧ t.2 = seen)
  ∨ (∃ s0 src, tree_info t.1 = mkInfo s0 (Some info)
               ∧ tree_recursive t.1 = false ∧ tree_source t.1 = Some src
               ∧ (Js.str (Item.id src) ∉ seen)
               ∧ t.2 = {[Js.str (Item.id src)]} ∪ seen).
Proof.
  unfold getTree.
  destruct (Item.structure item) as [st|]; [by left|].
  destruct (Item.reference item) as [ref|]; [|by left].
  destruct (Object.get sources _) as [[source0 fields]|] eqn:Hsrc; [|by left].
  match goal with |- context [bool_decide (Js.str (Item.id ?t) ∈ seen)] =>
    assert (Js.str (Item.id t) ≠ "__proto__") as Hne
  end.
  { intros Heq. apply sources_storable. rewrite <- Heq.
    apply candidates_universe. eapply selection_candidate. exact Hsrc. }
  rewrite (Object_set_other _ _ Hne).
  case_bool_decide as Hin; simpl.
  - right. left. eauto.
  - right. right. eauto 10.
Qed.

Lemma claims_singleton n : claims [Some n] = if unfolds n then [target n] else [].
Proof.
  unfold claims. simpl. rewrite filter_cons, filter_nil.
  destruct (unfolds n); [by rewrite decide_True|by rewrite decide_False].
Qed.

Lemma node_fresh source pp info idx seen item id :
  fresh seen (node invalidCaseProperties sources source pp info idx seen item id).2
        (claims [(node invalidCaseProperties sources source pp info idx seen item id).1]).
Proof.
  destruct (decide (id ∈ invalidCaseProperties)) as [Hin|Hin];
    [rewrite node_excluded by done; apply fresh_nil|].
  destruct (node_included invalidCaseProperties sources source pp info idx seen item id Hin)
    as (n & -> & _ & _ & _ & Hi & _ & Hrec & Hsrc & _ & Hinfo).
  simpl. rewrite claims_singleton. unfold unfolds, resolves, target.
  rewrite Hi, Hinfo, Hrec, Hsrc.
  destruct (getTree_fresh seen item id (child_path pp id) info)
    as [[-> ->]|[(s0 & -> & -> & ->)|(s0 & src & -> & -> & -> & Hnew & ->)]].
  - rewrite (proj2 (Nat.eqb_neq _ _)) by lia. apply fresh_nil.
  - rewrite andb_false_r. apply fresh_nil.
  - simpl. rewrite Nat.eqb_refl. simpl.
    split; [apply NoDup_singleton|]. split.
    + by intros k ->%list_elem_of_singleton.
    + set_solver.
Qed.

Lemma map_seen_fresh {A} (f : gset string → A → option DataNode * gset string)
    seen (l : list A) :
  (∀ sn a, fresh sn (f sn a).2 (claims [(f sn a).1])) →
  fresh seen (map_seen f seen l).2 (claims (map_seen f seen l).1).
Proof.
  intros Hf. revert seen. induction l as [|a l IH]; intros seen; [apply fresh_nil|].
  simpl. pose proof (Hf seen a) as Ha. destruct (f seen a) as [b seen1].
  specialize (IH seen1). destruct (map_seen f seen1 l) as [bs seen2]. simpl in *.
  rewrite claims_cons. by eapply fresh_app.
Qed.

Lemma getNodes_fresh seen source path info :
  fresh seen (getNodes invalidCaseProperties sources seen source path info).2
        (claims (getNodes invalidCaseProperties sources seen source path info).1).
Proof.
  unfold getNodes.
  match goal with |- context [map_seen ?f seen ?l] =>
    pose proof (map_seen_fresh f seen l) as Hstr
  end.
  destruct (map_seen _ seen _) as [mapped seen1]. simpl in Hstr.
  rewrite sortBy_text.
  assert (fresh seen seen1 (claims (Underscore.compact mapped))) as Hc.
  { rewrite claims_compact. apply Hstr. intros sn [id item]. apply node_fresh. }
  destruct (source ≫= Item.related) as [rel|]; [|done].
  match goal with |- context [map_seen ?f seen1 rel] =>
    pose proof (map_seen_fresh f seen1 rel) as Hrel
  end.
  destruct (map_seen _ seen1 rel) as [relnodes seen2]. simpl in *.
  rewrite sortBy_text, claims_app.
  eapply fresh_perm; [apply Permutation_app_comm|].
  eapply fresh_app; [exact Hc|].
  apply Hrel. intros sn [relation subset]. apply node_fresh.
Qed.

(** The keys the visited nodes have added to [seen] are those of the nodes
    the walk started from and, beyond them, keys that were new. *)
Lemma walk_trace_fresh fuel :
  ∀ seen nodes visited expanded seen',
    walk_trace invalidCaseProperties sources fuel seen nodes
    = Js.Ok (visited, expanded, seen') →
    ∃ new, claims (Some <$> visited) ≡ₚ claims nodes ++ new ∧ fresh seen seen' new.
Proof.
  induction fuel as [|fuel IHf]; [done|].
  intros seen nodes. revert seen. simpl.
  induction nodes as [|[n|] rest IH]; intros seen visited expanded seen'; simpl.
  - intros [= <- <- <-]. exists []. split; [done|apply fresh_nil].
  - destruct (recursive n) eqn:Hrec.
    + destruct (each_trace _ _ _ seen rest) as [[[v e] s]| |] eqn:E; [|done..].
      intros [= <- <- <-]. destruct (IH _ _ _ _ E) as (new & Hp & Hf).
      exists new. split; [|done].
      rewrite fmap_cons, (claims_cons (Some n) (Some <$> v)), (claims_cons (Some n) rest).
      rewrite <- app_assoc. by rewrite Hp.
    + unfold expand.
      pose proof (getNodes_fresh seen (thunk_source n) (thunk_path n) (thunk_info n)) as Hch.
      destruct (getNodes _ _ seen _ _ _) as [children seen1]. simpl in Hch.
      destruct (walk_trace _ _ fuel seen1 children) as [[[v1 e1] seen2]| |] eqn:E1;
        [|done..].
      destruct (each_trace _ _ _ seen2 rest) as [[[v2 e2] s]| |] eqn:E2; [|done..].
      intros [= <- <- <-].
      destruct (IHf _ _ _ _ _ E1) as (new1 & Hp1 & Hf1).
      destruct (IH _ _ _ _ E2) as (new2 & Hp2 & Hf2).
      exists (claims children ++ new1 ++ new2). split.
      * rewrite fmap_cons, fmap_app.
        rewrite (claims_cons (Some n)), claims_app, (claims_cons (Some n) rest).
        rewrite Hp1, Hp2. solve_Permutation.
      * eapply fresh_app; [exact Hch|]. by eapply fresh_app.
  - done.
Qed.
End Once.

(** The record of the walk is there whenever [builders.hashtags] returns. *)
Lemma hashtags_trace_returns invalidCaseProperties l fuel o :
  hashtags fuel invalidCaseProperties (Some l) = Js.Ok o →
  ∃ visited expanded seen',
    hashtags_trace fuel invalidCaseProperties (Some l) = Js.Ok (visited, expanded, seen').
Proof.
  destruct o as [h|].
  - intros H. destruct (hashtags_fill _ _ _ _ H) as (v & e & s & Ht & _). eauto.
  - unfold hashtags, hashtags_trace.
    destruct (dataNodes invalidCaseProperties (Some l))
      as [[[[sources nodes] seen]|]| |]; try done; [|eauto].
    by destruct (walk _ _ fuel seen nodes Hashtags.empty) as [[h s]| |].
Qed.

(** X4: each source or subset is unfolded at most once in the whole tree: the
    visited nodes that resolved a reference and are not marked recursive
    have pairwise different targets, and every one of them is in [seen]
    when the walk returns; and without invalid case properties the walk
    does return.  This is so where no source or subset has the id
    [__proto__], which [seen] cannot keep, and, for the walk to return,
    none has the id [hasOwnProperty]. *)
Theorem each_source_is_unfolded_once invalidCaseProperties l fuel :
  storable (Underscore.indexBy_id l) →
  (∀ visited expanded seen',
     hashtags_trace fuel invalidCaseProperties (Some l) = Js.Ok (visited, expanded, seen') →
     NoDup (target <$> filter (fun n => unfolds n = true) visited)
     ∧ ∀ n, n ∈ visited → unfolds n = true → target n ∈ seen')
  ∧ (unshadowed (Underscore.indexBy_id l) → (walk_fuel l ≤ fuel)%nat →
     ∃ visited expanded seen',
       hashtags_trace fuel [] (Some l) = Js.Ok (visited, expanded, seen')).
Proof.
  intros Hst. split.
  2:{ intros Hun Hfuel. destruct (hashtags_returns l fuel Hst Hun Hfuel) as [o Ho].
      by eapply hashtags_trace_returns. }
  intros visited expanded seen'.
  unfold hashtags_trace.
  destruct (dataNodes invalidCaseProperties (Some l))
    as [[[[sources nodes] seen]|]| |] eqn:Hd; try done.
  2:{ intros [= <- <- <-]. split; [apply NoDup_nil_2|].
      intros n Hn. by apply elem_of_nil in Hn. }
  intros Ht.
  assert (sources = Underscore.indexBy_id l
          ∧ ∃ seen0, fresh seen0 seen (claims nodes)) as [-> [seen0 Hnodes]].
  { unfold dataNodes in Hd. destruct (_ !! "commcaresession") as [source|]; [|done].
    destruct (node _ _ _ _ _ _ _ _ _) as [[root|] seen0]; [|done].
    unfold expand in Hd.
    pose proof (getNodes_fresh invalidCaseProperties (Underscore.indexBy_id l) Hst seen0
                  (thunk_source root) (thunk_path root) (thunk_info root)) as Hf.
    destruct (getNodes _ _ seen0 _ _ _) as [ns sn]. injection Hd as <- <- <-. eauto. }
  destruct (walk_trace_fresh _ _ Hst _ _ _ _ _ _ Ht) as (new & Hp & Hnew).
  assert (claims (Some <$> visited) = target <$> filter (fun n => unfolds n = true) visited)
    as Hcl.
  { unfold claims. f_equal. f_equal. clear. induction visited as [|n v IH]; [done|].
    change (n :: omap id (Some <$> v) = n :: v). by rewrite IH. }
  rewrite Hcl in Hp. split.
  - rewrite Hp. apply NoDup_app. split; [apply Hnodes|]. split; [|apply Hnew].
    intros k Hk Hk'. destruct Hnew as (_ & Hn & _). apply (Hn k Hk').
    by eapply fresh_elem.
  - intros n Hn Hu.
    assert (target n ∈ claims nodes ++ new) as [Hin|Hin]%elem_of_app.
    { rewrite <- Hp. apply list_elem_of_fmap. exists n. split; [done|].
      by apply list_elem_of_filter. }
    + eapply fresh_subseteq; [exact Hnew|]. by eapply fresh_elem.
    + by eapply fresh_elem.
Qed.

Lemma each_source_is_unfolded_once_witness :
  ∃ visited expanded seen',
    hashtags_trace 16 [] (Some Samples.siblings) = Js.Ok (visited, expanded, seen')
    ∧ NoDup (target <$> filter (fun n => unfolds n = true) visited).
Proof.
  assert (storable (Underscore.indexBy_id Samples.siblings)) as Hst
    by (apply not_elem_of_computed; vm_compute; reflexivity).
  assert (unshadowed (Underscore.indexBy_id Samples.siblings)) as Hun
    by (apply not_elem_of_computed; vm_compute; reflexivity).
  destruct (proj2 (each_source_is_unfolded_once [] Samples.siblings 16 Hst) Hun)
    as (visited & expanded & seen' & Ht); [vm_compute; lia|].
  exists visited, expanded, seen'. split; [exact Ht|].
  exact (proj1 (proj1 (each_source_is_unfolded_once [] Samples.siblings 16 Hst)
                  visited expanded seen' Ht)).
Defined.

(** ** The children of a node, in order *)

Section Order.
Variable invalidCaseProperties : list string.
Variable sources : gmap string Item.t.


End Order.

(** * More of the loaders *)

(** ** Reading the sources *)

Module ReaderFacts.
Import Datasources.

Lemma call_pending that c :
  loading that = true → c_sources (cache that) = None →
  effects (call that c) = effects that
  ∧ loading (call that c) = true
  ∧ c_sources (cache (call that c)) = None.
Proof.
  intros Hl Hc. destruct c; simpl.
  - done.
  - unfold getDataSources, getValue_sources, builders_sources. by rewrite Hc, Hl.
  - unfold isReady, getValue_sources, builders_sources. by rewrite Hc, Hl.
Qed.

Lemma run_pending that calls :
  loading that = true → c_sources (cache that) = None →
  effects (run calls that) = effects that
  ∧ loading (run calls that) = true
  ∧ c_sources (cache (run calls that)) = None.
Proof.
  unfold run. revert that. induction calls as [|c calls IH]; intros that Hl Hc; [done|].
  simpl. destruct (call_pending that c Hl Hc) as (He & Hl' & Hc').
  destruct (IH _ Hl' Hc') as (-> & ? & ?). done.
Qed.

(** X6: while [loading] is set and no sources are cached, the loader sends
    nothing whatever is called on it: every read gets the default value,
    [isReady] is false, and [reset] changes nothing about that, since it
    leaves [loading] as it is.  That is so between a request and its answer,
    and also after a failure, the last one included: once the retries are
    used up, only the answer to a request still under way can make the
    loader ready. *)
Theorem pending_loader_sends_nothing that calls :
  loading that = true → c_sources (cache that) = None →
  effects (run calls that) = effects that
  ∧ (getDataSources (run calls that)).1 = None
  ∧ (isReady (run calls that)).1 = false
  ∧ loading (onError (run calls that)) = true
  ∧ c_sources (cache (onError (run calls that))) = None.
Proof.
  intros Hl Hc.
  destruct (run_pending that calls Hl Hc) as (He & Hl' & Hc').
  split; [done|].
  unfold getDataSources, isReady, getValue_sources, builders_sources.
  rewrite Hc', Hl'. simpl. rewrite Hc'. split; [done|]. split; [done|].
  unfold onError. simpl. by destruct (_ <? _)%Z.
Qed.

Lemma pending_loader_sends_nothing_witness :
  let that := onError (Nat.iter 4 fail_and_wait (init (Url "/sources") [])) in
  length (retries that) = 4
  ∧ effects (run [CallReset; CallGetDataSources; CallIsReady; CallGetDataSources] that)
    = effects that.
Proof.
  split; [reflexivity|].
  apply (pending_loader_sends_nothing
           (onError (Nat.iter 4 fail_and_wait (init (Url "/sources") [])))
           [CallReset; CallGetDataSources; CallIsReady; CallGetDataSources]);
    reflexivity.
Defined.

Lemma call_loaded that c v :
  c_sources (cache that) = Some v → c ≠ CallReset → call that c = that.
Proof.
  intros Hc Hr. destruct c; [done| |]; simpl.
  - unfold getDataSources, getValue_sources. by rewrite Hc.
  - unfold isReady, getValue_sources. by rewrite Hc.
Qed.

Lemma run_loaded that reads v :
  c_sources (cache that) = Some v → Forall (fun c => c ≠ CallReset) reads →
  run reads that = that.
Proof.
  intros Hc. unfold run. induction 1 as [|c reads Hr _ IH]; [done|].
  simpl. by rewrite (call_loaded that c v).
Qed.

(** X7: once a URL endpoint has answered, reads return the cached list, which
    is not empty, and change nothing; after [reset] the first read sends
    the request again, and whatever is called before the answer sends no
    other. *)
Theorem reset_makes_the_next_read_load_again that u data reads calls :
  endpoint that = Url u → u ≠ "" →
  Forall (fun c => c ≠ CallReset) reads →
  let loaded := run reads (finish data that) in
  loaded = finish data that
  ∧ (getDataSources loaded).1
    = Some (match data with [] => [placeholder] | _ => data end)
  ∧ (isReady loaded).1 = true
  ∧ effects (run (CallReset :: CallGetDataSources :: calls) loaded)
    = effects loaded ++ [Ajax u].
Proof.
  intros He Hu Hreads. simpl.
  assert (c_sources (cache (finish data that))
          = Some (match data with [] => [placeholder] | _ => data end)) as Hc
    by by destruct data.
  rewrite (run_loaded _ reads _ Hc Hreads).
  split; [done|].
  unfold getDataSources, isReady, getValue_sources. rewrite Hc. simpl.
  split; [done|]. split; [done|].
  change (run (CallReset :: CallGetDataSources :: calls) (finish data that))
    with (run calls (getDataSources (reset (finish data that))).2).
  unfold getDataSources, getValue_sources, builders_sources, loadDataSources. simpl.
  rewrite He. destruct (String.eqb_spec u ""); [done|]. simpl.
  match goal with |- effects (run calls ?t) = _ =>
    destruct (run_pending t calls eq_refl eq_refl) as (-> & _)
  end.
  done.
Qed.

Lemma reset_makes_the_next_read_load_again_witness :
  effects (run [CallGetDataSources; CallReset; CallGetDataSources; CallIsReady]
               (finish [] (init (Url "/sources") [])))
  = [Ajax "/sources"; Fire "change"; Ajax "/sources"].
Proof.
  destruct (reset_makes_the_next_read_load_again (init (Url "/sources") []) "/sources" []
              [CallGetDataSources] [CallIsReady] eq_refl) as (Hl & _ & _ & He).
  - done.
  - by repeat constructor.
  - exact He.
Defined.

(** X8: without an endpoint nothing is loaded until the first read, which
    loads the placeholder source at once: the read returns it, [isReady]
    is true, and [change] is fired once, by whichever of the two is called
    first; the reads after it change nothing. *)
Theorem missing_endpoint_loads_at_the_first_read that reads :
  endpoint that = Missing ∨ endpoint that = Url "" →
  loading that = false → c_sources (cache that) = None →
  Forall (fun c => c ≠ CallReset) reads →
  getDataSources that = (Some [placeholder], finish [] that)
  ∧ isReady that = (true, finish [] that)
  ∧ effects (finish [] that) = effects that ++ [Fire "change"]
  ∧ run reads (finish [] that) = finish [] that.
Proof.
  intros He Hl Hc Hreads.
  assert (loadDataSources that = finish [] that) as Hload
    by (unfold loadDataSources; by destruct He as [-> | ->]).
  unfold getDataSources, isReady, getValue_sources, builders_sources.
  rewrite Hc, Hl, Hload. simpl.
  split; [done|]. split; [done|]. split; [done|].
  by apply (run_loaded _ reads [placeholder]).
Qed.

Lemma missing_endpoint_loads_at_the_first_read_witness :
  effects (init Missing []) = []
  ∧ isReady (init Missing []) = (true, finish [] (init Missing []))
  ∧ effects (finish [] (init Missing [])) = [Fire "change"].
Proof.
  destruct (missing_endpoint_loads_at_the_first_read (init Missing []) [CallIsReady])
    as (_ & Hr & He & _); [by left|done|done|by repeat constructor|].
  split; [reflexivity|]. split; [exact Hr|exact He].
Defined.

Lemma call_function that c :
  endpoint that = Function → loading that = false → c_sources (cache that) = None →
  effects (call that c)
  = effects that ++ (if bool_decide (c = CallReset) then [] else [CallEndpoint])
  ∧ endpoint (call that c) = Function ∧ loading (call that c) = false
  ∧ c_sources (cache (call that c)) = None.
Proof.
  intros He Hl Hc. destruct c; simpl.
  - by rewrite app_nil_r.
  - unfold getDataSources, getValue_sources, builders_sources, loadDataSources.
    rewrite Hc, Hl, He. done.
  - unfold isReady, getValue_sources, builders_sources, loadDataSources.
    rewrite Hc, Hl, He. done.
Qed.

(** X9: a function endpoint that has not called back yet is called again by
    every read and every [isReady]: nothing records that a call is under
    way. *)
Theorem function_endpoint_is_called_at_every_read that calls :
  endpoint that = Function → loading that = false → c_sources (cache that) = None →
  effects (run calls that)
  = effects that ++ ((fun _ => CallEndpoint) <$> filter (fun c => c ≠ CallReset) calls).
Proof.
  unfold run. revert that. induction calls as [|c calls IH]; intros that He Hl Hc.
  - simpl. by rewrite app_nil_r.
  - simpl. destruct (call_function that c He Hl Hc) as (Heff & He' & Hl' & Hc').
    rewrite (IH _ He' Hl' Hc'), Heff, filter_cons.
    destruct c; simpl; rewrite <- ?app_assoc; try done.
Qed.

Lemma function_endpoint_is_called_at_every_read_witness :
  effects (run [CallIsReady; CallGetDataSources; CallReset; CallGetDataSources]
               (init Function []))
  = [CallEndpoint; CallEndpoint; CallEndpoint].
Proof.
  exact (function_endpoint_is_called_at_every_read (init Function [])
           [CallIsReady; CallGetDataSources; CallReset; CallGetDataSources]
           eq_refl eq_refl eq_refl).
Defined.
End ReaderFacts.

(** ** The compiled values after a failed request *)

Module FailureFacts.
Import Datasources.






End FailureFacts.

(** ** The callers of the earlier loader *)

Module LegacyFacts.
Import DatasourcesLegacy.

Lemma getDataSources_queue st k e :
  dataCache st = None → dataCallbacks st ≠ [] →
  getDataSources k e st
  = mkState (dataSourcesEndpoint st) None (dataCallbacks st ++ [Some k])
            (errorCallbacks st ++ [e]) (effects st).
Proof.
  intros Hc Hq. unfold getDataSources. rewrite Hc.
  by rewrite bool_decide_eq_false_2 by (by destruct (dataCallbacks st)).
Qed.

Lemma getDataSources_cached st k e v :
  dataCache st = Some v →
  getDataSources k e st
  = mkState (dataSourcesEndpoint st) (Some v) (dataCallbacks st) (errorCallbacks st)
            (effects st ++ [Success k v]).
Proof. intros Hc. unfold getDataSources. by rewrite Hc. Qed.

Lemma callers_queue st calls :
  dataCache st = None → dataCallbacks st ≠ [] →
  callers calls st
  = mkState (dataSourcesEndpoint st) None
            (dataCallbacks st ++ (Some <$> calls.*1))
            (errorCallbacks st ++ calls.*2) (effects st).
Proof.
  unfold callers. revert st. induction calls as [|[k e] calls IH]; intros st Hc Hq.
  - simpl. rewrite !app_nil_r. destruct st. simpl in *. by subst.
  - simpl. rewrite getDataSources_queue by done.
    rewrite IH; simpl; [|done|by destruct (dataCallbacks st)].
    by rewrite <- !app_assoc.
Qed.

Lemma callers_cached st calls v :
  dataCache st = Some v →
  callers calls st
  = mkState (dataSourcesEndpoint st) (Some v) (dataCallbacks st) (errorCallbacks st)
            (effects st ++ ((fun k => Success k v) <$> calls.*1)).
Proof.
  unfold callers. revert st. induction calls as [|[k e] calls IH]; intros st Hc.
  - simpl. rewrite app_nil_r. destruct st. simpl in *. by subst.
  - simpl. rewrite (getDataSources_cached st k e v Hc).
    rewrite IH by done. simpl. by rewrite <- app_assoc.
Qed.

Lemma callers_request st u c e calls :
  dataCache st = None → dataCallbacks st = [] →
  dataSourcesEndpoint st = Url u → u ≠ "" →
  callers ((c, e) :: calls) st
  = mkState (Url u) None (Some <$> (c :: calls.*1)) (errorCallbacks st ++ e :: calls.*2)
            (effects st ++ [Ajax u]).
Proof.
  intros Hc Hq He Hu.
  change (callers ((c, e) :: calls) st) with (callers calls (getDataSources c e st)).
  unfold getDataSources. rewrite Hc, Hq, He. simpl.
  destruct (String.eqb_spec u ""); [done|].
  rewrite callers_queue by done. simpl. by rewrite <- app_assoc.
Qed.

Lemma omap_id_Some {A} (l : list A) : omap id (Some <$> l) = l.
Proof. induction l as [|a l IH]; [done|]. change (a :: omap id (Some <$> l) = a :: l). by rewrite IH. Qed.

(** X10: however many callers ask before the answer, one request is sent; the
    answer is handed to each caller's success callback, once each and in
    the order of the calls, as the same list, which is never empty; and
    whoever asks after the answer gets that list at once, without another
    request. *)
Theorem one_request_serves_every_caller st u c e calls data later :
  dataCache st = None → dataCallbacks st = [] →
  dataSourcesEndpoint st = Url u → u ≠ "" →
  let waiting := callers ((c, e) :: calls) st in
  let answer := match data with [] => [placeholder] | _ => data end in
  effects waiting = effects st ++ [Ajax u]
  ∧ effects (finish data waiting)
    = effects waiting ++ ((fun k => Success k answer) <$> (c :: calls.*1))
  ∧ effects (callers later (finish data waiting))
    = effects (finish data waiting) ++ ((fun k => Success k answer) <$> later.*1).
Proof.
  intros Hc Hq He Hu. cbv zeta. rewrite (callers_request st u) by done.
  assert ((if bool_decide (length data = 0) then [placeholder] else data)
          = match data with [] => [placeholder] | _ => data end) as Hans
    by by destruct data.
  split; [done|]. split.
  - unfold finish. simpl. by rewrite Hans, omap_id_Some.
  - rewrite (callers_cached _ later (match data with [] => [placeholder] | _ => data end));
      [done|].
    unfold finish. simpl. by rewrite Hans.
Qed.

Lemma one_request_serves_every_caller_witness :
  effects (callers [(3, None)]
             (finish [] (callers [(1, None); (2, Some 7)]
                           (mkState (Url "/sources") None [] [] []))))
  = [Ajax "/sources"; Success 1 [placeholder]; Success 2 [placeholder];
     Success 3 [placeholder]].
Proof.
  destruct (one_request_serves_every_caller (mkState (Url "/sources") None [] [] [])
              "/sources" 1 None [(2, Some 7)] [] [(3, None)]) as (_ & _ & H);
    [done..|]. exact H.
Defined.

Lemma ajaxError_state ep cache queue errs effs :
  ajaxError (mkState ep cache queue errs effs)
  = mkState ep (Some [placeholder]) [] []
      ((effs ++ ((fun k => Success k [placeholder]) <$> omap id queue))
       ++ (Failure <$> omap id errs)
       ++ (match omap id errs with [] => [ConsoleLog] | _ => [] end)).
Proof.
  unfold ajaxError, finish. simpl. f_equal. f_equal. f_equal.
  by destruct (omap id errs).
Qed.

Lemma requests_none (f : nat → Effect) (l : list nat) :
  (∀ k, match f k with Ajax _ | CallEndpoint => false | _ => true end = true) →
  List.filter (fun e => match e with Ajax _ | CallEndpoint => true | _ => false end)
              (f <$> l) = [].
Proof.
  intros Hf. induction l as [|k l IH]; [done|].
  rewrite fmap_cons. simpl. rewrite IH.
  specialize (Hf k). by destruct (f k).
Qed.

(** X11: a failed request is answered like an empty list: every waiting success
    callback gets the placeholder source, then every error callback that was
    given is called, and the console gets the error when none was.  The
    placeholder stays cached, so the request is never sent again: whoever
    asks later gets the placeholder at once. *)
Theorem failed_request_is_never_sent_again st u c e calls later :
  dataCache st = None → dataCallbacks st = [] → errorCallbacks st = [] →
  dataSourcesEndpoint st = Url u → u ≠ "" →
  let failed := ajaxError (callers ((c, e) :: calls) st) in
  effects failed
  = effects st ++ [Ajax u]
    ++ ((fun k => Success k [placeholder]) <$> (c :: calls.*1))
    ++ (Failure <$> omap id (e :: calls.*2))
    ++ (match omap id (e :: calls.*2) with [] => [ConsoleLog] | _ => [] end)
  ∧ effects (callers later failed)
    = effects failed ++ ((fun k => Success k [placeholder]) <$> later.*1)
  ∧ requests (callers later failed) = requests st ++ [Ajax u].
Proof.
  intros Hc Hq Herr He Hu. cbv zeta. rewrite (callers_request st u) by done.
  rewrite Herr, app_nil_l, ajaxError_state, omap_id_Some.
  set (errs := omap id (e :: calls.*2)).
  split; [simpl; by rewrite <- !app_assoc|].
  rewrite (callers_cached _ later [placeholder]) by done. simpl.
  split; [done|].
  unfold requests. simpl. rewrite !List.filter_app. simpl.
  rewrite !requests_none by done. rewrite !app_nil_r.
  destruct errs; simpl; by rewrite ?app_nil_r.
Qed.

Lemma failed_request_is_never_sent_again_witness :
  effects (callers [(3, None)]
             (ajaxError (callers [(1, None); (2, Some 7)]
                           (mkState (Url "/sources") None [] [] []))))
  = [Ajax "/sources"; Success 1 [placeholder]; Success 2 [placeholder]; Failure 7;
     Success 3 [placeholder]].
Proof.
  destruct (failed_request_is_never_sent_again (mkState (Url "/sources") None [] [] [])
              "/sources" 1 None [(2, Some 7)] [(3, None)]) as (_ & H & _);
    [done..|]. exact H.
Defined.
End LegacyFacts.

(** * The other modules of the file *)

(** ** The undo manager *)

Module UndoFacts.
Import UndoManager.

Section Undo.
Context {Mug Sibling Position : Type}.
Variable alert : list bool.


Lemma toggleAlert_stack (st : @State Mug Sibling Position) :
  undoStack (toggleAlert alert st) = undoStack st
  ∧ effects (toggleAlert alert st) = effects st.
Proof.
  unfold toggleAlert, createAlert.
  destruct (_ && _); [done|]. by destruct (_ && _).
Qed.

Lemma appendMug_stack mug s p (st : @State Mug Sibling Position) :
  undoStack (appendMug alert mug s p st) = undoStack st ++ [(mug, s, p)]
  ∧ effects (appendMug alert mug s p st) = effects st.
Proof. unfold appendMug. apply (toggleAlert_stack (mkState _ _ _)). Qed.

Lemma resetUndo_stack mug s p (st : @State Mug Sibling Position) :
  undoStack (resetUndo alert mug s p st)
  = match mug with Some _ => [(mug, s, p)] | None => [] end
  ∧ effects (resetUndo alert mug s p st) = effects st ++ [Fire "reset"].
Proof.
  unfold resetUndo. simpl.
  match goal with |- context [toggleAlert alert ?t] =>
    destruct (toggleAlert_stack t) as [-> ->] end.
  done.
Qed.

Lemma reinsert_mugs (l : list (Mug * option Sibling * option Position)) :
  reinsert ((fun e => (Some e.1.1, e.1.2, e.2)) <$> l)
  = Js.Ok ((fun e => InsertQuestion e.1.1 e.1.2 e.2) <$> l).
Proof.
  induction l as [|[[m s] p] l IH]; [done|].
  rewrite !fmap_cons. simpl. by rewrite IH.
Qed.

Lemma reinsert_cons (m : Mug) (s : option Sibling) (p : option Position) rest :
  reinsert ((Some m, s, p) :: rest)
  = match reinsert rest with
    | Js.Ok es => Js.Ok (InsertQuestion m s p :: es)
    | e => e
    end.
Proof. reflexivity. Qed.

Lemma inserted_app (st : @State Mug Sibling Position) es :
  inserted (mkState (undoStack st) (page st) (effects st ++ es))
  = inserted st ++ omap (fun e => match e with
                                  | InsertQuestion m s p => Some (Some m, s, p)
                                  | Fire _ => None
                                  end) es.
Proof. unfold inserted. simpl. apply omap_app. Qed.

Lemma omap_inserted (l : list (Mug * option Sibling * option Position)) :
  omap (fun e => match e with
                 | InsertQuestion m s p => Some (Some m, s, p)
                 | Fire _ => None
                 end)
       ((fun e => InsertQuestion e.1.1 e.1.2 e.2) <$> l)
  = (fun e => (Some e.1.1, e.1.2, e.2)) <$> l.
Proof.
  induction l as [|e l IH]; [done|]. rewrite !fmap_cons. simpl. f_equal. exact IH.
Qed.

Lemma undo_inserted (st : @State Mug Sibling Position)
    (l : list (Mug * option Sibling * option Position)) :
  undoStack st = (fun e => (Some e.1.1, e.1.2, e.2)) <$> l →
  ∃ st2, undo alert st = Js.Ok st2
    ∧ inserted st2 = inserted st ++ ((fun e => (Some e.1.1, e.1.2, e.2)) <$> l)
    ∧ undoStack st2 = [].
Proof.
  intros Hs. unfold undo. rewrite Hs, reinsert_mugs.
  eexists. split; [reflexivity|].
  match goal with |- context [resetUndo alert None None None ?t] =>
    destruct (resetUndo_stack None None None t) as [Hs2 He2]
  end.
  split; [|exact Hs2].
  unfold inserted. rewrite He2. cbn [effects]. rewrite !omap_app, omap_inserted.
  cbn [omap list_omap]. by rewrite app_nil_r.
Qed.

(** X12: [undo] puts back every mug deleted since the last [resetUndo] that
    named a mug, that mug first and the others in the order they were
    appended, each at its sibling and position; what the stack held before
    that [resetUndo] is not put back.  It leaves the stack empty, so that
    another [undo] puts back nothing. *)
Theorem undo_puts_back_the_mugs_in_order (st : @State Mug Sibling Position) m s p
    (more : list (Mug * option Sibling * option Position)) :
  let deleted := foldl (fun st e => appendMug alert (Some e.1.1) e.1.2 e.2 st)
                       (resetUndo alert (Some m) s p st) more in
  ∃ st2, undo alert deleted = Js.Ok st2
    ∧ inserted st2
      = inserted st ++ (Some m, s, p) :: ((fun e => (Some e.1.1, e.1.2, e.2)) <$> more)
    ∧ undoStack st2 = []
    ∧ ∃ st3, undo alert st2 = Js.Ok st3 ∧ inserted st3 = inserted st2.
Proof.
  cbv zeta.
  assert (∀ (st0 : @State Mug Sibling Position),
            undoStack (foldl (fun st e => appendMug alert (Some e.1.1) e.1.2 e.2 st) st0 more)
            = undoStack st0 ++ ((fun e => (Some e.1.1, e.1.2, e.2)) <$> more)
            ∧ effects (foldl (fun st e => appendMug alert (Some e.1.1) e.1.2 e.2 st) st0 more)
              = effects st0) as Hfold.
  { induction more as [|e more IH]; intros st0; [by rewrite app_nil_r|].
    simpl. destruct (IH (appendMug alert (Some e.1.1) e.1.2 e.2 st0)) as [-> ->].
    destruct (appendMug_stack (Some e.1.1) e.1.2 e.2 st0) as [-> ->].
    by rewrite <- app_assoc. }
  destruct (Hfold (resetUndo alert (Some m) s p st)) as [Hstack Heff].
  destruct (resetUndo_stack (Some m) s p st) as [Hr He].
  rewrite Hr in Hstack. rewrite He in Heff.
  set (deleted := foldl _ _ more) in *.
  destruct (undo_inserted deleted ((m, s, p) :: more) Hstack) as (st2 & Hu & Hi & Hs2).
  exists st2. split; [done|]. split.
  - rewrite Hi. unfold inserted at 1. rewrite Heff, omap_app. simpl.
    by rewrite app_nil_r.
  - split; [done|].
    destruct (undo_inserted st2 [] Hs2) as (st3 & Hu3 & Hi3 & _).
    exists st3. split; [done|]. by rewrite Hi3, app_nil_r.
Qed.
End Undo.

Section Alert.
Context {Mug Sibling Position : Type}.

Lemma toggleAlert_in_step (stack : list (@Entry Mug Sibling Position)) page effs :
  page = [] ∨ page = [true] →
  in_step (toggleAlert [true] (mkState stack page effs)).
Proof.
  unfold in_step, toggleAlert, createAlert, alertShown. simpl.
  intros [-> | ->]; destruct stack; done.
Qed.

Lemma in_step_page (st : @State Mug Sibling Position) : in_step st → page st = [] ∨ page st = [true].
Proof. unfold in_step. destruct (undoStack st); eauto. Qed.

(** X13: when the template puts one alert with the class [in] on the page, the
    page shows that alert exactly when there is something to undo, and
    never twice: every operation of the manager keeps it so. *)
Theorem alert_is_shown_iff_something_can_be_undone (st : @State Mug Sibling Position) mug s p :
  in_step st →
  in_step (resetUndo [true] mug s p st)
  ∧ in_step (appendMug [true] mug s p st)
  ∧ ∀ st', undo [true] st = Js.Ok st' → in_step st'.
Proof.
  intros Hst. pose proof (in_step_page st Hst) as Hp.
  split; [|split].
  - unfold resetUndo.
    match goal with |- context [toggleAlert [true] ?t] =>
      pose proof (toggleAlert_in_step (undoStack t) (page t) (effects t) Hp) as H;
      change (mkState (undoStack t) (page t) (effects t)) with t in H;
      destruct (toggleAlert [true] t)
    end.
    exact H.
  - unfold appendMug. by apply toggleAlert_in_step.
  - intros st'. unfold undo. destruct (reinsert _); [|done..].
    intros [= <-]. unfold resetUndo.
    match goal with |- context [toggleAlert [true] ?t] =>
      pose proof (toggleAlert_in_step (undoStack t) (page t) (effects t) Hp) as H;
      change (mkState (undoStack t) (page t) (effects t)) with t in H;
      destruct (toggleAlert [true] t)
    end.
    exact H.
Qed.
End Alert.

Lemma alert_is_shown_iff_something_can_be_undone_witness :
  in_step (appendMug [true] (Some 2) None (Some "after")
             (resetUndo [true] (Some 1) (Some 0) (Some "after")
                (UndoManager.mkState (Mug:=nat) (Sibling:=nat) (Position:=string) [] [] []))).
Proof.
  assert (in_step (UndoManager.mkState (Mug:=nat) (Sibling:=nat) (Position:=string) [] [] []))
    as H0 by reflexivity.
  pose proof (proj1 (alert_is_shown_iff_something_can_be_undone (mkState [] [] [])
                       (Some 1) (Some 0) (Some "after") H0)) as H1.
  exact (proj1 (proj2 (alert_is_shown_iff_something_can_be_undone _
                         (Some 2) None (Some "after") H1))).
Defined.
End UndoFacts.

(** ** The commtrack plugin *)

Module CommtrackFacts.
Import Commtrack.

Lemma length_append a b :
  String.length (a +:+ b) = (String.length a + String.length b)%nat.
Proof.
  induction a as [|c a IH]; [done|].
  change (S (String.length (a +:+ b)) = S (String.length a + String.length b)).
  by rewrite IH.
Qed.

(** [basePath] removes the suffix [/entry/@quantity]. *)
Lemma basePath_app p : basePath (p +:+ "/entry/@quantity") = p.
Proof.
  induction p as [|c p IH]; [done|].
  change (basePath (String c (p +:+ "/entry/@quantity")) = String c p).
  cbn [basePath]. 
  destruct (String.eqb_spec (String c (p +:+ "/entry/@quantity")) "/entry/@quantity")
    as [Heq|_].
  - apply (f_equal String.length) in Heq. simpl in Heq.
    rewrite length_append in Heq. simpl in Heq. lia.
  - by rewrite IH.
Qed.

Lemma basePath_spec s :
  basePath s = s ∨ s = basePath s +:+ "/entry/@quantity".
Proof.
  induction s as [|c s IH]; [by left|].
  cbn [basePath].
  destruct (String.eqb_spec (String c s) "/entry/@quantity") as [->|_]; [by right|].
  destruct IH as [->|IH]; [by left|]. right.
  change (String c s = String c (basePath s +:+ "/entry/@quantity")). by rewrite <- IH.
Qed.

Section FormFacts.
Variable getMugByPath : string → option Mug.
Variable getAbsolutePath : Mug → option string.

(** X14: the bind element [getBindList] writes for a Transfer question is read
    back by [parseBindElement] as the quantity of that question: when the
    form finds the question at its path and nothing at the path of the
    bind, the mug is given the [calculate] attribute as its quantity, which
    is the quantity it had, and the handler the plugin overrides is not
    called. *)
Theorem quantity_bind_is_read_back mug p b :
  isTransfer (Some mug) = true →
  getAbsolutePath mug = Some p →
  getMugByPath p = Some mug →
  getMugByPath (p +:+ "/entry/@quantity") = None →
  b ∈ getBindList getAbsolutePath mug →
  nodeset b = p +:+ "/entry/@quantity"
  ∧ calculate b = quantity mug
  ∧ parseBindElement getMugByPath (calculate b) (nodeset b) = SetQuantity p mug.
Proof.
  intros Ht Hp Hm Hnone Hb.
  unfold getBindList in Hb. apply list_elem_of_singleton in Hb. subst b. simpl.
  rewrite Hp. simpl. split; [done|]. split; [done|].
  unfold parseBindElement. rewrite Hnone, basePath_app, Hm, Ht.
  destruct (String.eqb_spec (p +:+ "/entry/@quantity") p) as [Heq|_].
  - apply (f_equal String.length) in Heq. rewrite length_append in Heq.
    simpl in Heq. lia.
  - simpl. by destruct mug.
Qed.

(** X15: [parseBindElement] hands a bind over to the handler it overrides
    exactly when a mug is at the path of the bind, or the path does not end
    in [/entry/@quantity], or the path without that ending is not the path
    of a Transfer question; in every other case it sets the quantity. *)
Theorem other_binds_are_left_to_the_old_handler attr path :
  parseBindElement getMugByPath attr path = CallOld
  ↔ (is_Some (getMugByPath path)
     ∨ (∀ p, path ≠ p +:+ "/entry/@quantity")
     ∨ isTransfer (getMugByPath (basePath path)) = false).
Proof.
  unfold parseBindElement. split.
  - intros H. destruct (getMugByPath path) as [m|]; [left; eauto|]. right.
    destruct (String.eqb_spec path (basePath path)) as [Heq|Hne].
    + left. intros p Hp. rewrite Hp, basePath_app in Heq.
      apply (f_equal String.length) in Heq. rewrite length_append in Heq.
      simpl in Heq. lia.
    + right. cbn [negb] in H. destruct (getMugByPath (basePath path)) as [m|]; [|done].
      by destruct (isTransfer (Some m)).
  - intros [[m ->]|[Hno|Hnt]]; [done| |].
    + destruct (getMugByPath path); [done|].
      destruct (basePath_spec path) as [Heq|Heq]; [by rewrite Heq, String.eqb_refl|].
      by destruct (Hno (basePath path)).
    + destruct (getMugByPath path); [done|].
      destruct (negb _); [|done].
      destruct (getMugByPath (basePath path)) as [m|]; [|done].
      by rewrite Hnt.
Qed.
End FormFacts.

Lemma quantity_bind_is_read_back_witness :
  parseBindElement one_transfer (Some "") "/data/transfer/entry/@quantity"
  = SetQuantity "/data/transfer" transfer.
Proof.
  destruct (quantity_bind_is_read_back one_transfer (fun _ => Some "/data/transfer")
              transfer "/data/transfer"
              (mkBind "/data/transfer/entry/@quantity" (Some ""))) as (_ & _ & H);
    [reflexivity|reflexivity|reflexivity|reflexivity|left|exact H].
Defined.

Lemma other_binds_are_left_to_the_old_handler_witness :
  parseBindElement one_transfer (Some "1") "/data/question/entry/@quantity" = CallOld.
Proof.
  apply (proj2 (other_binds_are_left_to_the_old_handler one_transfer (Some "1")
                  "/data/question/entry/@quantity")).
  right. right. reflexivity.
Defined.

Lemma by_ref_snoc l w : by_ref (l ++ [w]) = <[Js.str (ref w) := w]> (by_ref l).
Proof. unfold by_ref. by rewrite foldl_app. Qed.

Lemma by_ref_none l key :
  (∀ v, v ∈ l → Js.str (ref v) ≠ key) → by_ref l !! key = None.
Proof.
  induction l as [|w l IH] using rev_ind; intros Hno; [done|].
  rewrite by_ref_snoc, lookup_insert_ne.
  - apply IH. intros v Hv. apply Hno. apply elem_of_app. by left.
  - apply Hno. apply elem_of_app. right. left.
Qed.

Lemma by_ref_last before v after key :
  Js.str (ref v) = key → (∀ w, w ∈ after → Js.str (ref w) ≠ key) →
  by_ref (before ++ v :: after) !! key = Some v.
Proof.
  intros Hv. induction after as [|w after IH] using rev_ind; intros Hno.
  - rewrite by_ref_snoc, Hv. apply lookup_insert_eq.
  - rewrite app_comm_cons, app_assoc, by_ref_snoc, lookup_insert_ne.
    + apply IH. intros x Hx. apply Hno. apply elem_of_app. by left.
    + apply Hno. apply elem_of_app. right. left.
Qed.

Lemma handleMugParseFinish_get setvalues path mug a p :
  isTransfer (Some mug) = true → (a, p) ∈ setvalueData →
  get a (handleMugParseFinish setvalues path mug)
  = default (mkSetValue (Some "jr-insert") None (Some ""))
            (by_ref setvalues !! (Js.str_null path +:+ "/" +:+ p)).
Proof.
  intros Ht Hin. unfold handleMugParseFinish. rewrite Ht.
  unfold setvalueData in *.
  repeat (apply elem_of_cons in Hin as [[= -> ->]|Hin]; [reflexivity|]).
  by apply elem_of_nil in Hin.
Qed.

(** X16: after parsing, each of the four setvalue properties of a Transfer
    question is the last setvalue of the form whose [ref] is the path of the
    question followed by the path of the property, and the default
    [{event: "jr-insert", value: ""}] when the form has none; setvalues
    with other refs are not looked at.  The class and the quantity of the
    mug stay as they are, and a mug that is not a Transfer question is left
    alone. *)
Theorem setvalues_are_found_by_ref setvalues path mug a p :
  isTransfer (Some mug) = true → (a, p) ∈ setvalueData →
  let key := Js.str_null path +:+ "/" +:+ p in
  let found := get a (handleMugParseFinish setvalues path mug) in
  (∀ before v after,
     setvalues = before ++ v :: after → Js.str (ref v) = key →
     (∀ w, w ∈ after → Js.str (ref w) ≠ key) → found = v)
  ∧ ((∀ v, v ∈ setvalues → Js.str (ref v) ≠ key) →
     found = mkSetValue (Some "jr-insert") None (Some ""))
  ∧ className (handleMugParseFinish setvalues path mug) = className mug
  ∧ quantity (handleMugParseFinish setvalues path mug) = quantity mug
  ∧ ∀ other, isTransfer (Some other) = false →
             handleMugParseFinish setvalues path other = other.
Proof.
  intros Ht Hin. cbv zeta. rewrite (handleMugParseFinish_get _ _ _ _ _ Ht Hin).
  split; [|split; [|split; [|split]]].
  - intros before v after -> Hv Hno. by rewrite by_ref_last.
  - intros Hno. by rewrite by_ref_none.
  - unfold handleMugParseFinish. by rewrite Ht.
  - unfold handleMugParseFinish. by rewrite Ht.
  - intros other Ho. unfold handleMugParseFinish. by rewrite Ho.
Qed.

Lemma setvalues_are_found_by_ref_witness :
  get Src (handleMugParseFinish
             [mkSetValue (Some "jr-insert") (Some "/data/transfer/@src") (Some "'a'");
              mkSetValue (Some "jr-insert") (Some "/data/other/@src") (Some "'b'")]
             (Some "/data/transfer") transfer)
  = mkSetValue (Some "jr-insert") (Some "/data/transfer/@src") (Some "'a'").
Proof.
  assert ((Src, "@src") ∈ setvalueData) as Hin by (right; left).
  destruct (setvalues_are_found_by_ref
              [mkSetValue (Some "jr-insert") (Some "/data/transfer/@src") (Some "'a'");
               mkSetValue (Some "jr-insert") (Some "/data/other/@src") (Some "'b'")]
              (Some "/data/transfer") transfer Src "@src" eq_refl Hin) as (Hlast & _).
  apply (Hlast [] _ [mkSetValue (Some "jr-insert") (Some "/data/other/@src") (Some "'b'")]);
    [reflexivity|reflexivity|].
  intros w Hw. apply list_elem_of_singleton in Hw. subst w. simpl. discriminate.
Defined.

Lemma truthy_ref path p : Js.truthy (Some (Js.str_null path +:+ "/" +:+ p)) = true.
Proof.
  simpl. destruct (String.eqb_spec (Js.str_null path +:+ "/" +:+ p) "") as [Heq|_]; [|done].
  exfalso. revert Heq. apply append_nonempty_r.
  by change (String "/" p ≠ "").
Qed.

Section WriteFacts.
Variable addSetValue : option string → string → option string → SetValue.

Lemma retarget_fields path st d :
  className (retarget addSetValue path st d).1 = className st.1
  ∧ sectionId (retarget addSetValue path st d).1 = sectionId st.1
  ∧ quantity (retarget addSetValue path st d).1 = quantity st.1
  ∧ rawDataAttributes (retarget addSetValue path st d).1 = rawDataAttributes st.1.
Proof.
  unfold retarget. destruct d as [[] p]; simpl; by destruct (Js.truthy _).
Qed.

(** [prepareForWrite] touches nothing but the four setvalues. *)
Lemma prepareForWrite_fields path mug :
  className (prepareForWrite addSetValue path mug).1 = className mug
  ∧ sectionId (prepareForWrite addSetValue path mug).1 = sectionId mug
  ∧ quantity (prepareForWrite addSetValue path mug).1 = quantity mug
  ∧ rawDataAttributes (prepareForWrite addSetValue path mug).1 = rawDataAttributes mug.
Proof.
  unfold prepareForWrite, setvalueData. simpl.
  repeat match goal with |- context [retarget addSetValue path ?st ?d] =>
    destruct (retarget_fields path st d) as (-> & -> & -> & ->)
  end.
  done.
Qed.

Hypothesis addSetValue_returns : ∀ e r v, addSetValue e r v = added e r v.

Lemma retarget_get path st d :
  get d.1 (retarget addSetValue path st d).1
  = mkSetValue (event (get d.1 st.1)) (Some (Js.str_null path +:+ "/" +:+ d.2))
               (value (get d.1 st.1))
  ∧ (∀ a, a ≠ d.1 → get a (retarget addSetValue path st d).1 = get a st.1)
  ∧ (retarget addSetValue path st d).2
    = st.2 ++ (if Js.truthy (ref (get d.1 st.1)) then []
               else [(event (get d.1 st.1), Js.str_null path +:+ "/" +:+ d.2,
                      value (get d.1 st.1))]).
Proof.
  unfold retarget. rewrite addSetValue_returns. unfold added.
  destruct d as [a p]. simpl.
  destruct (Js.truthy (ref (get a st.1))); simpl; rewrite ?app_nil_r;
    (split; [by destruct a|]); (split; [|done]);
    intros b Hb; by destruct a, b.
Qed.

(** X17: for a form whose [addSetValue] returns the setvalue it was asked
    to add, [prepareForWrite] leaves each of the four setvalues of the mug
    with its event and value and with the path of the mug followed by the
    path of the property as its [ref]; it asks the form to add those, and
    only those, that had no [ref], in the order of [setvalueData]; and
    preparing the mug again, at the same or at another path, adds none. *)
Theorem prepareForWrite_adds_each_setvalue_once path path' mug :
  (∀ a p, (a, p) ∈ setvalueData →
     get a (prepareForWrite addSetValue path mug).1
     = mkSetValue (event (get a mug)) (Some (Js.str_null path +:+ "/" +:+ p))
                  (value (get a mug)))
  ∧ (prepareForWrite addSetValue path mug).2
    = omap (fun d => if Js.truthy (ref (get d.1 mug)) then None
                     else Some (event (get d.1 mug), Js.str_null path +:+ "/" +:+ d.2,
                                value (get d.1 mug)))
           setvalueData
  ∧ (prepareForWrite addSetValue path' (prepareForWrite addSetValue path mug).1).2 = [].
Proof.
  assert (∀ q m,
            (∀ a p, (a, p) ∈ setvalueData →
               get a (prepareForWrite addSetValue q m).1
               = mkSetValue (event (get a m)) (Some (Js.str_null q +:+ "/" +:+ p))
                            (value (get a m)))
            ∧ (prepareForWrite addSetValue q m).2
              = omap (fun d => if Js.truthy (ref (get d.1 m)) then None
                               else Some (event (get d.1 m), Js.str_null q +:+ "/" +:+ d.2,
                                          value (get d.1 m)))
                     setvalueData) as Hone.
  { intros q m. unfold prepareForWrite, setvalueData. simpl foldl.
    set (s0 := (m, @nil Added)).
    destruct (retarget_get q s0 (EntryId, "entry/@id")) as (G1 & O1 & C1).
    set (s1 := retarget addSetValue q s0 (EntryId, "entry/@id")) in *.
    destruct (retarget_get q s1 (Src, "@src")) as (G2 & O2 & C2).
    set (s2 := retarget addSetValue q s1 (Src, "@src")) in *.
    destruct (retarget_get q s2 (Dest, "@dest")) as (G3 & O3 & C3).
    set (s3 := retarget addSetValue q s2 (Dest, "@dest")) in *.
    destruct (retarget_get q s3 (Date, "@date")) as (G4 & O4 & C4).
    set (s4 := retarget addSetValue q s3 (Date, "@date")) in *.
    cbn [fst snd] in *. split.
    - intros a p Hin.
      repeat (apply elem_of_cons in Hin as [[= -> ->]|Hin]).
      + rewrite (O4 EntryId), (O3 EntryId), (O2 EntryId) by done. exact G1.
      + rewrite (O4 Src), (O3 Src) by done. rewrite G2. by rewrite (O1 Src).
      + rewrite (O4 Dest) by done. rewrite G3. by rewrite (O2 Dest), (O1 Dest).
      + rewrite G4. by rewrite (O3 Date), (O2 Date), (O1 Date).
      + by apply elem_of_nil in Hin.
    - rewrite C4, C3, C2, C1.
      rewrite (O3 Date), (O2 Date), (O1 Date), (O2 Dest), (O1 Dest), (O1 Src) by done.
      subst s0. cbn [fst snd omap list_omap app].
      destruct (Js.truthy (ref (get EntryId m))), (Js.truthy (ref (get Src m))),
        (Js.truthy (ref (get Dest m))), (Js.truthy (ref (get Date m))); reflexivity. }
  destruct (Hone path mug) as [Hget Hcalls].
  split; [exact Hget|]. split; [exact Hcalls|].
  destruct (Hone path' (prepareForWrite addSetValue path mug).1) as [_ ->].
  unfold setvalueData at 1. cbn [omap list_omap fst snd].
  rewrite (Hget EntryId "entry/@id"), (Hget Src "@src"), (Hget Dest "@dest"),
    (Hget Date "@date")
    by (unfold setvalueData;
        first [left | right; left | right; right; left | right; right; right; left]).
  cbn [ref]. by rewrite !truthy_ref.
Qed.
End WriteFacts.

Lemma prepareForWrite_adds_each_setvalue_once_witness :
  (prepareForWrite added (Some "/data/transfer") transfer).2
  = [(Some "jr-insert", "/data/transfer/entry/@id", Some "");
     (Some "jr-insert", "/data/transfer/@src", Some "");
     (Some "jr-insert", "/data/transfer/@dest", Some "");
     (Some "jr-insert", "/data/transfer/@date", Some "today()")]
  ∧ (prepareForWrite added (Some "/data/moved")
       (prepareForWrite added (Some "/data/transfer") transfer).1).2 = [].
Proof.
  destruct (prepareForWrite_adds_each_setvalue_once added (fun e r v => eq_refl)
              (Some "/data/transfer") (Some "/data/moved") transfer) as (_ & Hc & Hn).
  split; [exact Hc|exact Hn].
Defined.

Lemma or_empty (o : option string) : Js.str (Js.or o (Some "")) = default "" o.
Proof.
  unfold Js.or. destruct o as [s|]; [|done]. simpl.
  by destruct (String.eqb_spec s "") as [->|].
Qed.

(** X18: the section id survives parsing and writing.  [parseDataNode]
    moves the attribute [section-id] from [rawDataAttributes] to
    [sectionId] (and throws when [rawDataAttributes] is [null]);
    [getExtraDataAttributes] then writes it back as [section-id], together
    with the [src], [dest] and [date] attributes that were parsed, each
    [""] when it was missing, and with the ledger namespace and the role
    whatever was parsed; and when the attributes it writes come back as
    [rawDataAttributes], [parseDataNode] finds the [sectionId] of the mug
    that was written. *)
Theorem section_id_survives_parsing_and_writing addSetValue path mug :
  (rawDataAttributes mug = None → parseDataNode mug = Js.TypeError)
  ∧ (∀ attrs, rawDataAttributes mug = Some attrs →
       ∃ parsed, parseDataNode mug = Js.Ok parsed
         ∧ rawDataAttributes parsed = Some (delete "section-id" attrs)
         ∧ let written := as_attributes (getExtraDataAttributes addSetValue path parsed).1 in
           written !! "section-id" = attrs !! "section-id"
           ∧ written !! "src" = Some (default "" (attrs !! "src"))
           ∧ written !! "dest" = Some (default "" (attrs !! "dest"))
           ∧ written !! "date" = Some (default "" (attrs !! "date"))
           ∧ written !! "xmlns" = Some "http://commcarehq.org/ledger/v1"
           ∧ written !! "vellum:role" = Some "Transfer")
  ∧ (∀ written, written = as_attributes (getExtraDataAttributes addSetValue path mug).1 →
       ∃ parsed,
         parseDataNode (mkMug (className mug) (sectionId mug) (quantity mug) (Some written)
                              (entryId mug) (src mug) (dest mug) (date mug))
         = Js.Ok parsed
         ∧ sectionId parsed = sectionId mug).
Proof.
  split; [|split].
  - intros Hnone. unfold parseDataNode. by rewrite Hnone.
  - intros attrs Hattrs. unfold parseDataNode. rewrite Hattrs.
    eexists. split; [reflexivity|]. split; [reflexivity|].
    cbv zeta. unfold getExtraDataAttributes. cbn [fst].
    match goal with |- context [prepareForWrite addSetValue path ?m] =>
      destruct (prepareForWrite_fields addSetValue path m) as (_ & -> & _ & ->)
    end.
    cbn [sectionId rawDataAttributes default from_option id].
    rewrite !or_empty, !lookup_delete_ne by done.
    unfold as_attributes.
    destruct (attrs !! "section-id") as [sid|]; cbn [omap list_omap fmap option_fmap option_map fst snd list_to_map foldr uncurry];
      repeat split; by repeat (rewrite lookup_insert_ne by done || rewrite lookup_insert_eq || rewrite lookup_empty).
  - intros written ->. unfold parseDataNode. cbn [rawDataAttributes].
    eexists. split; [reflexivity|]. cbn [sectionId].
    unfold getExtraDataAttributes. cbn [fst].
    destruct (prepareForWrite_fields addSetValue path mug) as (_ & -> & _ & ->).
    unfold as_attributes.
    destruct (sectionId mug) as [sid|]; cbn [omap list_omap fmap option_fmap option_map fst snd list_to_map foldr uncurry];
      by repeat (rewrite lookup_insert_ne by done || rewrite lookup_insert_eq || rewrite lookup_empty).
Qed.

Lemma section_id_survives_parsing_and_writing_witness :
  ∃ parsed,
    parseDataNode transfer = Js.Ok parsed
    ∧ as_attributes (getExtraDataAttributes added (Some "/data/transfer") parsed).1
        !! "section-id" = Some "stock".
Proof.
  destruct (proj1 (proj2 (section_id_survives_parsing_and_writing added
                            (Some "/data/transfer") transfer))
              {["section-id" := "stock"]} eq_refl) as (parsed & Hp & _ & Hs & _).
  exists parsed. split; [exact Hp|exact Hs].
Defined.
End CommtrackFacts.
